(** * Adaptive bounding-box search: the Yelp and TripAdvisor clients

    A shallow embedding of [pipeline/foodware/places/yelp.py] (class
    [YelpClient]) and of [notebooks/utils/trip_hotels.py] (method
    [TripadvisorCity.find_places_in_bounding_box]).

    Both clients talk to a remote search service.  The service is a
    function from the history of the session and the request to a response;
    the program is a function from a trace of events to an outcome and a
    longer trace.  [while True] loops are driven by a fuel, which for the
    TripAdvisor search bounds the depth of the recursion as well; a run
    that exhausts it yields [OutOfFuel].

    Numbers.  Python [int]s are [Z].  [Decimal] coordinates are [Q], and
    so are the floats they are converted to for a request.  The search
    radius starts as the [int] 40000 (2000 for TripAdvisor) and is then
    divided by 4 (by 2): a division of a binary float by a power of two is
    exact as long as the result is a normal number, so the radius is a [Q]
    too.  The Yelp search can divide until the stack is full, which is far
    enough for the radius to leave the normal numbers: [quarter] rounds
    there as the floats do.  The messages sent to the logger are left out
    of the trace.

    The call stack.  The Yelp search calls itself on the parts of a cell,
    and the interpreter raises [RecursionError] when its stack is full
    (1000 frames unless [sys.setrecursionlimit] is called, which the
    sources never do).  How many nested calls fit depends on the frames in
    use around the search and inside [requests.get], so the search takes
    that number as [depth]; the call that no longer fits raises before its
    request leaves.  The stack of the TripAdvisor search is left unbounded:
    what is stated of that search is about its loop, or holds whether or
    not a call overflows. *)

From Stdlib Require Import ZArith QArith Qround Qminmax Lia.
From stdpp Require Import base option list strings gmap.

Set Warnings "-register-all".
Local Open Scope Z_scope.

(** ** Data *)

(** A parsed JSON value, as [requests.Response.json] returns it. *)
Inductive json : Type :=
  | JNull
  | JBool (b : bool)
  | JInt (n : Z)
  | JStr (s : string)
  | JArr (items : list json)
  | JObj (fields : list (string * json)).

Inductive exn : Type :=
  | RuntimeError (msg : string)
  | KeyError (key : string)
  | RecursionError
  | JSONDecodeError
  | RequestException.

(** [common.geometry.Point] and [common.geometry.BoundingBox]: the fields
    the two clients read and the keyword arguments [trip_hotels.py] builds a
    box from. *)
Record Point : Type := { lon : Q; lat : Q }.

Record BoundingBox : Type :=
  { min_x : Q; max_x : Q; min_y : Q; max_y : Q }.

(** Modelled from the spec: the module [common.geometry] and the base class
    [foodware.places.common.IPlacesProvider] are not part of the sources at
    hand.  Their operations are the fields of this class, next to the two
    operations on floats that [run_nearby_search] uses and that do not
    compute in [Q]; every theorem of a section that assumes the class holds
    for all implementations. *)
Class Geometry : Type := {
  Boundary : Type;
  Place : Type;
  from_polygon : Boundary -> BoundingBox;
  center : BoundingBox -> Point;
  bottom_left : BoundingBox -> Point;
  split_along_axes : BoundingBox -> nat -> nat -> list BoundingBox;
  split_into_squares : BoundingBox -> Q -> list BoundingBox;
  intersects_with : BoundingBox -> Boundary -> bool;
  convert_meters_to_degrees : Q -> Point -> Q * Q;
  clean_places : list json -> Boundary -> list Place;
  (* [2**0.5], and [Decimal(str(x))] of a float [x] *)
  sqrt2 : Q;
  decimal_of_float : Q -> Q
}.

(** ** Programs that talk to a service *)

Module Session.
Section Session.
Context {Req Resp : Type}.

Inductive event : Type :=
  | EvGet (rq : Req)
  | EvSleep (seconds : Q).

Inductive outcome (A : Type) : Type :=
  | Done (a : A)
  | Raised (e : exn)
  | OutOfFuel.
#[global] Arguments Done {A} a.
#[global] Arguments Raised {A} e.
#[global] Arguments OutOfFuel {A}.

Definition trace : Type := list event.

(** The service answers a request knowing everything that happened
    before it. *)
Definition service : Type := trace -> Req -> Resp.

Definition M (A : Type) : Type := trace -> outcome A * trace.

Definition ret {A} (a : A) : M A := fun tr => (Done a, tr).

Definition bind {A B} (m : M A) (k : A -> M B) : M B :=
  fun tr =>
    match m tr with
    | (Done a, tr') => k a tr'
    | (Raised e, tr') => (Raised e, tr')
    | (OutOfFuel, tr') => (OutOfFuel, tr')
    end.

Definition raise {A} (e : exn) : M A := fun tr => (Raised e, tr).
Definition timeout {A} : M A := fun tr => (OutOfFuel, tr).

(** [requests.get] and [time.sleep]. *)
Definition get (web : service) (rq : Req) : M Resp :=
  fun tr => (Done (web tr rq), tr ++ [EvGet rq]).

Definition sleep (seconds : Q) : M unit :=
  fun tr => (Done tt, tr ++ [EvSleep seconds]).

(** [while True: body], where the body either goes round again with a new
    loop state ([inl]) or returns from the function ([inr]). *)
Fixpoint while_true {St A} (n : nat) (body : St -> M (St + A)) (s : St)
  : M A :=
  match n with
  | O => timeout
  | S n' =>
      bind (body s) (fun x =>
        match x with
        | inl s' => while_true n' body s'
        | inr a => ret a
        end)
  end.

(** The first [n] passes through the same loop: the loop state they
    reach, or the value returned on the way. *)
Fixpoint passes {St A} (n : nat) (body : St -> M (St + A)) (s : St)
  : M (St + A) :=
  match n with
  | O => ret (inl s)
  | S n' =>
      bind (body s) (fun x =>
        match x with
        | inl s' => passes n' body s'
        | inr a => ret (inr a)
        end)
  end.

(** [for x in xs: body], threading the variables the body updates. *)
Fixpoint for_each {X St} (xs : list X) (body : X -> St -> M St) (s : St)
  : M St :=
  match xs with
  | [] => ret s
  | x :: xs' => bind (body x s) (for_each xs' body)
  end.

#[global] Instance session_ret : MRet M := @ret.
#[global] Instance session_bind : MBind M := fun A B k m => bind m k.

(** The requests of a trace, in the order they were sent. *)
Definition requests (tr : trace) : list Req :=
  omap (fun ev => match ev with EvGet rq => Some rq | EvSleep _ => None end)
       tr.

(** [emits P m]: running [m] only adds events to the trace, and every
    request it adds satisfies [P]. *)
Definition emits {A} (P : Req -> Prop) (m : M A) : Prop :=
  forall tr, exists added,
    (m tr).2 = tr ++ added /\ Forall P (requests added).

(** [yields Q m]: when [m] returns, the value it returns satisfies [Q]. *)
Definition yields {A} (Q : A -> Prop) (m : M A) : Prop :=
  forall tr a tr', m tr = (Done a, tr') -> Q a.
End Session.
#[global] Arguments event : clear implicits.
#[global] Arguments trace : clear implicits.
#[global] Arguments service : clear implicits.
#[global] Arguments M : clear implicits.
End Session.
Import Session.

(** ** [yelp.py] *)

Module Yelp.

(** The values of the enumeration [YelpPOICategories], in its order. *)
Definition YelpPOICategories : list string :=
  ["bars"; "restaurants"; "arts"; "airports"; "apartments"; "bikesharing";
   "busstations"; "civiccenter"; "communitycenters"; "collegeuniv";
   "condominiums"; "drugstores"; "elementaryschools"; "grocery";
   "hospitals"; "hotels"; "highschools"; "libraries"; "medcenters";
   "metrostations"; "sharedofficespaces"; "parks"; "postoffices";
   "pharmacy"; "preschools"; "recyclingcenter"; "resorts";
   "housingcooperatives"; "trainstations"; "zoos"]%string.

Definition MAX_NUM_PAGE_RESULTS : Z := 50.
Definition MAX_NUM_QUERY_RESULTS : Z := 1000.
Definition MAX_SEARCH_RADIUS_IN_METERS : Z := 40000.

Definition dquote : string := String (Ascii.ascii_of_nat 34) EmptyString.

Record YelpClient : Type := { _api_key : string; _logger : string }.

Definition missing_key_message : string :=
  ("Failed to initialize YelpClient." ++
   "Missing expected environment variable " ++ dquote ++
   "'YELP_API_KEY'" ++ dquote ++ ".")%string.

(** [os.environ] is a map from names to values. *)
Definition YelpClient_init (environ : gmap string string) (logger : string)
  : exn + YelpClient :=
  match environ !! "YELP_API_KEY"%string with
  | Some key => inr {| _api_key := key; _logger := logger |}
  | None =>
      inl (RuntimeError missing_key_message)
  end.

Record params : Type := {
  radius : Z;
  categories : string;
  longitude : Q;
  latitude : Q;
  limit : Z;
  offset : Z
}.

Record request : Type := {
  url : string;
  authorization : string;
  query : params
}.

(** What a request comes to.
    - [Ok]: [r.ok], and the body is an object with an integer under
      ["total"]; [businesses] is the list under ["businesses"], if any.
    - [NotOk]: not [r.ok], and the body parses as JSON.
    - [NoTotal]: [r.ok], and the body is an object without ["total"].
    - [NotJson]: the body does not parse as JSON, so [r.json()] raises;
      [ok] is [r.ok], which the client has not looked at by then.
    - [NoResponse]: [requests.get] raises instead of answering (no
      connection, a timeout). *)
Inductive response : Type :=
  | Ok (total : Z) (businesses : option (list json))
  | NotOk (data : json)
  | NoTotal
  | NotJson (ok : bool)
  | NoResponse.

(** An entry of the list of errors: [{"params": params, "error": data}]. *)
Record search_error : Type := { err_params : params; err_data : json }.

Record PlacesSearchResult `{Geometry} : Type := {
  raw : list json;
  clean : list Place;
  errors : list search_error
}.

(** The variables of [find_places_in_bounding_box] that live across the
    iterations of its loop. *)
Record loop_state : Type := {
  pois : list json;
  errs : list search_error;
  page_idx : Z
}.

Definition found : Type := list json * list search_error.

Section Search.
Context `{Geometry}.
Variable web : service request response.
Variable self : YelpClient.

Definition search_url : string := "https://api.yelp.com/v3/businesses/search".

Definition build_params (box : BoundingBox) (search_radius : Q)
    (page_idx : Z) : params :=
  let limit := MAX_NUM_PAGE_RESULTS in
  {| radius := Qceiling search_radius;
     categories := String.concat "," YelpPOICategories;
     longitude := lon (center box);
     latitude := lat (center box);
     limit := limit;
     offset := page_idx * limit |}.

Definition build_request (p : params) : request :=
  {| url := search_url;
     authorization := ("Bearer " ++ _api_key self)%string;
     query := p |}.

Definition num_pages (total : Z) : Z :=
  let limit := MAX_NUM_PAGE_RESULTS in
  total `div` limit + (if total `mod` limit >? 0 then 1 else 0).

(** [search_radius / 4] on floats, for a radius that is a float or an
    [int] that a float holds.  The quotient is exact when it is a normal
    number; below the smallest normal number, 2 ** -1022, it is rounded to
    the nearest multiple of the smallest float above zero, 2 ** -1074, and
    to the even one of two that are as near. *)
Definition smallest_normal : Q := 1 # (2 ^ 1022).
Definition smallest_float : Q := 1 # (2 ^ 1074).

Definition round_half_even (x : Q) : Z :=
  let below := Qfloor x in
  match (2 * (x - inject_Z below) ?= 1)%Q with
  | Lt => below
  | Gt => below + 1
  | Eq => if Z.even below then below else below + 1
  end.

Definition quarter (search_radius : Q) : Q :=
  let quotient := (search_radius / 4)%Q in
  if Qle_bool smallest_normal quotient || Qle_bool quotient (- smallest_normal)
  then quotient
  else (inject_Z (round_half_even (quotient / smallest_float))
        * smallest_float)%Q.

(** One pass through the body of the [while True] loop.  [recur] is the
    method itself, for the calls on the sub-cells. *)
Definition search_step (recur : BoundingBox -> Q -> M request found)
    (box : BoundingBox) (search_radius : Q) (st : loop_state)
  : M request (loop_state + found) :=
  let params := build_params box search_radius (page_idx st) in
  r ← get web (build_request params);
  match r with
  | NoResponse => raise RequestException
  | NotJson _ => raise JSONDecodeError
  | NotOk data =>
      mret (inr (pois st,
                 errs st ++ [{| err_params := params; err_data := data |}]))
  | NoTotal => raise (KeyError "total")
  | Ok total businesses =>
      if total >? MAX_NUM_QUERY_RESULTS then
        let sub_cells := split_along_axes box 2 2 in
        acc ← for_each sub_cells
                (fun sub (acc : found) =>
                   '(sub_pois, sub_errs) ← recur sub (quarter search_radius);
                   mret (acc.1 ++ sub_pois, acc.2 ++ sub_errs))
                (pois st, errs st);
        mret (inr acc)
      else
        let pois' := pois st ++ default [] businesses in
        if page_idx st =? num_pages total - 1 then
          mret (inr (pois', errs st))
        else
          _ ← sleep (1 # 2);
          mret (inl {| pois := pois'; errs := errs st;
                       page_idx := page_idx st + 1 |})
  end.

Definition start : loop_state := {| pois := []; errs := []; page_idx := 0 |}.

(** [depth] is the number of nested calls of the method that fit on the
    stack of the interpreter; [fuel] bounds the number of passes through
    the loop of each call. *)
Fixpoint find_places_in_bounding_box (depth fuel : nat) (box : BoundingBox)
    (search_radius : Q) : M request found :=
  match depth with
  | O => raise RecursionError
  | S depth' =>
      while_true fuel
        (search_step (find_places_in_bounding_box depth' fuel) box
           search_radius)
        start
  end.

Definition max_side_meters : Q :=
  (sqrt2 * inject_Z MAX_SEARCH_RADIUS_IN_METERS)%Q.

(** The local variable [cells] of [run_nearby_search]. *)
Definition grid_cells (geo : Boundary) : list BoundingBox :=
  let bbox := from_polygon geo in
  let '(deg_lat, deg_lon) :=
    convert_meters_to_degrees max_side_meters (bottom_left bbox) in
  let max_side_degrees := Qmin deg_lat deg_lon in
  split_into_squares bbox (decimal_of_float max_side_degrees).

(** The body of the loop over [cells] in [run_nearby_search]; [acc] is
    the pair of lists [pois] and [errors] it extends. *)
Definition visit_cell (depth fuel : nat) (geo : Boundary)
    (cell : BoundingBox) (acc : found) : M request found :=
  if intersects_with cell geo then
    '(cell_pois, cell_errs) ←
       find_places_in_bounding_box depth fuel cell
         (inject_Z MAX_SEARCH_RADIUS_IN_METERS);
    mret (acc.1 ++ cell_pois, acc.2 ++ cell_errs)
  else mret acc.

Definition run_nearby_search (depth fuel : nat) (geo : Boundary)
  : M request PlacesSearchResult :=
  let cells := grid_cells geo in
  '(pois, errors) ← for_each cells (visit_cell depth fuel geo) ([], []);
  let cleaned_pois := clean_places pois geo in
  mret {| raw := pois; clean := cleaned_pois; errors := errors |}.

(** A run of the program: the client is built from the environment and
    handed to whatever uses it. *)
Definition with_client {A} (environ : gmap string string) (logger : string)
    (use : YelpClient -> M request A) : M request A :=
  match YelpClient_init environ logger with
  | inl e => raise e
  | inr client => use client
  end.

(** The request for page [i] of a cell, and the events of the first [k]
    pages when none of them is the last. *)
Definition page_request (box : BoundingBox) (search_radius : Q) (i : nat)
  : request :=
  build_request (build_params box search_radius (Z.of_nat i)).

Definition paging_events (box : BoundingBox) (search_radius : Q) (k : nat)
  : trace request :=
  i ← seq 0 k; [EvGet (page_request box search_radius i); EvSleep (1 # 2)].

(** The records a response contributes to [pois] when it is a page. *)
Definition page_records (r : response) : list json :=
  match r with
  | Ok _ businesses => default [] businesses
  | _ => []
  end.

(** The records of the first [k] pages of a cell, in a session that
    started with the trace [tr]. *)
Definition paged_records (box : BoundingBox) (search_radius : Q)
    (tr : trace request) (k : nat) : list json :=
  i ← seq 0 k;
  page_records (web (tr ++ paging_events box search_radius i)
                    (page_request box search_radius i)).

(** The requests among the events [evs] of a session that had the trace
    [tr] before them, each with what the service answered to it. *)
Fixpoint answers (tr evs : trace request) : list (request * response) :=
  match evs with
  | [] => []
  | EvGet rq :: rest => (rq, web tr rq) :: answers (tr ++ [EvGet rq]) rest
  | ev :: rest => answers (tr ++ [ev]) rest
  end.

(** The exception a response makes the search raise, if it does. *)
Definition fatal (r : response) : option exn :=
  match r with
  | NoResponse => Some RequestException
  | NotJson _ => Some JSONDecodeError
  | NoTotal => Some (KeyError "total")
  | Ok _ _ | NotOk _ => None
  end.

(** No request among [evs] made the search raise. *)
Definition quiet (tr evs : trace request) : Prop :=
  Forall (fun a : request * response => fatal a.2 = None) (answers tr evs).

(** The entry of the list of errors for a request and its answer: the
    parameters of the request and the body of a response that is not OK. *)
Definition failure (a : request * response) : option search_error :=
  match a.2 with
  | NotOk data => Some {| err_params := query a.1; err_data := data |}
  | _ => None
  end.

(** The failed requests among [evs], in the order they were sent. *)
Definition failures (tr evs : trace request) : list search_error :=
  omap failure (answers tr evs).

(** [crashed tr evs x]: the events [evs] end in the exception [x] for a
    reason the search knows: the stack is full, or the last event is a
    request whose answer raises [x]; no request before made it raise. *)
Definition crashed (tr evs : trace request) (x : exn) : Prop :=
  (x = RecursionError /\ quiet tr evs) \/
  exists evs0 rq,
    evs = evs0 ++ [EvGet rq] /\ quiet tr evs0 /\
    fatal (web (tr ++ evs0) rq) = Some x.

(** [account errs_of e0 tr o tr']: a piece of the search that started
    with the trace [tr] and the errors [e0] and came to the outcome [o]
    with the trace [tr'] has only added events; when it returns, the
    errors of what it returns are [e0] and then the failed requests among
    these events; when it raises, it has [crashed]. *)
Definition account {A} (errs_of : A -> list search_error)
    (e0 : list search_error) (tr : trace request) (o : outcome A)
    (tr' : trace request) : Prop :=
  exists evs, tr' = tr ++ evs /\
    match o with
    | Done a => quiet tr evs /\ errs_of a = e0 ++ failures tr evs
    | Raised x => crashed tr evs x
    | OutOfFuel => quiet tr evs
    end.

Definition accounts {A} (errs_of : A -> list search_error)
    (e0 : list search_error) (m : M request A) : Prop :=
  forall tr o tr', m tr = (o, tr') -> account errs_of e0 tr o tr'.

(** The errors in the state of the loop, or in what it returns. *)
Definition errs_of_step (x : loop_state + found) : list search_error :=
  match x with
  | inl st => errs st
  | inr res => res.2
  end.


(** The requests of a search in which every cell is over the cap: the
    cell, then the first of its parts with a quarter of the radius, and so
    on for as many levels as there are calls. *)
Fixpoint descent (box : BoundingBox) (search_radius : Q) (depth : nat)
  : trace request :=
  match depth with
  | O => []
  | S depth' =>
      EvGet (page_request box search_radius 0) ::
      match split_along_axes box 2 2 with
      | sub :: _ => descent sub (quarter search_radius) depth'
      | [] => []
      end
  end.

(** [descends c top]: the cell [c] is [top], or comes from it by
    splitting in four any number of times. *)
Inductive descends : BoundingBox -> BoundingBox -> Prop :=
  | descends_refl c : descends c c
  | descends_step c parent top :
      c ∈ split_along_axes parent 2 2 -> descends parent top ->
      descends c top.

Definition queries_cell (c : BoundingBox) (rq : request) : Prop :=
  exists (r : Q) (i : Z), rq = build_request (build_params c r i).

(** Partition planning in the words of the specification: the side of a
    square inscribed in the circle of the largest radius, converted to
    degrees at the bottom-left corner, the smaller of the two conversions
    kept, and the bounding box tiled with it. *)
Definition spec_max_side_degrees (geo : Boundary) : Q :=
  let side_meters := (sqrt2 * inject_Z MAX_SEARCH_RADIUS_IN_METERS)%Q in
  let degrees :=
    convert_meters_to_degrees side_meters (bottom_left (from_polygon geo)) in
  if Qle_bool degrees.1 degrees.2 then degrees.1 else degrees.2.

Definition spec_partition_plan (geo : Boundary) : list BoundingBox :=
  split_into_squares (from_polygon geo)
    (decimal_of_float (spec_max_side_degrees geo)).
End Search.

End Yelp.

(** ** [trip_hotels.py] *)

Module Tripadvisor.

Definition MAX_NUM_RESULTS_PER_REQUEST : Z := 10.
Definition MAX_SEARCH_RADIUS_IN_METERS : Z := 2000.

(** The attributes of a [TripadvisorCity] that the search reads.  The key
    comes from [os.getenv], which yields [None] when it is not set. *)
Record TripadvisorCity : Type := {
  _api_key : option string;
  _max_num_results_per_request : Z
}.

(** The URL that [build_tripadvisor_nearby_api] formats, by its parts.  The
    search passes [limit] where the method expects the unit of the radius. *)
Record request : Type := {
  latLong : Q * Q;
  key : option string;
  category : string;
  radius : Z;
  radiusUnit : Z;
  language : string
}.

(** [response.json()["data"]], when the body has that key. *)
Definition response : Type := option (list json).

Record loop_state : Type := {
  hotel_lst : list json;
  errors : list json
}.

Definition found : Type := list json * list json.

Section Search.
Context `{Geometry}.
Variable web : service request response.
Variable self : TripadvisorCity.

Definition build_tripadvisor_nearby_api (lat_long : Q * Q) (radius : Z)
    (radius_unit : Z) : request :=
  {| latLong := lat_long; key := _api_key self; category := "hotels";
     radius := radius; radiusUnit := radius_unit; language := "en" |}.

Definition build_request (box : BoundingBox) (search_radius : Q) : request :=
  build_tripadvisor_nearby_api (lat (center box), lon (center box))
    (Qceiling search_radius) (_max_num_results_per_request self).

Definition search_step (recur : BoundingBox -> Q -> M request found)
    (box : BoundingBox) (search_radius : Q) (st : loop_state)
  : M request (loop_state + found) :=
  let limit := _max_num_results_per_request self in
  response ← get web (build_request box search_radius);
  match response with
  | None => raise (KeyError "data")
  | Some data =>
      let reponse_hotel_count := Z.of_nat (length data) in
      if reponse_hotel_count >=? limit then
        let sub_cells := split_along_axes box 2 2 in
        acc ← for_each sub_cells
                (fun sub (acc : found) =>
                   '(sub_hotels, sub_errs) ← recur sub (search_radius / 2)%Q;
                   mret (acc.1 ++ sub_hotels, acc.2 ++ sub_errs))
                (hotel_lst st, errors st);
        mret (inr acc)
      else if reponse_hotel_count >=? 1 then
        mret (inl {| hotel_lst := hotel_lst st ++ data;
                     errors := errors st |})
      else mret (inl st)
  end.

Definition start : loop_state := {| hotel_lst := []; errors := [] |}.

Fixpoint find_places_in_bounding_box (fuel : nat) (box : BoundingBox)
    (search_radius : Q) : M request found :=
  match fuel with
  | O => timeout
  | S fuel' =>
      while_true fuel
        (search_step (find_places_in_bounding_box fuel') box search_radius)
        start
  end.
End Search.

End Tripadvisor.

(** ** An implementation of the geometry *)

(** Modelled from the spec: boxes on a flat map, with a rectangle for
    boundary.  [split_along_axes] cuts a box into a grid of equal cells,
    [split_into_squares] tiles it with squares whose last row and column
    are cut to fit, and two boxes intersect when they share area. *)
Module Flat.

Definition mid (a b : Q) : Q := ((a + b) / 2)%Q.

Definition center (b : BoundingBox) : Point :=
  {| lon := mid (min_x b) (max_x b); lat := mid (min_y b) (max_y b) |}.

Definition bottom_left (b : BoundingBox) : Point :=
  {| lon := min_x b; lat := min_y b |}.

Definition cell (b : BoundingBox) (w h : Q) (i j : nat) : BoundingBox :=
  let x0 := (min_x b + inject_Z (Z.of_nat i) * w)%Q in
  let y0 := (min_y b + inject_Z (Z.of_nat j) * h)%Q in
  {| min_x := Qred x0; max_x := Qred (Qmin (x0 + w) (max_x b));
     min_y := Qred y0; max_y := Qred (Qmin (y0 + h) (max_y b)) |}.

Definition grid (b : BoundingBox) (w h : Q) (nx ny : nat) : list BoundingBox :=
  j ← seq 0 ny; i ← seq 0 nx; [cell b w h i j].

Definition split_along_axes (b : BoundingBox) (x_into y_into : nat)
  : list BoundingBox :=
  let w := ((max_x b - min_x b) / inject_Z (Z.of_nat x_into))%Q in
  let h := ((max_y b - min_y b) / inject_Z (Z.of_nat y_into))%Q in
  grid b w h x_into y_into.

Definition split_into_squares (b : BoundingBox) (size : Q) : list BoundingBox :=
  let nx := Z.to_nat (Qceiling ((max_x b - min_x b) / size)) in
  let ny := Z.to_nat (Qceiling ((max_y b - min_y b) / size)) in
  grid b size size nx ny.

Definition Qlt_bool (a b : Q) : bool := negb (Qle_bool b a).

Definition intersects_with (a b : BoundingBox) : bool :=
  Qlt_bool (min_x a) (max_x b) && Qlt_bool (min_x b) (max_x a) &&
  Qlt_bool (min_y a) (max_y b) && Qlt_bool (min_y b) (max_y a).

Definition hull (a b : BoundingBox) : BoundingBox :=
  {| min_x := Qmin (min_x a) (min_x b); max_x := Qmax (max_x a) (max_x b);
     min_y := Qmin (min_y a) (min_y b); max_y := Qmax (max_y a) (max_y b) |}.

(** A boundary is a list of rectangles, as a multi-polygon is a list of
    polygons. *)
Definition from_polygon (geo : list BoundingBox) : BoundingBox :=
  match geo with
  | [] => {| min_x := 0; max_x := 0; min_y := 0; max_y := 0 |}
  | b :: bs => foldr hull b bs
  end.

Definition intersects_any (cell : BoundingBox) (geo : list BoundingBox) : bool :=
  existsb (intersects_with cell) geo.

Definition meters_per_degree : Q := 111320.

Definition convert_meters_to_degrees (meters : Q) (_ : Point) : Q * Q :=
  ((meters / meters_per_degree)%Q, (meters / meters_per_degree)%Q).

End Flat.

#[export] Instance flat_geometry : Geometry := {|
  Boundary := list BoundingBox;
  Place := json;
  from_polygon := Flat.from_polygon;
  center := Flat.center;
  bottom_left := Flat.bottom_left;
  split_along_axes := Flat.split_along_axes;
  split_into_squares := Flat.split_into_squares;
  intersects_with := Flat.intersects_any;
  convert_meters_to_degrees := Flat.convert_meters_to_degrees;
  clean_places := fun pois _ => pois;
  sqrt2 := 1414213562 # 1000000000;
  decimal_of_float := fun x => x
|}.


(** ** Concrete sessions

    A client, a few boundaries and a few services, on the flat geometry;
    the statements below are evaluated on them. *)

Module Scenario.

Definition client : Yelp.YelpClient :=
  {| Yelp._api_key := "secret"; Yelp._logger := "log" |}.

Definition unit_cell : BoundingBox :=
  {| min_x := 0; max_x := 1; min_y := 0; max_y := 1 |}.

(** Two small squares at opposite corners of their bounding box. *)
Definition corners : list BoundingBox :=
  [ {| min_x := 0; max_x := 1 # 10; min_y := 0; max_y := 1 # 10 |};
    {| min_x := 3 # 10; max_x := 4 # 10; min_y := 3 # 10; max_y := 4 # 10 |} ].

(** A strip wide enough for two cells of the initial grid. *)
Definition strip : list BoundingBox :=
  [ {| min_x := 0; max_x := 1; min_y := 0; max_y := 1 # 2 |} ].

(** The two cells of the initial grid of the strip. *)
Definition west_cell : BoundingBox :=
  {| min_x := 0; max_x := 707106781 # 1391500000;
     min_y := 0; max_y := 1 # 2 |}.
Definition east_cell : BoundingBox :=
  {| min_x := 707106781 # 1391500000; max_x := 1;
     min_y := 0; max_y := 1 # 2 |}.


Definition one_poi : list json := [JStr "poi"].

(** Every query reports exactly 1000 results. *)
Definition full_cell : service Yelp.request Yelp.response :=
  fun _ _ => Yelp.Ok 1000 (Some one_poi).

(** 5000 results at the largest radius, 10 at any other. *)
Definition dense_once : service Yelp.request Yelp.response :=
  fun _ rq =>
    if Yelp.radius (Yelp.query rq) =? Yelp.MAX_SEARCH_RADIUS_IN_METERS
    then Yelp.Ok 5000 None
    else Yelp.Ok 10 (Some one_poi).

(** 5000 results whatever the query. *)
Definition dense_everywhere : service Yelp.request Yelp.response :=
  fun _ _ => Yelp.Ok 5000 None.

(** No result whatever the query. *)
Definition empty_cell : service Yelp.request Yelp.response :=
  fun _ _ => Yelp.Ok 0 (Some []).

(** Sixty results whatever the query, but the service fails on the second
    page of a cell of the western half. *)
Definition second_page_down : service Yelp.request Yelp.response :=
  fun _ rq =>
    if Qle_bool (Yelp.longitude (Yelp.query rq)) (1 # 2)
       && (Yelp.offset (Yelp.query rq) =? 50)
    then Yelp.NotOk (JObj [("error", JStr "INTERNAL_ERROR")])
    else Yelp.Ok 60 (Some one_poi).

(** Sixty results whatever the query, but the second page of a cell of
    the western half comes back as a page of a gateway, which is not
    JSON. *)
Definition error_page : service Yelp.request Yelp.response :=
  fun _ rq =>
    if Qle_bool (Yelp.longitude (Yelp.query rq)) (1 # 2)
       && (Yelp.offset (Yelp.query rq) =? 50)
    then Yelp.NotJson false
    else Yelp.Ok 60 (Some one_poi).

(** An environment without the key of the service. *)
Definition no_key : gmap string string := {[ "HOME"%string := "/root"%string ]}.

Definition city : Tripadvisor.TripadvisorCity :=
  {| Tripadvisor._api_key := Some "secret";
     Tripadvisor._max_num_results_per_request :=
       Tripadvisor.MAX_NUM_RESULTS_PER_REQUEST |}.

Definition two_hotels : list json := [JStr "inn"; JStr "lodge"].

(** Two hotels whatever the query. *)
Definition few_hotels : service Tripadvisor.request Tripadvisor.response :=
  fun _ _ => Some two_hotels.

(** Ten hotels at the largest radius, two at any other. *)
Definition crowded_once : service Tripadvisor.request Tripadvisor.response :=
  fun _ rq =>
    if Tripadvisor.radius rq =? Tripadvisor.MAX_SEARCH_RADIUS_IN_METERS
    then Some (replicate 10 (JStr "inn"))
    else Some two_hotels.

End Scenario.

(** An outcome that is a value: the call returned. *)
Definition returned {A} (o : outcome A) : Prop :=
  match o with
  | Done _ => True
  | _ => False
  end.

(** ** Python code without a service *)

From Stdlib Require DecimalString DecimalPos DecimalZ.

Module Py.

Inductive error : Type :=
  | ValueError (msg : string)
  | IndexError
  | MissingKey (key : string)
  | TypeError
  | AttributeError
  | UnboundLocalError (name : string)
  | OSError.

(** What a call comes to: a value, an exception, or no answer within the
    fuel given to its [while True] loops. *)
Inductive answer (A : Type) : Type :=
  | Value (a : A)
  | Error (e : error)
  | NoFuel.
#[global] Arguments Value {A} a.
#[global] Arguments Error {A} e.
#[global] Arguments NoFuel {A}.

#[global] Instance answer_ret : MRet answer := @Value.
#[global] Instance answer_bind : MBind answer := fun A B k m =>
  match m with
  | Value a => k a
  | Error e => Error e
  | NoFuel => NoFuel
  end.

(** [str(n)] for an [int]. *)
Definition str_of_int (n : Z) : string :=
  DecimalString.NilZero.string_of_int (Z.to_int n).

(** [s.endswith(suffix)]. *)
Definition endswith (s suffix : string) : bool :=
  bool_decide (String.list_ascii_of_string suffix `suffix_of` String.list_ascii_of_string s).

(** [for x in xs: body], for a body that updates [s] and may raise. *)
Fixpoint for_loop {X St} (xs : list X) (body : X -> St -> answer St) (s : St)
  : answer St :=
  match xs with
  | [] => Value s
  | x :: xs' => s' ← body x s; for_loop xs' body s'
  end.

(** [{key(x): value(x) for x in xs}]. *)
Definition dict_comprehension {X K V} `{Countable K} (xs : list X)
    (key : X -> K) (value : X -> answer V) : answer (gmap K V) :=
  for_loop xs (fun x d => v ← value x; mret (<[key x := v]> d)) ∅.

End Py.

(** ** [gurobi.py] *)

Module Gurobi.
Import Py.

Definition arc : Type := Z * Z.

(** [selected_arcs.remove(arc)]: the first element equal to [arc] goes. *)
Fixpoint list_remove (x : arc) (l : list arc) : answer (list arc) :=
  match l with
  | [] => Error (ValueError "list.remove(x): x not in list")
  | y :: l' =>
      if decide (y = x) then Value l'
      else l'' ← list_remove x l'; mret (y :: l'')
  end.

(** The [for] loop of [trace_route]: the first arc that leaves the last
    node of the route, if there is one. *)
Fixpoint next_arc (route : list Z) (selected_arcs : list arc)
  : answer (option arc) :=
  match selected_arcs with
  | [] => Value None
  | arc :: rest =>
      match last route with
      | None => Error IndexError
      | Some node =>
          if arc.1 =? node then Value (Some arc) else next_arc route rest
      end
  end.

(** The [while True] loop of [trace_route].  Both lists are changed in
    place, so the loop hands both back. *)
Fixpoint trace_loop (fuel : nat) (route : list Z) (selected_arcs : list arc)
  : answer (list Z * list arc) :=
  match fuel with
  | O => NoFuel
  | S fuel' =>
      found_next ← next_arc route selected_arcs;
      match found_next with
      | Some arc =>
          selected_arcs' ← list_remove arc selected_arcs;
          trace_loop fuel' (route ++ [arc.2]) selected_arcs'
      | None => Value (route, selected_arcs)
      end
  end.

Definition trace_route (fuel : nat) (route : list Z) (start : Z)
    (selected_arcs : list arc) : answer (list Z * list arc) :=
  trace_loop fuel (route ++ [start]) selected_arcs.

(** The arcs a path goes along: its pairs of neighbours. *)
Definition hops (path : list Z) : list arc := zip path (drop 1 path).

(** A [pandas.DataFrame] by rows, with the names of its columns. *)
Record DataFrame (cell : Type) : Type := {
  columns : list string;
  rows : list (list cell)
}.
#[global] Arguments columns {cell} _.
#[global] Arguments rows {cell} _.

(** A position counted from the start, or from the end when negative. *)
Definition position (len : nat) (i : Z) : option nat :=
  if 0 <=? i then
    if i <? Z.of_nat len then Some (Z.to_nat i) else None
  else
    if - Z.of_nat len <=? i then Some (Z.to_nat (Z.of_nat len + i)) else None.

Definition at_position {A} (l : list A) (i : Z) : answer A :=
  match position (length l) i ≫= (l !!.) with
  | Some x => Value x
  | None => Error IndexError
  end.

(** [df.iloc[i, j]], [df[name]] and [series.iloc[i]]. *)
Definition iloc {cell} (df : DataFrame cell) (i j : Z) : answer cell :=
  row ← at_position (rows df) i; at_position row j.

Fixpoint index_of (name : string) (names : list string) : option nat :=
  match names with
  | [] => None
  | n :: names' =>
      if String.eqb n name then Some 0%nat else S <$> index_of name names'
  end.

Definition getitem {cell} (df : DataFrame cell) (name : string)
  : answer (list cell) :=
  match index_of name (columns df) with
  | None => Error (MissingKey name)
  | Some k =>
      for_loop (rows df)
        (fun row series =>
           match row !! k with
           | Some x => Value (series ++ [x])
           | None => Error IndexError
           end) []
  end.

Record model_figure (cell : Type) : Type := {
  fig_N : list Z;
  fig_V : list Z;
  fig_A : list arc;
  fig_q : gmap Z cell;
  fig_c : gmap arc cell
}.
#[global] Arguments fig_N {cell} _.
#[global] Arguments fig_V {cell} _.
#[global] Arguments fig_A {cell} _.
#[global] Arguments fig_q {cell} _.
#[global] Arguments fig_c {cell} _.

(** [range(1, n)]. *)
Definition range_from_1 (n : nat) : list Z := Z.of_nat <$> seq 1 (n - 1).

Definition all_arcs (V : list Z) : list arc :=
  i ← V; j ← V; if bool_decide (i ≠ j) then [(i, j)] else [].

Definition get_model_figure {cell} (data distance : DataFrame cell)
  : answer (model_figure cell) :=
  let n := length (rows data) in
  let N := range_from_1 n in
  let V := 0 :: N in
  let A := all_arcs V in
  c ← dict_comprehension A (fun a => a) (fun a => iloc distance a.1 a.2);
  capacity_pickup ← getitem data "Daily_Pickup_Totes";
  q ← dict_comprehension N (fun i => i) (fun i => at_position capacity_pickup i);
  mret {| fig_N := N; fig_V := V; fig_A := A; fig_q := q; fig_c := c |}.

(** What [print_save_route] and [clear_routes_csv] do to the outside. *)
Inductive io : Type :=
  | Print (line : string)
  | Remove (path : string)
  | ToCsv (path : string) (route : list Z).

(** What is at the path of a directory: nothing, something that is not a
    directory, or a directory with the names [os.listdir] gives. *)
Inductive directory : Type :=
  | Missing
  | NotADirectory
  | Holds (names : list string).

(** The file system as the two functions meet it: what is at the path of
    the directory of the routes, the paths that [os.remove] removes (it
    raises on a directory, or on a file that may not be removed) and the
    paths that [to_csv] can create in an existing directory. *)
Record files : Type := {
  routes_dir : directory;
  removable : string -> bool;
  writable : string -> bool
}.

(** [os.path.join(directory, name)] for a name with no slash in it. *)
Definition path_join (directory name : string) : string :=
  if String.eqb directory "" then name
  else if endswith directory "/" then (directory ++ name)%string
  else (directory ++ "/" ++ name)%string.

(** The loop of [clear_routes_csv] over the names of the directory: what
    it did, and how it ended. *)
Fixpoint clear_names (fs : files) (directory_path : string)
    (names : list string) : list io * answer unit :=
  match names with
  | [] => ([], Value tt)
  | filename :: rest =>
      if endswith filename ".csv" then
        let file_path := path_join directory_path filename in
        if removable fs file_path then
          let '(out, res) := clear_names fs directory_path rest in
          (Remove file_path :: Print ("Deleted " ++ file_path)%string :: out,
           res)
        else ([], Error OSError)
      else clear_names fs directory_path rest
  end.

(** [clear_routes_csv], called on the directory that [fs] describes. *)
Definition clear_routes_csv (fs : files) (directory_path : string)
  : list io * answer unit :=
  match routes_dir fs with
  | Missing =>
      ([Print ("The directory " ++ directory_path ++ " does not exist.")%string],
       Value tt)
  | NotADirectory => ([], Error OSError)
  | Holds names => clear_names fs directory_path names
  end.

(** [" -> ".join(map(str, route))]. *)
Definition show_route (route : list Z) : string :=
  String.concat " -> " (str_of_int <$> route).

(** [df.to_csv(path)]: pandas raises [OSError] when the directory of the
    path does not exist, and so does [open] when it cannot create the
    file. *)
Definition to_csv (fs : files) (path : string) : bool :=
  match routes_dir fs with
  | Holds _ => writable fs path
  | _ => false
  end.

(** The first loop of [print_save_route], on the list it changes in
    place: the list as the loop leaves it, and how the loop ended. *)
Fixpoint remove_each (starts : list arc) (active_arcs : list arc)
  : list arc * answer unit :=
  match starts with
  | [] => (active_arcs, Value tt)
  | start :: rest =>
      match list_remove start active_arcs with
      | Value active_arcs' => remove_each rest active_arcs'
      | Error e => (active_arcs, Error e)
      | NoFuel => (active_arcs, NoFuel)
      end
  end.

(** The second loop of [print_save_route]: each route is traced on a copy
    of the list, printed and written to its file. *)
Fixpoint save_each (fuel : nat) (fs : files) (active_arcs : list arc)
    (starts : list arc) (route_num : Z) : list io * answer unit :=
  match starts with
  | [] => ([], Value tt)
  | start :: rest =>
      match trace_route fuel [0] start.2 active_arcs with
      | Value traced =>
          let route := traced.1 in
          let name := ("Route" ++ str_of_int route_num)%string in
          let csv_filename :=
            ("routes/route_" ++ str_of_int route_num ++ ".csv")%string in
          let printed := Print (name ++ ": " ++ show_route route)%string in
          if to_csv fs csv_filename then
            let '(out, res) :=
              save_each fuel fs active_arcs rest (route_num + 1) in
            (printed :: ToCsv csv_filename route ::
             Print (name ++ " saved to " ++ csv_filename)%string :: out,
             res)
          else ([printed], Error OSError)
      | Error e => ([], Error e)
      | NoFuel => ([], NoFuel)
      end
  end.

(** [print_save_route] changes [active_arcs] in place; the model gives the
    list as the call leaves it, what the call printed, removed and wrote,
    and how it ended. *)
Definition print_save_route (fuel : nat) (fs : files)
    (active_arcs : list arc) : list arc * list io * answer unit :=
  let pairs_starting_with_0 := filter (fun a : arc => a.1 = 0) active_arcs in
  match remove_each pairs_starting_with_0 active_arcs with
  | (active_arcs, Value _) =>
      match clear_routes_csv fs "routes" with
      | (cleared, Value _) =>
          let '(out, res) :=
            save_each fuel fs active_arcs pairs_starting_with_0 1 in
          (active_arcs, cleared ++ out, res)
      | (cleared, res) => (active_arcs, cleared, res)
      end
  | (active_arcs, res) => (active_arcs, [], res)
  end.

(** The routes written to files, with the paths of the files. *)
Definition saved_routes (events : list io) : list (string * list Z) :=
  omap (fun ev => match ev with
                  | ToCsv path route => Some (path, route)
                  | _ => None
                  end) events.

Definition removed_paths (events : list io) : list string :=
  omap (fun ev => match ev with Remove path => Some path | _ => None end)
       events.

End Gurobi.

(** ** Python strings

    A [str] is the list of its characters, for text in ASCII.  The
    characters of Python are code points, and its letters and its white
    space are those of Unicode; of these only the 128 characters of ASCII
    are here, as the bytes below 128, and on them [lower], [isspace],
    [isupper] and [strip] below are those of Python.  [isascii] says that
    a string is such a text, and a statement that depends on case or on
    white space is made for such strings only.  Splitting, searching and
    replacing compare characters and nothing else. *)

From Stdlib Require Import Ascii.

Module Str.
Import Py.

Definition str : Type := list ascii.

Definition lit (s : string) : str := String.list_ascii_of_string s.
Definition show (s : str) : string := String.string_of_list_ascii s.

(** [s.isascii()]. *)
Definition isascii_char (c : ascii) : bool :=
  (Ascii.nat_of_ascii c <? 128)%nat.

Definition isascii (s : str) : bool := forallb isascii_char s.

(** [s.lower()]. *)
Definition lower_char (c : ascii) : ascii :=
  let n := Ascii.nat_of_ascii c in
  if (65 <=? n)%nat && (n <=? 90)%nat then Ascii.ascii_of_nat (n + 32) else c.

Definition lower (s : str) : str := lower_char <$> s.

(** [c.isspace()]: tab, line feed, vertical tab, form feed, carriage
    return, the four separators and the space. *)
Definition isspace (c : ascii) : bool :=
  let n := Ascii.nat_of_ascii c in
  ((9 <=? n)%nat && (n <=? 13)%nat) || ((28 <=? n)%nat && (n <=? 32)%nat).

(** [c.isupper()]. *)
Definition isupper (c : ascii) : bool :=
  let n := Ascii.nat_of_ascii c in (65 <=? n)%nat && (n <=? 90)%nat.

(** [s.strip()]. *)
Fixpoint lstrip (s : str) : str :=
  match s with
  | [] => []
  | c :: s' => if isspace c then lstrip s' else s
  end.

Definition rstrip (s : str) : str := reverse (lstrip (reverse s)).
Definition strip (s : str) : str := rstrip (lstrip s).

(** A string with no white space at either end. *)
Definition trimmed (s : str) : Prop :=
  (forall c, head s = Some c -> isspace c = false) /\
  (forall c, last s = Some c -> isspace c = false).

(** [s.startswith(p)]. *)
Fixpoint startswith (p s : str) : bool :=
  match p, s with
  | [], _ => true
  | _ :: _, [] => false
  | a :: p', b :: s' => bool_decide (a = b) && startswith p' s'
  end.

(** [sub in s]. *)
Fixpoint contains (sub s : str) : bool :=
  startswith sub s ||
  match s with
  | [] => false
  | _ :: s' => contains sub s'
  end.

(** [s.replace(old, new)]: the occurrences of [old] are found from left to
    right and do not overlap; [skip] counts the characters of an occurrence
    still to pass.  An empty [old] matches before every character and at
    the end. *)
Fixpoint replace_from (old new : str) (skip : nat) (s : str) : str :=
  match s with
  | [] => []
  | c :: s' =>
      match skip with
      | S k => replace_from old new k s'
      | O =>
          if startswith old s
          then new ++ replace_from old new (length old - 1) s'
          else c :: replace_from old new 0 s'
      end
  end.

Definition replace (old new s : str) : str :=
  match old with
  | [] => new ++ (s ≫= fun c => c :: new)
  | _ :: _ => replace_from old new 0 s
  end.

(** [s.split(sep)]: the pieces between the occurrences of [sep]. *)
Fixpoint split_from (sep : str) (skip : nat) (piece : str) (s : str)
  : list str :=
  match s with
  | [] => [piece]
  | c :: s' =>
      match skip with
      | S k => split_from sep k piece s'
      | O =>
          if startswith sep s
          then piece :: split_from sep (length sep - 1) [] s'
          else split_from sep 0 (piece ++ [c]) s'
      end
  end.

Definition split (sep s : str) : answer (list str) :=
  match sep with
  | [] => Error (ValueError "empty separator")
  | _ :: _ => Value (split_from sep 0 [] s)
  end.

(** [sep.join(pieces)]. *)
Fixpoint join (sep : str) (pieces : list str) : str :=
  match pieces with
  | [] => []
  | [piece] => piece
  | piece :: rest => piece ++ sep ++ join sep rest
  end.

(** [str(n)] and [int(s)].  [int] takes white space around the number, a
    sign, and single underscores between digits. *)
Definition of_int (n : Z) : str := lit (str_of_int n).

Definition isdigit (c : ascii) : bool :=
  let n := Ascii.nat_of_ascii c in (48 <=? n)%nat && (n <=? 57)%nat.

Fixpoint digits_of (after_digit : bool) (s : str) : option str :=
  match s with
  | [] => if after_digit then Some [] else None
  | c :: s' =>
      if isdigit c then (c ::.) <$> digits_of true s'
      else if bool_decide (c = "_"%char) && after_digit
           then digits_of false s'
           else None
  end.

Definition invalid_literal (s : str) : error :=
  ValueError ("invalid literal for int() with base 10: '" ++ show s ++ "'").

Definition to_int (s : str) : answer Z :=
  let body := strip s in
  let '(negative, number) :=
    match body with
    | c :: rest =>
        if bool_decide (c = "-"%char) then (true, rest)
        else if bool_decide (c = "+"%char) then (false, rest)
        else (false, body)
    | [] => (false, body)
    end in
  match digits_of false number ≫= fun ds =>
        DecimalString.NilZero.uint_of_string (show ds) with
  | Some u =>
      let n := Z.of_N (N.of_uint u) in
      Value (if negative then - n else n)
  | None => Error (invalid_literal s)
  end.

(** [l[i]] for a list and an index that is not negative. *)
Definition item {A} (l : list A) (i : nat) : answer A :=
  match l !! i with
  | Some x => Value x
  | None => Error IndexError
  end.

(** [d[key]] for a key that may be missing. *)
Definition field {A} (key : string) (value : option A) : answer A :=
  match value with
  | Some x => Value x
  | None => Error (MissingKey key)
  end.

End Str.

(** ** [trip_hotels.py]: cities, hotels and pages of hotels *)

Module TripCity.
Import Py Str.

(** What the location search of TripAdvisor says of a place.  A key the
    response may lack is an option. *)
Record address : Type := {
  addr_city : option str;
  addr_state : option str;
  addr_string : option str
}.

Record location : Type := {
  location_id : option str;
  name : option str;
  address_obj : option address
}.

Definition TRIP_HOTELLST_URL : str := lit "https://www.tripadvisor.com/Hotels-g".

Definition prep_cityname_geojson (cityname : str) : str :=
  let cityname := strip cityname in
  let cityname := replace (lit " ") (lit "_") cityname in
  lower cityname.

Definition prep_cityname_api (cityname : str) : str :=
  let cityname := strip cityname in
  let cityname := replace (lit " ") (lit "%20") cityname in
  lower cityname.

(** The loop of [tripadvisor_city_info] over [enumerate(data)]. *)
Fixpoint find_city (cityname : str) (len : nat) (index : nat)
    (data : list location) : answer location :=
  match data with
  | [] => Error (UnboundLocalError "city_info")
  | city :: rest =>
      city_name ← field "name" (name city);
      if bool_decide (strip (lower city_name) = strip (lower cityname))
      then Value city
      else if bool_decide (index = (len - 1)%nat)
      then Error (ValueError
                    (show cityname ++ " was not found via the Tripadvisor API"))
      else find_city cityname len (S index) rest
  end.

(** The names of the cities of a response are in ASCII. *)
Definition ascii_names (data : list location) : bool :=
  forallb (fun city => from_option isascii true (name city)) data.

(** The name of a city is the one looked for, up to case and to the white
    space around it. *)
Definition names_city (cityname : str) (city : location) : Prop :=
  exists city_name,
    name city = Some city_name /\
    strip (lower city_name) = strip (lower cityname).

Definition names_other_city (cityname : str) (city : location) : Prop :=
  exists city_name,
    name city = Some city_name /\
    strip (lower city_name) ≠ strip (lower cityname).

Definition tripadvisor_city_info (tripadvisor_response_json : option (list location))
    (cityname : str) : answer location :=
  data ← field "data" tripadvisor_response_json;
  if bool_decide (length data = 0%nat)
  then Error (ValueError
                ("Tripadvisor API returned no results for " ++ show cityname))
  else find_city cityname (length data) 0 data.

Definition city_info_values (city_info : location)
  : answer (str * str * option str * str) :=
  location_id ← field "location_id" (location_id city_info);
  name ← field "name" (name city_info);
  let name := replace (lit " ") (lit "_") name in
  address ← field "address_obj" (address_obj city_info);
  let secondary_name := replace (lit " ") (lit "_") <$> addr_city address in
  address ← field "address_obj" (address_obj city_info);
  state ← field "state" (addr_state address);
  let state := replace (lit " ") (lit "_") state in
  mret (location_id, name, secondary_name, state).

(** A string is true when it is not empty. *)
Definition truthy (s : option str) : bool :=
  match s with
  | Some (_ :: _) => true
  | _ => false
  end.

Definition tripadvisor_city_hotels (city_info : location) (base_url : str)
  : answer str :=
  '(location_id, name, secondary_name, state) ← city_info_values city_info;
  if truthy secondary_name then
    mret (base_url ++ location_id ++ lit "-" ++ name ++ lit "_" ++
          default [] secondary_name ++ lit "_" ++ state ++ lit "-Hotels.html")
  else
    mret (base_url ++ location_id ++ lit "-" ++ name ++ lit "_" ++ state ++
          lit "-Hotels.html").

(** The names of a place as they stand in the address of its hotels: its
    name, its city when it has one, and its state, with underscores for
    the spaces in them and between them. *)
Definition joined_names (name : str) (city : option str) (state : str) : str :=
  let under := replace (lit " ") (lit "_") in
  under name ++ lit "_" ++
  match under <$> city with
  | Some (c :: rest) => (c :: rest) ++ lit "_"
  | _ => []
  end ++ under state.

(** The address of the first page of the hotels of a place, and of the
    page that starts after [offset] hotels. *)
Definition hotels_url (base_url location_id names : str) : str :=
  base_url ++ location_id ++ lit "-" ++ names ++ lit "-Hotels.html".

Definition hotels_page (location_id names : str) (offset : Z) : str :=
  TRIP_HOTELLST_URL ++ location_id ++ lit "-oa" ++ of_int offset ++
  lit "-" ++ names ++ lit "-Hotels.html".

Definition get_additional_hotelpage (city_hotellst_url : str) : answer str :=
  parts ← split (lit "-") city_hotellst_url;
  g_location_id ← item parts 1;
  third ← item parts 2;
  if contains (lit "_") third then
    mret (replace g_location_id (g_location_id ++ lit "-oa30") city_hotellst_url)
  else
    let oa_old := third in
    oa_old_num ← to_int (drop 2 oa_old);
    let glocationid_oa := g_location_id ++ lit "-" ++ oa_old in
    let oa_new_num := oa_old_num + 30 in
    let oa_new := lit "oa" ++ of_int oa_new_num in
    mret (replace glocationid_oa (g_location_id ++ lit "-" ++ oa_new)
            city_hotellst_url).





End TripCity.

(** ** [yelp.py]: [map_place] *)

Module YelpPlace.
Import Py.

(** [v[key]] for a key that is a string: only an object can answer. *)
Fixpoint lookup_key (key : string) (fields : list (string * json))
  : option json :=
  match fields with
  | [] => None
  | (k, v) :: rest => if String.eqb k key then Some v else lookup_key key rest
  end.

Definition subscript (v : json) (key : string) : answer json :=
  match v with
  | JObj fields =>
      match lookup_key key fields with
      | Some x => Value x
      | None => Error (MissingKey key)
      end
  | _ => Error TypeError
  end.

Fixpoint chars (s : string) : list json :=
  match s with
  | EmptyString => []
  | String c s' => JStr (String c EmptyString) :: chars s'
  end.

(** [for x in v]: the items of a list, the keys of an object, the
    characters of a string. *)
Definition iterate (v : json) : answer (list json) :=
  match v with
  | JArr items => Value items
  | JObj fields => Value ((fun kv => JStr kv.1) <$> fields)
  | JStr s => Value (chars s)
  | _ => Error TypeError
  end.

(** [v.values()]. *)
Definition values (v : json) : answer (list json) :=
  match v with
  | JObj fields => Value (snd <$> fields)
  | _ => Error AttributeError
  end.

(** [sep.join(items)]: the items are all computed first, then each has to
    be a string. *)
Definition as_str (v : json) : answer string :=
  match v with
  | JStr s => Value s
  | _ => Error TypeError
  end.

Fixpoint each {A B} (f : A -> answer B) (l : list A) : answer (list B) :=
  match l with
  | [] => Value []
  | x :: l' => y ← f x; ys ← each f l'; mret (y :: ys)
  end.

Definition join (sep : string) (items : list json) : answer string :=
  strings ← each as_str items; mret (String.concat sep strings).

(** [a, b = items]. *)
Definition unpack2 (items : list json) : answer (json * json) :=
  match items with
  | [a; b] => Value (a, b)
  | _ :: _ :: _ :: _ =>
      Error (ValueError "too many values to unpack (expected 2)")
  | _ =>
      Error (ValueError ("not enough values to unpack (expected 2, got " ++
                         str_of_int (Z.of_nat (length items)) ++ ")"))
  end.

(** The arguments of [Place], in their order. *)
Record Place : Type := {
  place_id : json;
  place_name : json;
  place_categories : string;
  place_aliases : string;
  place_lat : json;
  place_lon : json;
  place_address : string;
  place_is_closed : json;
  place_source : string;
  place_url : json
}.

Definition map_place (place : json) : answer Place :=
  id ← subscript place "id";
  name ← subscript place "name";
  cats ← subscript place "categories";
  cats ← iterate cats;
  titles ← each (fun c => subscript c "title") cats;
  categories ← join "|" titles;
  cats ← subscript place "categories";
  cats ← iterate cats;
  aliases ← each (fun c => subscript c "alias") cats;
  aliases ← join "|" aliases;
  coordinates ← subscript place "coordinates";
  coordinates ← values coordinates;
  '(lat, lon) ← unpack2 coordinates;
  location ← subscript place "location";
  display_address ← subscript location "display_address";
  display_address ← iterate display_address;
  address ← join ", " display_address;
  is_closed ← subscript place "is_closed";
  let source := "yelp"%string in
  url ← subscript place "url";
  mret {| place_id := id; place_name := name; place_categories := categories;
          place_aliases := aliases; place_lat := lat; place_lon := lon;
          place_address := address; place_is_closed := is_closed;
          place_source := source; place_url := url |}.

(** A business as the search of Yelp describes it. *)
Record category : Type := { title : string; alias : string }.

Record business : Type := {
  b_id : string;
  b_name : string;
  b_categories : list category;
  b_latitude : json;
  b_longitude : json;
  b_display_address : list string;
  b_is_closed : bool;
  b_url : string;
  (* whatever else the object holds, behind these keys *)
  b_more : list (string * json)
}.

Definition category_json (c : category) : json :=
  JObj [("alias", JStr (alias c)); ("title", JStr (title c))]%string.

Definition business_json (b : business) : json :=
  JObj ([("id", JStr (b_id b));
         ("name", JStr (b_name b));
         ("categories", JArr (category_json <$> b_categories b));
         ("coordinates",
          JObj [("latitude", b_latitude b); ("longitude", b_longitude b)]);
         ("location",
          JObj [("display_address", JArr (JStr <$> b_display_address b))]);
         ("is_closed", JBool (b_is_closed b));
         ("url", JStr (b_url b))]%string ++ b_more b).

End YelpPlace.

(** ** [trip_hotels.py]: [get_room_number] *)

Module TripRooms.
Import Py Str.

(** A field of a hotel: text, a number, or [np.nan]. *)
Inductive cell : Type :=
  | Text (s : str)
  | Number (n : Z)
  | NaN.

(** An exception of Python itself, or one of the libraries that fetch and
    read the pages. *)
Inductive exception (ext : Type) : Type :=
  | Builtin (e : error)
  | Foreign (x : ext).
#[global] Arguments Builtin {ext} e.
#[global] Arguments Foreign {ext} x.

Inductive attempt (ext A : Type) : Type :=
  | Got (a : A)
  | Failed (e : exception ext).
#[global] Arguments Got {ext A} a.
#[global] Arguments Failed {ext A} e.

#[global] Instance attempt_ret {ext} : MRet (attempt ext) := @Got ext.
#[global] Instance attempt_bind {ext} : MBind (attempt ext) := fun A B k m =>
  match m with
  | Got a => k a
  | Failed e => Failed e
  end.

(** What is outside the function: the three ways to fetch a page, and the
    two readings of a page, those of the two [try] blocks. *)
Record scraper (page ext : Type) : Type := {
  selen_crwl : cell -> attempt ext page;
  smrtprxy_residnt_selen_crwl : cell -> attempt ext page;
  smrtprxy_web_crwl : cell -> attempt ext page;
  read_address : page -> attempt ext cell;
  read_number_of_rooms : page -> attempt ext cell
}.
#[global] Arguments selen_crwl {page ext} _ _.
#[global] Arguments smrtprxy_residnt_selen_crwl {page ext} _ _.
#[global] Arguments smrtprxy_web_crwl {page ext} _ _.
#[global] Arguments read_address {page ext} _ _.
#[global] Arguments read_number_of_rooms {page ext} _ _.

(** An entry of [failed_urls]: the address, what could not be read, and
    the exception. *)
Definition failure (ext : Type) : Type := cell * string * exception ext.

(** The variables of the loop: the list, which is changed in place, and
    [failed_urls] once it is bound.  What the function prints is left
    out. *)
Record rooms_state (ext : Type) : Type := {
  hotels : list (list cell);
  failed_urls : option (list (failure ext))
}.
#[global] Arguments hotels {ext} _.
#[global] Arguments failed_urls {ext} _.

(** The address of a hotel: the second of its four fields. *)
Definition address_of (hotel : list cell) : option cell := hotel !! 1%nat.

(** A hotel with its address and its number of rooms after its fields. *)
Definition with_rooms (hotel hotel' : list cell) : Prop :=
  exists address number_of_rooms, hotel' = hotel ++ [address; number_of_rooms].

Section Rooms.
Context {page ext : Type}.
Variable scrape : scraper page ext.

(** The page of a hotel; no page when the method is none of the three, in
    which case the name [hotel_source_html] is not bound. *)
Definition fetch (crwl_method : string) (url : cell)
  : attempt ext (option page) :=
  hotel_source_html ←
    (if String.eqb crwl_method "selen"
     then p ← selen_crwl scrape url; mret (Some p) else mret None);
  if String.eqb crwl_method "residential"
  then p ← smrtprxy_residnt_selen_crwl scrape url; mret (Some p)
  else if String.eqb crwl_method "web"
  then p ← smrtprxy_web_crwl scrape url; mret (Some p)
  else mret hotel_source_html.

(** The body of a [try] block, which starts by reading the page. *)
Definition reading (read : page -> attempt ext cell)
    (hotel_source_html : option page) : attempt ext cell :=
  match hotel_source_html with
  | Some p => read p
  | None => Failed (Builtin (UnboundLocalError "hotel_source_html"))
  end.

Definition room_step (crwl_method : string) (index : nat) (hotel : list cell)
    (st : rooms_state ext) : attempt ext (rooms_state ext) :=
  match hotel with
  | [_; url; _; _] =>
      let failed_urls := [] in
      hotel_source_html ← fetch crwl_method url;
      let '(address, failed_urls) :=
        match reading (read_address scrape) hotel_source_html with
        | Got address => (address, failed_urls)
        | Failed e => (NaN, failed_urls ++ [(url, "address"%string, e)])
        end in
      let '(number_of_rooms, failed_urls) :=
        match reading (read_number_of_rooms scrape) hotel_source_html with
        | Got number_of_rooms => (number_of_rooms, failed_urls)
        | Failed e =>
            (NaN, failed_urls ++ [(url, "number of rooms"%string, e)])
        end in
      match hotels st !! index with
      | Some current =>
          Got {| hotels := <[index := current ++ [address; number_of_rooms]]>
                             (hotels st);
                 failed_urls := Some failed_urls |}
      | None => Failed (Builtin IndexError)
      end
  | _ :: _ :: _ :: _ :: _ :: _ =>
      Failed (Builtin (ValueError "too many values to unpack (expected 4)"))
  | _ =>
      Failed (Builtin
                (ValueError ("not enough values to unpack (expected 4, got " ++
                             str_of_int (Z.of_nat (length hotel)) ++ ")")))
  end.

Fixpoint room_loop (crwl_method : string) (index : nat)
    (todo : list (list cell)) (st : rooms_state ext)
  : attempt ext (rooms_state ext) :=
  match todo with
  | [] => Got st
  | hotel :: rest =>
      st' ← room_step crwl_method index hotel st;
      room_loop crwl_method (S index) rest st'
  end.

Definition get_room_number (incomplete_hotel_lst : list (list cell))
    (crwl_method : string)
  : attempt ext (list (list cell) * list (failure ext)) :=
  st ← room_loop crwl_method 0 incomplete_hotel_lst
         {| hotels := incomplete_hotel_lst; failed_urls := None |};
  match failed_urls st with
  | Some failed => Got (hotels st, failed)
  | None => Failed (Builtin (UnboundLocalError "failed_urls"))
  end.
End Rooms.

End TripRooms.

(** ** More concrete inputs *)

Module Example.
Import Py Str.

(** Arcs out of a solver: two trips from the depot, and an arc apart. *)
Definition arcs : list Gurobi.arc :=
  [(0, 3); (1, 2); (3, 1); (2, 0); (0, 5); (5, 0); (7, 8)].

(** The directory of the routes after an earlier run, with a file of
    notes next to the routes; no directory at all; and the directory with
    another directory in it, kept under a name that ends in [.csv]. *)
Definition after_a_run : Gurobi.files :=
  {| Gurobi.routes_dir :=
       Gurobi.Holds ["route_1.csv"; "notes.txt"; "route_2.csv"]%string;
     Gurobi.removable := fun _ => true;
     Gurobi.writable := fun _ => true |}.

Definition no_routes : Gurobi.files :=
  {| Gurobi.routes_dir := Gurobi.Missing;
     Gurobi.removable := fun _ => true;
     Gurobi.writable := fun _ => true |}.

Definition with_archive : Gurobi.files :=
  {| Gurobi.routes_dir :=
       Gurobi.Holds ["route_1.csv"; "archive.csv"; "route_2.csv"]%string;
     Gurobi.removable :=
       fun path => negb (String.eqb path "routes/archive.csv");
     Gurobi.writable := fun _ => true |}.

Definition points : Gurobi.DataFrame Z :=
  {| Gurobi.columns := ["Name"; "Daily_Pickup_Totes"]%string;
     Gurobi.rows := [[0; 0]; [1; 6]; [2; 7]] |}.

Definition distances : Gurobi.DataFrame Z :=
  {| Gurobi.columns := ["0"; "1"; "2"]%string;
     Gurobi.rows := [[0; 4; 5]; [4; 0; 3]; [5; 3; 0]] |}.

Definition short_distances : Gurobi.DataFrame Z :=
  {| Gurobi.columns := ["0"; "1"]%string;
     Gurobi.rows := [[0; 4]; [4; 0]] |}.

Definition place (id city_name : string) (city : option string)
  : TripCity.location :=
  {| TripCity.location_id := Some (lit id);
     TripCity.name := Some (lit city_name);
     TripCity.address_obj :=
       Some {| TripCity.addr_city := lit <$> city;
               TripCity.addr_state := Some (lit "Hawaii");
               TripCity.addr_string := Some (lit "126 Banyan Way") |} |}.

Definition hilo : TripCity.location := place "60583" "Hilo" (Some "Island of Hawaii").
Definition kona : TripCity.location := place "60872" "Kailua-Kona" (Some "Island of Hawaii").

Definition hilo_names : str := lit "Hilo_Island_of_Hawaii_Hawaii".

(** A boundary made of two points: the cells of its grid share no area
    with it. *)
Definition two_points : list BoundingBox :=
  [ {| min_x := 0; max_x := 0; min_y := 0; max_y := 0 |};
    {| min_x := 1; max_x := 1; min_y := 1; max_y := 1 |} ].

(** A business whose coordinates come with the longitude first. *)
Definition cafe : json :=
  JObj [("id", JStr "c1"); ("name", JStr "Cafe");
        ("categories", JArr [JObj [("alias", JStr "coffee");
                                   ("title", JStr "Coffee & Tea")]]);
        ("coordinates", JObj [("longitude", JInt (-155)); ("latitude", JInt 19)]);
        ("location", JObj [("display_address", JArr [JStr "1 Main St"; JStr "Hilo"])]);
        ("is_closed", JBool false); ("url", JStr "https://www.yelp.com/biz/c1")]%string.

(** A way to read pages, where a page is what can be read on it. *)
Definition pages : TripRooms.scraper (option str * option str) unit :=
  let fetch (url : TripRooms.cell)
    : TripRooms.attempt unit (option str * option str) :=
    match url with
    | TripRooms.Text u =>
        if bool_decide (u = lit "/inn")
        then TripRooms.Got (Some (lit "1 Main St"), Some (lit "12"))
        else TripRooms.Got (None, Some (lit "140"))
    | _ => TripRooms.Failed (TripRooms.Foreign tt)
    end in
  let read (field : option str) : TripRooms.attempt unit TripRooms.cell :=
    match field with
    | Some s => TripRooms.Got (TripRooms.Text s)
    | None => TripRooms.Failed (TripRooms.Builtin AttributeError)
    end in
  {| TripRooms.selen_crwl := fetch;
     TripRooms.smrtprxy_residnt_selen_crwl := fetch;
     TripRooms.smrtprxy_web_crwl := fetch;
     TripRooms.read_address := fun p => read p.1;
     TripRooms.read_number_of_rooms := fun p => read p.2 |}.

Definition hotel (name url : string) : list TripRooms.cell :=
  [TripRooms.Text (lit name); TripRooms.Text (lit url);
   TripRooms.Text (lit "4.5"); TripRooms.Text (lit "1,909")].

Definition two_hotels : list (list TripRooms.cell) :=
  [hotel "Lodge" "/lodge"; hotel "Inn" "/inn"].

End Example.

(** * Properties *)

(** An equation between closed terms, by evaluation of both sides. *)
Ltac evaluated :=
  lazymatch goal with
  | |- ?x = ?y => exact (@eq_refl _ y <: x = y)
  end.

(** ** Sessions *)

Section SessionFacts.
Context {Req : Type}.
Implicit Types tr : trace Req.

Lemma bind_run {A B} (m : M Req A) (k : A -> M Req B) tr :
  (m ≫= k) tr =
  match m tr with
  | (Done a, tr') => k a tr'
  | (Raised e, tr') => (Raised e, tr')
  | (OutOfFuel, tr') => (OutOfFuel, tr')
  end.
Proof. reflexivity. Qed.

Lemma bind_done {A B} (m : M Req A) (k : A -> M Req B) tr a tr' :
  m tr = (Done a, tr') -> (m ≫= k) tr = k a tr'.
Proof. intros Hm. rewrite bind_run, Hm. reflexivity. Qed.

Lemma bind_out_of_fuel {A B} (m : M Req A) (k : A -> M Req B) tr :
  (m tr).1 = OutOfFuel -> ((m ≫= k) tr).1 = OutOfFuel.
Proof.
  rewrite bind_run. destruct (m tr) as [[a|e|] tr']; simpl; congruence.
Qed.

Lemma while_true_passes {St A} n (body : St -> M Req (St + A)) s tr :
  while_true n body s tr =
  match passes n body s tr with
  | (Done (inl _), tr') => (OutOfFuel, tr')
  | (Done (inr a), tr') => (Done a, tr')
  | (Raised e, tr') => (Raised e, tr')
  | (OutOfFuel, tr') => (OutOfFuel, tr')
  end.
Proof.
  revert s tr. induction n as [|n IH]; intros s tr; simpl; [reflexivity|].
  unfold bind. destruct (body s tr) as [[[s'|a]|e|] tr']; auto.
Qed.

Lemma passes_add {St A} n m (body : St -> M Req (St + A)) s tr :
  passes (n + m) body s tr =
  match passes n body s tr with
  | (Done (inl s'), tr') => passes m body s' tr'
  | other => other
  end.
Proof.
  revert s tr. induction n as [|n IH]; intros s tr; simpl; [reflexivity|].
  unfold bind. destruct (body s tr) as [[[s'|a]|e|] tr']; auto.
Qed.

Lemma passes_succ {St A} n (body : St -> M Req (St + A)) s tr s' tr' :
  passes n body s tr = (Done (inl s'), tr') ->
  passes (S n) body s tr =
  match body s' tr' with
  | (Done x, tr'') => (Done x, tr'')
  | other => other
  end.
Proof.
  intros Hn. replace (S n) with (n + 1)%nat by lia.
  rewrite passes_add, Hn. simpl. unfold bind.
  destruct (body s' tr') as [[[s''|a]|e|] tr'']; reflexivity.
Qed.

Lemma for_each_app {X St} (xs ys : list X) (body : X -> St -> M Req St) s tr :
  for_each (xs ++ ys) body s tr =
  (for_each xs body s ≫= for_each ys body) tr.
Proof.
  revert s tr. induction xs as [|x xs IH]; intros s tr; simpl; [reflexivity|].
  rewrite !bind_run. unfold bind.
  destruct (body x s tr) as [[s'|e|] tr']; [|reflexivity..].
  rewrite IH. reflexivity.
Qed.

Lemma requests_app tr1 tr2 :
  requests (tr1 ++ tr2) = requests tr1 ++ requests tr2.
Proof. apply omap_app. Qed.

Lemma emits_silent {A} P (m : M Req A) :
  (forall tr, (m tr).2 = tr) -> emits P m.
Proof.
  intros Hm tr. exists []. rewrite Hm, app_nil_r. split; [done|constructor].
Qed.

Lemma emits_ret {A} P (a : A) : emits P (mret a : M Req A).
Proof. by apply emits_silent. Qed.

Lemma emits_sleep P s : emits P (sleep s : M Req unit).
Proof. intros tr. exists [EvSleep s]. split; [done|constructor]. Qed.

Lemma emits_get {Resp} P (web : service Req Resp) rq :
  P rq -> emits P (get web rq).
Proof. intros HP tr. exists [EvGet rq]. split; [done|by repeat constructor]. Qed.

Lemma emits_bind {A B} P (m : M Req A) (k : A -> M Req B) :
  emits P m -> (forall a, emits P (k a)) -> emits P (m ≫= k).
Proof.
  intros Hm Hk tr. rewrite bind_run.
  destruct (Hm tr) as (added & Htr & HP).
  destruct (m tr) as [[a|e|] tr']; simpl in Htr; subst tr'; eauto.
  destruct (Hk a (tr ++ added)) as (added' & Htr' & HP').
  exists (added ++ added'). rewrite Htr', app_assoc, requests_app.
  split; [done|]. by apply Forall_app.
Qed.

Lemma emits_while_true {St A} P n (body : St -> M Req (St + A)) s :
  (forall s', emits P (body s')) -> emits P (while_true n body s).
Proof.
  intros Hbody. revert s. induction n as [|n IH]; intros s; simpl.
  - by apply emits_silent.
  - apply (emits_bind P (body s)); [done|].
    intros [s'|a]; [apply IH | apply (emits_ret P a)].
Qed.

Lemma emits_for_each {X St} P (xs : list X) (body : X -> St -> M Req St) s :
  (forall x s', x ∈ xs -> emits P (body x s')) -> emits P (for_each xs body s).
Proof.
  revert s. induction xs as [|x xs IH]; intros s Hbody; simpl.
  - apply (emits_ret P s).
  - apply (emits_bind P (body x s)); [apply Hbody; left|].
    intros s'. apply IH. intros y s'' Hy. apply Hbody. by right.
Qed.

Lemma emits_weaken {A} (P P' : Req -> Prop) (m : M Req A) :
  (forall rq, P rq -> P' rq) -> emits P m -> emits P' m.
Proof.
  intros HPP Hm tr. destruct (Hm tr) as (added & Htr & HP).
  exists added. split; [done|]. eapply Forall_impl; eauto.
Qed.

Lemma yields_ret {A} (Q : A -> Prop) (a : A) :
  Q a -> yields Q (mret a : M Req A).
Proof. intros HQ tr a' tr' [= <- _]. exact HQ. Qed.

Lemma yields_bind {A B} (P : A -> Prop) (Q : B -> Prop)
    (m : M Req A) (k : A -> M Req B) :
  yields P m -> (forall a, P a -> yields Q (k a)) -> yields Q (m ≫= k).
Proof.
  intros Hm Hk tr b tr'. rewrite bind_run.
  destruct (m tr) as [[a|e|] tr1] eqn:Hrun; [|discriminate..].
  apply Hk. by eapply Hm.
Qed.

Lemma yields_while_true {St A} (I : St -> Prop) (Q : A -> Prop) n
    (body : St -> M Req (St + A)) s :
  (forall s', I s' ->
     yields (fun x => match x with inl s'' => I s'' | inr a => Q a end)
            (body s')) ->
  I s -> yields Q (while_true n body s).
Proof.
  intros Hbody. revert s. induction n as [|n IH]; intros s Hs; simpl.
  - intros tr a tr'. discriminate.
  - apply (yields_bind _ Q (body s) _ (Hbody s Hs)).
    intros [s'|a] Hx; [by apply IH | by apply yields_ret].
Qed.

Lemma yields_for_each {X St} (I : St -> Prop) (xs : list X)
    (body : X -> St -> M Req St) s :
  (forall x s', I s' -> yields I (body x s')) ->
  I s -> yields I (for_each xs body s).
Proof.
  intros Hbody. revert s. induction xs as [|x xs IH]; intros s Hs; simpl.
  - by apply yields_ret.
  - apply (yields_bind I I (body x s)); [by apply Hbody|]. intros s'. apply IH.
Qed.

(** More passes and a body that answers wherever the first one does give
    the same answer. *)
Lemma while_true_mono {St A} n n' (body body' : St -> M Req (St + A)) s tr :
  (n <= n')%nat ->
  (forall s' tr', (body s' tr').1 <> OutOfFuel -> body' s' tr' = body s' tr') ->
  (while_true n body s tr).1 <> OutOfFuel ->
  while_true n' body' s tr = while_true n body s tr.
Proof.
  intros Hn Hbody. revert n' Hn s tr.
  induction n as [|n IH]; intros n' Hn s tr; simpl; [done|].
  destruct n' as [|n']; [lia|]. simpl. unfold bind. intros Hrun.
  rewrite Hbody; [|by destruct (body s tr) as [[x|e|] tr1]].
  destruct (body s tr) as [[[s'|a]|e|] tr1]; try reflexivity.
  apply IH; [lia|done].
Qed.

Lemma for_each_mono {X St} (xs : list X) (body body' : X -> St -> M Req St)
    s tr :
  (forall x s' tr', (body x s' tr').1 <> OutOfFuel ->
                    body' x s' tr' = body x s' tr') ->
  (for_each xs body s tr).1 <> OutOfFuel ->
  for_each xs body' s tr = for_each xs body s tr.
Proof.
  intros Hbody. revert s tr.
  induction xs as [|x xs IH]; intros s tr; simpl; [done|].
  unfold bind. intros Hrun.
  rewrite Hbody; [|by destruct (body x s tr) as [[s'|e|] tr1]].
  destruct (body x s tr) as [[s'|e|] tr1]; try reflexivity.
  by apply IH.
Qed.

Lemma bind_mono {A B} (m m' : M Req A) (k k' : A -> M Req B) tr :
  ((m tr).1 <> OutOfFuel -> m' tr = m tr) ->
  (forall a tr', (k a tr').1 <> OutOfFuel -> k' a tr' = k a tr') ->
  ((m ≫= k) tr).1 <> OutOfFuel ->
  (m' ≫= k') tr = (m ≫= k) tr.
Proof.
  intros Hm Hk. rewrite !bind_run. intros Hrun.
  rewrite Hm; [|by destruct (m tr) as [[a|e|] tr1]].
  destruct (m tr) as [[a|e|] tr1]; try reflexivity. by apply Hk.
Qed.
End SessionFacts.

(** ** The Yelp client *)

Section YelpFacts.
Import Yelp.
Context `{Geometry}.
Variable web : service request response.
Variable self : YelpClient.

#[local] Abbreviation step := (search_step web self).
#[local] Abbreviation find := (find_places_in_bounding_box web self).
#[local] Abbreviation rq_of box r st :=
  (build_request self (build_params box r (page_idx st))).

Lemma search_step_not_ok recur box r st tr data :
  web tr (rq_of box r st) = NotOk data ->
  step recur box r st tr =
  (Done (inr (pois st,
              errs st ++ [{| err_params := build_params box r (page_idx st);
                             err_data := data |}])),
   tr ++ [EvGet (rq_of box r st)]).
Proof.
  intros Hweb. unfold search_step. rewrite bind_run. unfold get.
  rewrite Hweb. reflexivity.
Qed.

Lemma search_step_split recur box r st tr total bs :
  web tr (rq_of box r st) = Ok total bs ->
  total > MAX_NUM_QUERY_RESULTS ->
  step recur box r st tr =
  (for_each (split_along_axes box 2 2)
     (fun sub (acc : found) =>
        '(sub_pois, sub_errs) ← recur sub (quarter r);
        mret (acc.1 ++ sub_pois, acc.2 ++ sub_errs))
     (pois st, errs st) ≫= fun acc => mret (inr acc))
    (tr ++ [EvGet (rq_of box r st)]).
Proof.
  intros Hweb Hbig. unfold search_step. rewrite bind_run. unfold get.
  rewrite Hweb. destruct (Z.gtb_spec total MAX_NUM_QUERY_RESULTS); [|lia].
  reflexivity.
Qed.

Lemma search_step_page recur box r st tr total bs :
  web tr (rq_of box r st) = Ok total bs ->
  total <= MAX_NUM_QUERY_RESULTS ->
  page_idx st <> num_pages total - 1 ->
  step recur box r st tr =
  (Done (inl {| pois := pois st ++ default [] bs; errs := errs st;
                page_idx := page_idx st + 1 |}),
   tr ++ [EvGet (rq_of box r st); EvSleep (1 # 2)]).
Proof.
  intros Hweb Hsmall Hpage. unfold search_step. rewrite bind_run. unfold get.
  rewrite Hweb. destruct (Z.gtb_spec total MAX_NUM_QUERY_RESULTS); [lia|].
  destruct (Z.eqb_spec (page_idx st) (num_pages total - 1)); [done|].
  rewrite bind_run. unfold sleep. rewrite <- app_assoc. reflexivity.
Qed.

Lemma search_step_last_page recur box r st tr total bs :
  web tr (rq_of box r st) = Ok total bs ->
  total <= MAX_NUM_QUERY_RESULTS ->
  page_idx st = num_pages total - 1 ->
  step recur box r st tr =
  (Done (inr (pois st ++ default [] bs, errs st)),
   tr ++ [EvGet (rq_of box r st)]).
Proof.
  intros Hweb Hsmall Hpage. unfold search_step. rewrite bind_run. unfold get.
  rewrite Hweb. destruct (Z.gtb_spec total MAX_NUM_QUERY_RESULTS); [lia|].
  destruct (Z.eqb_spec (page_idx st) (num_pages total - 1)); [|done].
  reflexivity.
Qed.

Lemma paging_events_succ box r k :
  paging_events self box r (S k) =
  paging_events self box r k ++
  [EvGet (page_request self box r k); EvSleep (1 # 2)].
Proof.
  unfold paging_events. rewrite seq_S, bind_app. simpl.
  rewrite ?app_nil_r. reflexivity.
Qed.

Lemma paged_records_succ box r tr k :
  paged_records web self box r tr (S k) =
  paged_records web self box r tr k ++
  page_records (web (tr ++ paging_events self box r k)
                    (page_request self box r k)).
Proof.
  unfold paged_records. rewrite seq_S, bind_app. simpl.
  rewrite ?app_nil_r. reflexivity.
Qed.

(** As long as the pages are under the cap and none is the last one, the
    loop goes from page to page, sleeping after each. *)
Lemma paging_passes recur box r k tr :
  (forall i, (i < k)%nat ->
     exists total bs,
       web (tr ++ paging_events self box r i) (page_request self box r i)
         = Ok total bs /\
       total <= MAX_NUM_QUERY_RESULTS /\
       Z.of_nat i <> num_pages total - 1) ->
  passes k (step recur box r) start tr =
  (Done (inl {| pois := paged_records web self box r tr k; errs := [];
                page_idx := Z.of_nat k |}),
   tr ++ paging_events self box r k).
Proof.
  induction k as [|k IH]; intros Hpages.
  - simpl. unfold ret. by rewrite app_nil_r.
  - rewrite (passes_succ _ _ _ _ _ _ (IH (fun i Hi => Hpages i (Nat.lt_lt_succ_r _ _ Hi)))).
    destruct (Hpages k (Nat.lt_succ_diag_r k)) as (total & bs & Hweb & Hsmall & Hnot).
    rewrite (search_step_page _ _ _ _ _ total bs); simpl; try done.
    rewrite paging_events_succ, paged_records_succ, <- app_assoc.
    unfold page_request in Hweb |- *. rewrite Hweb. simpl.
    repeat f_equal. lia.
Qed.

Lemma find_succ depth fuel box r :
  find (S depth) fuel box r =
  while_true fuel (step (find depth fuel) box r) start.
Proof. reflexivity. Qed.

Lemma num_pages_positive total : 1 <= total -> 1 <= num_pages total.
Proof.
  intros Htotal. unfold num_pages, MAX_NUM_PAGE_RESULTS.
  pose proof (Z.div_mod total 50 ltac:(lia)) as Hdm.
  pose proof (Z.mod_pos_bound total 50 ltac:(lia)) as Hmod.
  pose proof (Z.div_pos total 50 ltac:(lia) ltac:(lia)) as Hdiv.
  destruct (Z.gtb_spec (total `mod` 50) 0); lia.
Qed.

(** A cell whose total stays between 1 and the cap is read page by page:
    [num_pages total] requests at offsets 0, 50, 100, ..., half a second
    of sleep between two of them, and the records of all the pages
    returned with no error. *)
Lemma yelp_paginates box r total n depth fuel tr :
  1 <= total <= MAX_NUM_QUERY_RESULTS ->
  (forall tr' i, exists bs,
      web tr' (page_request self box r i) = Ok total bs) ->
  Z.of_nat (S n) = num_pages total ->
  (n < fuel)%nat ->
  find (S depth) fuel box r tr =
  (Done (paged_records web self box r tr (S n), []),
   tr ++ paging_events self box r n ++ [EvGet (page_request self box r n)]).
Proof.
  intros Htotal Hweb Hn Hfuel.
  rewrite find_succ, while_true_passes.
  generalize (find depth fuel). intros recur.
  replace fuel with (S n + (fuel - S n))%nat by lia.
  rewrite passes_add.
  assert (Hk : passes n (step recur box r) start tr =
    (Done (inl {| pois := paged_records web self box r tr n; errs := [];
                  page_idx := Z.of_nat n |}),
     tr ++ paging_events self box r n)).
  { apply paging_passes. intros i Hi.
    destruct (Hweb (tr ++ paging_events self box r i) i) as [bs Hbs].
    exists total, bs. repeat split; [done|lia|lia]. }
  rewrite (passes_succ _ _ _ _ _ _ Hk).
  destruct (Hweb (tr ++ paging_events self box r n) n) as [bs Hbs].
  rewrite (search_step_last_page _ _ _ _ _ total bs); simpl; [|done|lia|lia].
  rewrite paged_records_succ, Hbs, <- app_assoc. reflexivity.
Qed.

(** C10: when every query of a cell succeeds with a total of 0, the number
    of pages is 0, the test for the last page compares a page index that
    starts at 0 and grows with -1, and the search never returns: with any
    fuel it is still asking, one query after the other.  The search calls
    nothing below itself here, so this holds as soon as the stack has room
    for the call. *)
Theorem yelp_zero_total_never_returns box r :
  (forall tr i, exists bs, web tr (page_request self box r i) = Ok 0 bs) ->
  num_pages 0 - 1 = -1 /\
  forall depth fuel tr,
    find (S depth) fuel box r tr
    = (OutOfFuel, tr ++ paging_events self box r fuel).
Proof.
  intros Hweb. split; [reflexivity|]. intros depth fuel tr.
  rewrite find_succ, while_true_passes, paging_passes; [reflexivity|].
  intros i _. destruct (Hweb (tr ++ paging_events self box r i) i) as [bs Hbs].
  exists 0, bs. repeat split; [done|done|]. change (num_pages 0) with 0. lia.
Qed.

(** A pass through the loop only queries the cell and what the calls on
    its parts query. *)
Lemma search_step_emits (P : request -> Prop) recur box r st :
  P (rq_of box r st) ->
  (forall sub r', sub ∈ split_along_axes box 2 2 -> emits P (recur sub r')) ->
  emits P (step recur box r st).
Proof.
  intros Hrq Hrecur. unfold search_step. apply emits_bind.
  { by apply emits_get. }
  intros [total bs|data| |ok|]; try by apply emits_silent.
  destruct (total >? MAX_NUM_QUERY_RESULTS).
  - apply emits_bind; [|intros acc; apply emits_ret].
    apply emits_for_each. intros sub acc Hsub.
    apply emits_bind; [|intros [sub_pois sub_errs]; apply emits_ret].
    by apply Hrecur.
  - destruct (page_idx st =? num_pages total - 1); [apply emits_ret|].
    apply emits_bind; [apply emits_sleep|intros []; apply emits_ret].
Qed.

(** The search of a cell only queries that cell and the cells below it. *)
Lemma find_emits depth fuel box r :
  emits (fun rq => exists c, descends c box /\ queries_cell self c rq)
        (find depth fuel box r).
Proof.
  revert box r. induction depth as [|depth IH]; intros box r.
  - by apply emits_silent.
  - rewrite find_succ. apply emits_while_true. intros st.
    apply search_step_emits.
    { exists box. split; [constructor|]. by eexists _, _. }
    intros sub r' Hsub. eapply emits_weaken; [|apply IH].
    intros rq (c & Hc & Hrq). exists c. split; [|done].
    clear -Hsub Hc. induction Hc; econstructor; eauto. constructor.
Qed.

Lemma find_extends depth fuel box r tr :
  exists added, (find depth fuel box r tr).2 = tr ++ added.
Proof.
  destruct (find_emits depth fuel box r tr) as (added & Htr & _). eauto.
Qed.

(** The search of a cell with more fuel: once the search has an outcome,
    more fuel gives the same outcome and the same trace. *)
Lemma search_step_mono (recur recur' : BoundingBox -> Q -> M request found)
    box r st tr :
  (forall sub r' tr', (recur sub r' tr').1 <> OutOfFuel ->
                      recur' sub r' tr' = recur sub r' tr') ->
  (step recur box r st tr).1 <> OutOfFuel ->
  step recur' box r st tr = step recur box r st tr.
Proof.
  intros Hrecur. unfold search_step. apply bind_mono; [done|].
  intros [total bs|data| |ok|] tr1; try done.
  destruct (total >? MAX_NUM_QUERY_RESULTS); [|done].
  apply bind_mono; [|done]. apply for_each_mono.
  intros sub acc tr2. apply bind_mono; [apply Hrecur|done].
Qed.

Lemma find_mono depth fuel fuel' box r tr :
  (fuel <= fuel')%nat ->
  (find depth fuel box r tr).1 <> OutOfFuel ->
  find depth fuel' box r tr = find depth fuel box r tr.
Proof.
  intros Hle. revert box r tr.
  induction depth as [|depth IH]; intros box r tr; [done|].
  rewrite !find_succ.
  apply while_true_mono; [done|].
  intros st tr1. apply search_step_mono.
  intros sub r' tr2. apply IH.
Qed.

(** *** Requests and their answers along a trace *)

Lemma answers_app tr evs1 evs2 :
  answers web tr (evs1 ++ evs2) =
  answers web tr evs1 ++ answers web (tr ++ evs1) evs2.
Proof.
  revert tr. induction evs1 as [|[rq|secs] evs1 IH]; intros tr; simpl.
  - by rewrite app_nil_r.
  - rewrite IH, <- app_assoc. reflexivity.
  - rewrite IH, <- app_assoc. reflexivity.
Qed.

Lemma quiet_app tr evs1 evs2 :
  quiet web tr (evs1 ++ evs2) <->
  quiet web tr evs1 /\ quiet web (tr ++ evs1) evs2.
Proof. unfold quiet. rewrite answers_app. apply Forall_app. Qed.

Lemma failures_app tr evs1 evs2 :
  failures web tr (evs1 ++ evs2) =
  failures web tr evs1 ++ failures web (tr ++ evs1) evs2.
Proof. unfold failures. rewrite answers_app. apply omap_app. Qed.

Lemma quiet_nil tr : quiet web tr [].
Proof. constructor. Qed.

Lemma quiet_sleep tr secs : quiet web tr [EvSleep secs].
Proof. constructor. Qed.

Lemma quiet_middle tr evs1 rq evs2 :
  quiet web tr (evs1 ++ EvGet rq :: evs2) ->
  fatal (web (tr ++ evs1) rq) = None.
Proof.
  intros Hq. apply quiet_app in Hq as [_ Hq].
  unfold quiet in Hq. simpl in Hq. by inversion Hq.
Qed.

Lemma crashed_app tr evs1 evs2 x :
  quiet web tr evs1 -> crashed web (tr ++ evs1) evs2 x ->
  crashed web tr (evs1 ++ evs2) x.
Proof.
  intros Hq [[-> Hq2]|(evs0 & rq & -> & Hq0 & Hx)].
  - left. split; [done|]. by apply quiet_app.
  - right. exists (evs1 ++ evs0), rq.
    repeat split;
      [by rewrite app_assoc | by apply quiet_app | by rewrite app_assoc].
Qed.

Lemma account_shift {A} (errs_of : A -> list search_error) e0 tr evs1 o tr' :
  quiet web tr evs1 ->
  account web errs_of (e0 ++ failures web tr evs1) (tr ++ evs1) o tr' ->
  account web errs_of e0 tr o tr'.
Proof.
  intros Hq (evs2 & -> & Ho). exists (evs1 ++ evs2).
  split; [by rewrite app_assoc|]. destruct o as [a|x|].
  - destruct Ho as [Hq2 He]. split; [by apply quiet_app|].
    by rewrite He, failures_app, app_assoc.
  - by apply crashed_app.
  - by apply quiet_app.
Qed.

Lemma accounts_ret {A} (errs_of : A -> list search_error) (a : A) :
  accounts web errs_of (errs_of a) (mret a).
Proof.
  intros tr o tr' [= <- <-]. exists []. rewrite !app_nil_r.
  repeat split. apply quiet_nil.
Qed.

Lemma accounts_bind {A B} (f : A -> list search_error)
    (g : B -> list search_error) e0 (m : M request A) (k : A -> M request B) :
  accounts web f e0 m -> (forall a, accounts web g (f a) (k a)) ->
  accounts web g e0 (m ≫= k).
Proof.
  intros Hm Hk tr o tr'. rewrite bind_run.
  destruct (m tr) as [[a|x|] tr1] eqn:Hrun;
    destruct (Hm _ _ _ Hrun) as (evs1 & -> & H1).
  - intros Hrest. destruct H1 as [Hq He].
    apply (account_shift g e0 tr evs1); [done|]. rewrite <- He. by apply Hk.
  - intros [= <- <-]. by exists evs1.
  - intros [= <- <-]. by exists evs1.
Qed.

Lemma accounts_while_true {St A} (f : St -> list search_error)
    (g : A -> list search_error) n (body : St -> M request (St + A)) s :
  (forall s', accounts web
                (fun x => match x with inl s'' => f s'' | inr a => g a end)
                (f s') (body s')) ->
  accounts web g (f s) (while_true n body s).
Proof.
  intros Hbody. revert s. induction n as [|n IH]; intros s; simpl.
  - intros tr o tr' [= <- <-]. exists []. rewrite app_nil_r.
    split; [done|apply quiet_nil].
  - eapply (accounts_bind _ g (f s) (body s)); [apply Hbody|].
    intros [s'|a]; [apply IH|apply accounts_ret].
Qed.

Lemma accounts_for_each {X St} (f : St -> list search_error) (xs : list X)
    (body : X -> St -> M request St) s :
  (forall x s', accounts web f (f s') (body x s')) ->
  accounts web f (f s) (for_each xs body s).
Proof.
  intros Hbody. revert s. induction xs as [|x xs IH]; intros s; simpl.
  - apply accounts_ret.
  - eapply (accounts_bind f f (f s) (body x s)); [apply Hbody|]. apply IH.
Qed.

(** A call that accounts for its errors, in a loop that adds them to the
    errors it already has. *)
Lemma accounts_extend (recur : M request found) (acc : found) :
  accounts web snd [] recur ->
  accounts web snd acc.2
    ('(sub_pois, sub_errs) ← recur;
     mret (acc.1 ++ sub_pois, acc.2 ++ sub_errs)).
Proof.
  intros Hrecur tr o tr'. rewrite bind_run.
  destruct (recur tr) as [[[p e]|x|] tr1] eqn:Hrun;
    destruct (Hrecur _ _ _ Hrun) as (evs & -> & Ho); intros [= <- <-];
    exists evs; (split; [done|]); [|done..].
  destruct Ho as [Hq He]. simpl in He. split; [done|]. simpl. by rewrite He.
Qed.

Lemma accounts_search_step recur box r st :
  (forall sub r', accounts web snd [] (recur sub r')) ->
  accounts web errs_of_step (errs st) (step recur box r st).
Proof.
  intros Hrecur tr o tr'. unfold search_step. rewrite bind_run. unfold get.
  set (rq := rq_of box r st).
  destruct (web tr rq) as [total bs|data| |ok|] eqn:Hweb.
  - intros Hrest.
    assert (Hq : quiet web tr [EvGet rq]).
    { unfold quiet. simpl. rewrite Hweb. by repeat constructor. }
    apply (account_shift errs_of_step (errs st) tr [EvGet rq] o tr' Hq).
    assert (Hf : failures web tr [EvGet rq] = []).
    { unfold failures. simpl. unfold failure. simpl. by rewrite Hweb. }
    rewrite Hf, app_nil_r. revert Hrest.
    generalize (tr ++ [EvGet rq]). intros tr1 Hrest.
    destruct (total >? MAX_NUM_QUERY_RESULTS).
    + revert tr1 o tr' Hrest.
      apply (accounts_bind snd errs_of_step (errs st));
        [|intros acc; apply (accounts_ret errs_of_step (inr acc))].
      apply (accounts_for_each snd _ _ (pois st, errs st)).
      intros sub acc. apply accounts_extend, Hrecur.
    + destruct (page_idx st =? num_pages total - 1).
      * revert tr1 o tr' Hrest.
        apply (accounts_ret errs_of_step
                 (inr (pois st ++ default [] bs, errs st))).
      * rewrite bind_run in Hrest. unfold sleep in Hrest.
        injection Hrest as <- <-. exists [EvSleep (1 # 2)].
        split; [done|]. split; [apply quiet_sleep|].
        simpl. by rewrite app_nil_r.
  - intros [= <- <-]. exists [EvGet rq]. split; [done|].
    unfold quiet, failures. simpl. unfold failure. simpl. rewrite Hweb.
    split; [by repeat constructor|reflexivity].
  - intros [= <- <-]. exists [EvGet rq]. split; [done|]. right.
    exists [], rq. rewrite app_nil_r, Hweb.
    repeat split. apply quiet_nil.
  - intros [= <- <-]. exists [EvGet rq]. split; [done|]. right.
    exists [], rq. rewrite app_nil_r, Hweb.
    repeat split. apply quiet_nil.
  - intros [= <- <-]. exists [EvGet rq]. split; [done|]. right.
    exists [], rq. rewrite app_nil_r, Hweb.
    repeat split. apply quiet_nil.
Qed.

(** The search of a cell accounts for its errors, at any depth: what it
    returns as errors are the failed requests it made, its own and those
    of the calls below it, in the order they were sent. *)
Lemma accounts_find depth fuel box r :
  accounts web snd [] (find depth fuel box r).
Proof.
  revert box r. induction depth as [|depth IH]; intros box r.
  - intros tr o tr' [= <- <-]. exists []. rewrite app_nil_r.
    split; [done|]. left. split; [done|apply quiet_nil].
  - rewrite find_succ.
    apply (accounts_while_true errs snd fuel _ start).
    intros st. apply accounts_search_step, IH.
Qed.

Lemma accounts_run depth fuel geo :
  accounts web errors [] (run_nearby_search web self depth fuel geo).
Proof.
  unfold run_nearby_search.
  apply (accounts_bind snd errors []).
  - apply (accounts_for_each snd _ _ ([], [])).
    intros cell acc. unfold visit_cell.
    destruct (intersects_with cell geo); [|apply accounts_ret].
    apply accounts_extend, accounts_find.
  - intros [pois errors].
    apply (accounts_ret Yelp.errors
             {| raw := pois; clean := clean_places pois geo;
                errors := errors |}).
Qed.

(** *** The first request of a search *)





(** Totals above the cap at every query keep the search subdividing, one
    call below the other, until the stack is full. *)
Lemma over_cap_everywhere_overflows :
  (forall tr rq, exists total bs,
      web tr rq = Ok total bs /\ total > MAX_NUM_QUERY_RESULTS) ->
  (forall box, split_along_axes box 2 2 <> []) ->
  forall depth fuel box r tr,
    (0 < fuel)%nat ->
    find depth fuel box r tr
    = (Raised RecursionError, tr ++ descent self box r depth) /\
    length (requests (descent self box r depth)) = depth.
Proof.
  intros Hweb Hsplit depth fuel box r tr Hfuel. revert box r tr.
  induction depth as [|depth IH]; intros box r tr.
  - simpl. unfold raise. by rewrite app_nil_r.
  - destruct fuel as [|fuel]; [lia|]. rewrite find_succ.
    change (while_true (S fuel) ?body ?s) with
      (body s ≫= fun x => match x with
                           | inl s' => while_true fuel body s'
                           | inr a => mret a
                           end).
    rewrite bind_run.
    destruct (Hweb tr (rq_of box r start)) as (total & bs & Hrq & Hbig).
    rewrite (search_step_split _ _ _ _ _ total bs Hrq Hbig).
    specialize (Hsplit box). simpl descent.
    destruct (split_along_axes box 2 2) as [|sub subs]; [done|].
    rewrite bind_run.
    change (for_each (sub :: subs) ?body ?s) with
      (body sub s ≫= for_each subs body).
    rewrite !bind_run.
    destruct (IH sub (quarter r) (tr ++ [EvGet (rq_of box r start)]))
      as [Hfind Hlen].
    rewrite Hfind. rewrite <- app_assoc. split; [reflexivity|].
    simpl. by rewrite Hlen.
Qed.

(** C3, amended: nothing in the search bounds the subdivision.  When
    every query is answered with a total above the cap (and a split yields
    some cell), the search of a cell goes down one call for each level
    the stack has room for, sending one query per level, and then raises
    [RecursionError]: it returns neither records nor errors, and a run
    with a cell that intersects the boundary ends with that exception. *)
Theorem yelp_subdivision_has_no_floor :
  (forall tr rq, exists total bs,
      web tr rq = Ok total bs /\ total > MAX_NUM_QUERY_RESULTS) ->
  (forall box, split_along_axes box 2 2 <> []) ->
  forall depth fuel,
    (0 < fuel)%nat ->
    (forall box r tr,
       find depth fuel box r tr
       = (Raised RecursionError, tr ++ descent self box r depth) /\
       length (requests (descent self box r depth)) = depth) /\
    (forall geo tr,
       Exists (fun cell => intersects_with cell geo = true) (grid_cells geo) ->
       (run_nearby_search web self depth fuel geo tr).1
       = Raised RecursionError).
Proof.
  intros Hweb Hsplit depth fuel Hfuel. split.
  - intros box r tr. by apply over_cap_everywhere_overflows.
  - intros geo tr Hcells. unfold run_nearby_search. rewrite bind_run.
    assert (Hloop : forall acc tr1,
      (for_each (grid_cells geo) (visit_cell web self depth fuel geo) acc tr1).1
      = Raised RecursionError).
    { induction Hcells as [cell cells Hcell|cell cells _ IH];
        intros acc tr1; simpl; unfold bind, visit_cell.
      - rewrite Hcell, bind_run.
        by rewrite (proj1 (over_cap_everywhere_overflows Hweb Hsplit
                             depth fuel cell _ tr1 Hfuel)).
      - destruct (intersects_with cell geo); [|apply IH].
        rewrite bind_run.
        by rewrite (proj1 (over_cap_everywhere_overflows Hweb Hsplit
                             depth fuel cell _ tr1 Hfuel)). }
    specialize (Hloop ([], []) tr).
    destruct (for_each _ _ _ tr) as [[[p e]|x|] tr1]; simpl in Hloop;
      first [discriminate | by injection Hloop as ->].
Qed.

(** The lists a loop over cells starts from are a prefix of the lists it
    ends with. *)
Lemma visit_cells_acc depth fuel geo cells p e tr :
  for_each cells (visit_cell web self depth fuel geo) (p, e) tr =
  match for_each cells (visit_cell web self depth fuel geo) ([], []) tr with
  | (Done (p', e'), tr') => (Done (p ++ p', e ++ e'), tr')
  | (Raised x, tr') => (Raised x, tr')
  | (OutOfFuel, tr') => (OutOfFuel, tr')
  end.
Proof.
  revert p e tr. induction cells as [|cell cells IH]; intros p e tr; simpl.
  - unfold ret. by rewrite !app_nil_r.
  - unfold bind, visit_cell.
    destruct (intersects_with cell geo).
    + rewrite !bind_run.
      destruct (find depth fuel cell _ tr) as [[[cp ce]|x|] tr1];
        try reflexivity.
      simpl. unfold mret, session_ret, ret.
      rewrite (IH (p ++ cp) (e ++ ce)), (IH cp ce).
      destruct (for_each cells _ _ tr1) as [[[p' e']|x|] tr2]; try reflexivity.
      by rewrite !app_assoc.
    + unfold mret, session_ret, ret. apply IH.
Qed.

(** A response that is not OK but parses as JSON ends the search of its
    cell only.  When the request for some page of a cell of the grid
    comes back that way, the search of the cell returns at once the
    records of the pages before together with one error made of the
    parameters of the request and the body of the response; the cells
    after it are searched all the same, and the result of the run holds
    the records of all the cells and that error. *)
Lemma yelp_failed_page_ends_its_cell
    depth fuel geo before cell after k st data tr0 tr1 tr2 tr3 p1 e1 p3 e3 :
  let r := inject_Z MAX_SEARCH_RADIUS_IN_METERS in
  let rq := rq_of cell r st in
  let err := {| err_params := build_params cell r (page_idx st);
                err_data := data |} in
  grid_cells geo = before ++ cell :: after ->
  intersects_with cell geo = true ->
  for_each before (visit_cell web self (S depth) fuel geo) ([], []) tr0
    = (Done (p1, e1), tr1) ->
  (k < fuel)%nat ->
  passes k (step (find depth fuel) cell r) start tr1 = (Done (inl st), tr2) ->
  web tr2 rq = NotOk data ->
  for_each after (visit_cell web self (S depth) fuel geo) ([], [])
    (tr2 ++ [EvGet rq]) = (Done (p3, e3), tr3) ->
  find (S depth) fuel cell r tr1 =
    (Done (pois st, errs st ++ [err]), tr2 ++ [EvGet rq]) /\
  run_nearby_search web self (S depth) fuel geo tr0 =
    (Done {| raw := p1 ++ pois st ++ p3;
             clean := clean_places (p1 ++ pois st ++ p3) geo;
             errors := e1 ++ (errs st ++ [err]) ++ e3 |}, tr3).
Proof.
  intros r rq err Hgrid Hgeo Hbefore Hk Hpasses Hfail Hafter.
  assert (Hcell : find (S depth) fuel cell r tr1 =
                  (Done (pois st, errs st ++ [err]), tr2 ++ [EvGet rq])).
  { rewrite find_succ, while_true_passes.
    revert Hpasses. generalize (find depth fuel). intros recur Hpasses.
    replace fuel with (S k + (fuel - S k))%nat by lia.
    rewrite passes_add, (passes_succ _ _ _ _ _ _ Hpasses).
    by rewrite (search_step_not_ok _ _ _ _ _ data Hfail). }
  split; [exact Hcell|].
  unfold run_nearby_search. rewrite Hgrid, bind_run, for_each_app.
  rewrite (bind_done _ _ _ _ _ Hbefore). simpl for_each. unfold bind at 1.
  unfold visit_cell at 1. rewrite Hgeo, bind_run.
  fold r. rewrite Hcell. simpl. unfold mret at 1, session_ret, ret.
  rewrite visit_cells_acc, Hafter. simpl.
  unfold mret, session_ret, ret. by rewrite !app_assoc.
Qed.

(** C7: a response whose body is not JSON ends the whole run, whatever its
    status: [r.json()] is called before [r.ok] is looked at, and nothing
    catches what it raises.  Wherever in a run such a response comes, in
    a cell of the grid or in a part of one, the run raises
    [JSONDecodeError] at that request and sends nothing after it; it
    returns no result, so neither the error nor the records of the other
    cells reach the caller. *)
Theorem yelp_error_page_stops_the_run
    depth fuel geo tr o evs1 rq ok evs2 :
  run_nearby_search web self depth fuel geo tr
    = (o, tr ++ evs1 ++ EvGet rq :: evs2) ->
  web (tr ++ evs1) rq = NotJson ok ->
  o = Raised JSONDecodeError /\ evs2 = [].
Proof.
  intros Hrun Hweb.
  destruct (accounts_run depth fuel geo _ _ _ Hrun) as (evs & Hevs & Ho).
  apply app_inv_head in Hevs. subst evs.
  assert (Hloud : ~ quiet web tr (evs1 ++ EvGet rq :: evs2)).
  { intros Hq. apply quiet_middle in Hq. by rewrite Hweb in Hq. }
  destruct o as [res|x|]; [by destruct Ho|
                           |done].
  destruct Ho as [[_ Hq]|(evs0 & rq0 & Hevs & Hq0 & Hx)]; [done|].
  destruct evs2 as [|ev evs2 _] using rev_ind.
  - apply app_inj_tail in Hevs as [<- [= <-]].
    rewrite Hweb in Hx. by injection Hx as <-.
  - rewrite app_comm_cons, app_assoc in Hevs.
    apply app_inj_tail in Hevs as [<- _].
    apply quiet_middle in Hq0. by rewrite Hweb in Hq0.
Qed.

(** C4: the cells that [run_nearby_search] tiles the bounding box with
    are those of the plan: squares whose side is the square root of two
    times the largest radius, converted to degrees at the bottom-left
    corner of the box, the smaller of the two conversions being kept. *)
Theorem yelp_grid_follows_partition_plan geo :
  grid_cells geo = spec_partition_plan geo /\
  forall depth fuel tr,
    run_nearby_search web self depth fuel geo tr =
    ('(pois, errors) ←
       for_each (spec_partition_plan geo) (visit_cell web self depth fuel geo)
         ([], []);
     mret {| raw := pois; clean := clean_places pois geo;
             errors := errors |}) tr.
Proof.
  assert (Hplan : grid_cells geo = spec_partition_plan geo);
    [|split; [exact Hplan|intros depth fuel tr; unfold run_nearby_search;
              by rewrite Hplan]].
  unfold grid_cells, spec_partition_plan, spec_max_side_degrees, max_side_meters.
  destruct (convert_meters_to_degrees _ _) as [deg_lat deg_lon]. simpl.
  do 2 f_equal. unfold Qle_bool, Qmin, GenericMinMax.gmin, Qcompare.
  destruct (Z.leb_spec (Qnum deg_lat * QDen deg_lon) (Qnum deg_lon * QDen deg_lat))
    as [Hle|Hgt].
  - destruct (Z.compare_spec (Qnum deg_lat * QDen deg_lon)
                             (Qnum deg_lon * QDen deg_lat)); first [done|lia].
  - by rewrite (proj2 (Z.compare_gt_iff _ _) Hgt).
Qed.
End YelpFacts.

(** C8: without [YELP_API_KEY] in the environment the constructor raises a
    [RuntimeError], and a run that builds its client first stops there: the
    trace is the one it started with, so no request has been sent. *)
Theorem yelp_missing_key_stops_the_run {A} environ logger
    (use : Yelp.YelpClient -> M Yelp.request A) tr :
  environ !! "YELP_API_KEY"%string = None ->
  Yelp.YelpClient_init environ logger
    = inl (RuntimeError Yelp.missing_key_message) /\
  Yelp.with_client environ logger use tr
    = (Raised (RuntimeError Yelp.missing_key_message), tr).
Proof.
  intros Hkey. unfold Yelp.with_client, Yelp.YelpClient_init.
  rewrite Hkey. split; reflexivity.
Qed.

Lemma yelp_missing_key_stops_the_run_witness :
  Scenario.no_key !! "YELP_API_KEY"%string = None /\
  Yelp.with_client Scenario.no_key "log"
    (fun client =>
       Yelp.run_nearby_search Scenario.dense_everywhere client 5 5
         Scenario.corners)
    [] = (Raised (RuntimeError Yelp.missing_key_message), []).
Proof.
  split; [reflexivity|].
  apply (yelp_missing_key_stops_the_run Scenario.no_key "log"). reflexivity.
Defined.

(** ** The TripAdvisor search *)

Section TripadvisorFacts.
Import Tripadvisor.
Context `{Geometry}.
Variable web : service request response.
Variable self : TripadvisorCity.

#[local] Abbreviation ta_step := (search_step web self).
#[local] Abbreviation ta_find := (find_places_in_bounding_box web self).
#[local] Abbreviation ta_rq box r := (build_request self box r).

Lemma ta_find_succ fuel box r :
  ta_find (S fuel) box r =
  while_true (S fuel) (ta_step (ta_find fuel) box r) start.
Proof. reflexivity. Qed.

(** A response with fewer records than the limit sends the loop round
    again, with the records added to the list when there are any. *)
Lemma search_step_few recur box r st tr data :
  web tr (ta_rq box r) = Some data ->
  Z.of_nat (length data) < _max_num_results_per_request self ->
  ta_step recur box r st tr =
  (Done (inl {| hotel_lst := hotel_lst st ++ data; errors := errors st |}),
   tr ++ [EvGet (ta_rq box r)]).
Proof.
  intros Hweb Hfew. unfold search_step. rewrite bind_run. unfold get.
  rewrite Hweb.
  destruct (Z.geb_spec (Z.of_nat (length data))
              (_max_num_results_per_request self)); [lia|].
  destruct (Z.geb_spec (Z.of_nat (length data)) 1); [reflexivity|].
  destruct data; [|simpl in *; lia].
  destruct st. simpl. by rewrite app_nil_r.
Qed.

Lemma few_results_passes recur box r data n tr :
  (forall tr', web tr' (ta_rq box r) = Some data) ->
  Z.of_nat (length data) < _max_num_results_per_request self ->
  passes n (ta_step recur box r) start tr =
  (Done (inl {| hotel_lst := concat (replicate n data); errors := [] |}),
   tr ++ replicate n (EvGet (ta_rq box r))).
Proof.
  intros Hweb Hfew. induction n as [|n IH].
  - simpl. unfold ret. by rewrite app_nil_r.
  - rewrite (passes_succ _ _ _ _ _ _ IH).
    rewrite (search_step_few _ _ _ _ _ data); [|done..].
    rewrite !replicate_S_end, concat_app, <- app_assoc. simpl.
    by rewrite app_nil_r.
Qed.

(** C9: when the request for a cell keeps succeeding with fewer records
    than the limit, the search of that cell never returns.  After [n]
    passes through the loop the same request has been sent [n] times and
    the list of hotels holds [n] copies of the records; with any fuel the
    search is still in the loop. *)
Theorem tripadvisor_few_results_never_returns box r data :
  (forall tr, web tr (ta_rq box r) = Some data) ->
  Z.of_nat (length data) < _max_num_results_per_request self ->
  (forall recur n tr,
      passes n (ta_step recur box r) start tr =
      (Done (inl {| hotel_lst := concat (replicate n data); errors := [] |}),
       tr ++ replicate n (EvGet (ta_rq box r)))) /\
  (forall fuel tr,
      ta_find fuel box r tr =
      (OutOfFuel, tr ++ replicate fuel (EvGet (ta_rq box r)))).
Proof.
  intros Hweb Hfew. split.
  - intros recur n tr. by apply few_results_passes.
  - intros [|fuel] tr.
    + simpl. unfold timeout. by rewrite app_nil_r.
    + by rewrite ta_find_succ, while_true_passes,
         (few_results_passes _ _ _ data).
Qed.

(** A response with as many records as the limit makes the search split
    the cell and search each part with half the radius. *)
Lemma search_step_crowded recur box r st tr data :
  web tr (ta_rq box r) = Some data ->
  _max_num_results_per_request self <= Z.of_nat (length data) ->
  ta_step recur box r st tr =
  (for_each (split_along_axes box 2 2)
     (fun sub (acc : found) =>
        '(sub_hotels, sub_errs) ← recur sub (r / 2)%Q;
        mret (acc.1 ++ sub_hotels, acc.2 ++ sub_errs))
     (hotel_lst st, errors st) ≫= fun acc => mret (inr acc))
    (tr ++ [EvGet (ta_rq box r)]).
Proof.
  intros Hweb Hmany. unfold search_step. rewrite bind_run. unfold get.
  rewrite Hweb.
  destruct (Z.geb_spec (Z.of_nat (length data))
              (_max_num_results_per_request self)); [reflexivity|lia].
Qed.
End TripadvisorFacts.

Lemma tripadvisor_few_results_never_returns_witness :
  let rq := Tripadvisor.build_request Scenario.city Scenario.unit_cell 2000 in
  (forall tr, Scenario.few_hotels tr rq = Some Scenario.two_hotels) /\
  Z.of_nat (length Scenario.two_hotels) < 10 /\
  Tripadvisor.find_places_in_bounding_box Scenario.few_hotels Scenario.city 3
    Scenario.unit_cell 2000 [] = (OutOfFuel, [EvGet rq; EvGet rq; EvGet rq]).
Proof.
  intros rq. split; [reflexivity|]. split; [reflexivity|].
  apply (proj2 (tripadvisor_few_results_never_returns
                  Scenario.few_hotels Scenario.city Scenario.unit_cell 2000
                  Scenario.two_hotels (fun _ => eq_refl) eq_refl) 3%nat []).
Defined.

(** ** The Yelp client on concrete sessions *)

Section YelpSessions.
Import Yelp Scenario.

#[local] Abbreviation R := (inject_Z MAX_SEARCH_RADIUS_IN_METERS).

(** C1: a cell for which the service reports a total of exactly 1000 is
    not subdivided.  The search reads it in twenty pages, all of them
    queries for that same cell, and returns. *)
Theorem yelp_total_at_cap_is_paginated :
  MAX_NUM_QUERY_RESULTS = 1000 /\
  forall depth,
    find_places_in_bounding_box full_cell client (S depth) 20 unit_cell R [] =
    (Done (replicate 20 (JStr "poi"), []),
     paging_events client unit_cell R 19 ++
     [EvGet (page_request client unit_cell R 19)]).
Proof.
  split; [reflexivity|]. intros depth.
  rewrite (yelp_paginates full_cell client unit_cell R 1000 19 depth 20 []);
    [vm_compute; reflexivity|done|by eexists|reflexivity|lia].
Qed.

(** C2: a cell over the cap is split in four and each part is searched
    with a quarter of the radius of the cell, not with half of it. *)
Theorem yelp_children_get_a_quarter_of_the_radius depth :
  let run :=
    find_places_in_bounding_box dense_once client (S (S depth)) 2
      unit_cell R [] in
  length (split_along_axes unit_cell 2 2) = 4%nat /\
  run.1 = Done (one_poi ++ one_poi ++ one_poi ++ one_poi, []) /\
  requests run.2 =
    page_request client unit_cell R 0 ::
    map (fun sub => page_request client sub (R / 4)%Q 0)
        (split_along_axes unit_cell 2 2) /\
  map (fun rq => radius (query rq)) (requests run.2) =
    [40000; 10000; 10000; 10000; 10000].
Proof. vm_compute. repeat split; reflexivity. Qed.

(** The same session as C2 on the TripAdvisor side: the first part of a
    crowded cell is searched with half the radius. *)
Lemma tripadvisor_children_get_half_of_the_radius :
  map Tripadvisor.radius
    (requests (Tripadvisor.find_places_in_bounding_box crowded_once city 2
                 unit_cell 2000 []).2) = [2000; 1000].
Proof. vm_compute. reflexivity. Qed.

(** The radius of a run leaves the normal numbers on the way down: after
    544 divisions it is still above zero and a query asks for one meter,
    after 545 it is zero and so is the radius of the query. *)
Lemma radius_underflows :
  Qceiling (Nat.iter 8 quarter R) = 1 /\
  Qceiling (Nat.iter 544 quarter R) = 1 /\
  Qceiling (Nat.iter 545 quarter R) = 0.
Proof. vm_compute. repeat split; reflexivity. Qed.

Lemma dense_everywhere_over_cap tr rq :
  exists total bs,
    dense_everywhere tr rq = Ok total bs /\ total > MAX_NUM_QUERY_RESULTS.
Proof. exists 5000, None. split; reflexivity. Qed.

Lemma flat_split_nonempty (box : BoundingBox) : split_along_axes box 2 2 <> [].
Proof. discriminate. Qed.

(** C3, as stated, fails on a service that reports 5000 results to every
    query: whatever the room on the stack and whatever the fuel, the
    search of the unit cell returns nothing, neither records nor an error
    for the density; with room for three calls it sends three queries, at
    40000, 10000 and 2500 meters, and raises. *)
Lemma yelp_dense_everywhere_never_returns :
  (~ exists depth fuel res tr,
       find_places_in_bounding_box dense_everywhere client depth fuel
         unit_cell R [] = (Done res, tr)) /\
  let run :=
    find_places_in_bounding_box dense_everywhere client 3 1 unit_cell R [] in
  run.1 = Raised RecursionError /\
  map (fun rq => radius (query rq)) (requests run.2) = [40000; 10000; 2500].
Proof.
  split; [|vm_compute; split; reflexivity].
  intros (depth & fuel & res & tr & Hrun).
  destruct fuel as [|fuel].
  - destruct depth as [|depth]; discriminate.
  - destruct (over_cap_everywhere_overflows dense_everywhere client
                dense_everywhere_over_cap flat_split_nonempty
                depth (S fuel) unit_cell R []) as [Hdiv _]; [lia|].
    congruence.
Qed.

Lemma yelp_subdivision_has_no_floor_witness :
  (forall tr rq, exists total bs,
      dense_everywhere tr rq = Ok total bs /\ total > MAX_NUM_QUERY_RESULTS) /\
  (forall box, split_along_axes box 2 2 <> []) /\
  find_places_in_bounding_box dense_everywhere client 3 1 unit_cell R []
    = (Raised RecursionError, descent client unit_cell R 3) /\
  (run_nearby_search dense_everywhere client 3 1 corners []).1
    = Raised RecursionError.
Proof.
  split; [exact dense_everywhere_over_cap|].
  split; [exact flat_split_nonempty|].
  destruct (yelp_subdivision_has_no_floor dense_everywhere client
              dense_everywhere_over_cap flat_split_nonempty 3%nat 1%nat
              ltac:(lia)) as [Hfind Hrun].
  split.
  - exact (proj1 (Hfind unit_cell R [])).
  - apply Hrun. vm_compute. left. reflexivity.
Defined.



(** C6: a cell for which the service reports a total of 0 is under the
    cap, and its search does not stop: with any fuel it is still sending
    queries, at offsets 0, 50, 100 and so on. *)
Theorem yelp_empty_cell_search_never_stops depth fuel :
  find_places_in_bounding_box empty_cell client (S depth) fuel unit_cell R []
  = (OutOfFuel, paging_events client unit_cell R fuel) /\
  map (fun rq => offset (query rq))
      (requests (paging_events client unit_cell R fuel)) =
  map (fun i => Z.of_nat i * 50) (seq 0 fuel).
Proof.
  split.
  - rewrite find_succ, while_true_passes, paging_passes; [reflexivity|].
    intros i _. exists 0, (Some []). repeat split; [done|].
    change (num_pages 0) with 0. lia.
  - induction fuel as [|fuel IH]; [reflexivity|].
    rewrite paging_events_succ, requests_app, map_app, IH, seq_S, map_app.
    reflexivity.
Qed.

Lemma yelp_zero_total_never_returns_witness :
  (forall tr i, exists bs,
      empty_cell tr (page_request client unit_cell R i) = Ok 0 bs) /\
  find_places_in_bounding_box empty_cell client 1 2 unit_cell R [] =
  (OutOfFuel,
   [EvGet (page_request client unit_cell R 0); EvSleep (1 # 2);
    EvGet (page_request client unit_cell R 1); EvSleep (1 # 2)]).
Proof.
  assert (Hweb : forall tr i, exists bs,
      empty_cell tr (page_request client unit_cell R i) = Ok 0 bs)
    by (intros tr i; exists (Some []); reflexivity).
  split; [exact Hweb|].
  exact (proj2 (yelp_zero_total_never_returns empty_cell client unit_cell R
                  Hweb) 0%nat 2%nat []).
Defined.

Lemma yelp_error_page_stops_the_run_witness :
  let rq0 := page_request client west_cell R 0 in
  let rq1 := page_request client west_cell R 1 in
  let tr1 := [EvGet rq0; EvSleep (1 # 2)] in
  error_page ([] ++ tr1) rq1 = NotJson false /\
  run_nearby_search error_page client 1 3 strip []
    = (Raised JSONDecodeError, [] ++ tr1 ++ EvGet rq1 :: []) /\
  Raised JSONDecodeError
    = Raised (A := PlacesSearchResult) JSONDecodeError /\
  @nil (event request) = [].
Proof.
  intros rq0 rq1 tr1.
  assert (Hweb : error_page ([] ++ tr1) rq1 = NotJson false)
    by (vm_compute; reflexivity).
  assert (Hrun : run_nearby_search error_page client 1 3 strip []
                 = (Raised JSONDecodeError, [] ++ tr1 ++ EvGet rq1 :: []))
    by evaluated.
  split; [exact Hweb|]. split; [exact Hrun|].
  exact (yelp_error_page_stops_the_run (H := flat_geometry)
           error_page client 1 3 strip [] (Raised JSONDecodeError)
           tr1 rq1 false [] Hrun Hweb).
Defined.
End YelpSessions.

(** ** Routes out of the solver *)

Section GurobiFacts.
Import Py Gurobi.

Lemma answer_bind_value {A B} (m : answer A) (k : A -> answer B) b :
  m ≫= k = Value b -> exists a, m = Value a /\ k a = Value b.
Proof. destruct m as [a|e|]; simpl; [eauto|discriminate..]. Qed.

Lemma list_remove_perm x l l' :
  list_remove x l = Value l' -> l ≡ₚ x :: l'.
Proof.
  revert l'. induction l as [|y l IH]; intros l'; simpl; [discriminate|].
  destruct (decide (y = x)) as [->|Hne]; [by intros [= ->]|].
  intros Hrm. apply answer_bind_value in Hrm as (l'' & Hl'' & [= <-]).
  rewrite (IH l'' Hl''). apply Permutation_swap.
Qed.

Lemma list_remove_elem x l :
  x ∈ l -> exists l', list_remove x l = Value l'.
Proof.
  induction l as [|y l IH]; intros Hin; [by apply elem_of_nil in Hin|].
  simpl. destruct (decide (y = x)) as [->|Hne]; [eauto|].
  apply elem_of_cons in Hin as [->|Hin]; [done|].
  destruct (IH Hin) as [l' ->]. simpl. eauto.
Qed.

Lemma next_arc_some route arcs a :
  next_arc route arcs = Value (Some a) ->
  a ∈ arcs /\ last route = Some a.1.
Proof.
  induction arcs as [|b arcs IH]; simpl; [discriminate|].
  destruct (last route) as [node|]; [|discriminate].
  destruct (Z.eqb_spec b.1 node) as [<-|Hne].
  - intros [= <-]. split; [left|done].
  - intros Hnext. destruct (IH Hnext). split; [by right|done].
Qed.

Lemma next_arc_none route arcs node :
  last route = Some node ->
  next_arc route arcs = Value None <-> Forall (fun a : arc => a.1 ≠ node) arcs.
Proof.
  intros Hlast. induction arcs as [|b arcs IH]; simpl.
  - split; [constructor|done].
  - rewrite Hlast. destruct (Z.eqb_spec b.1 node) as [Heq|Hne].
    + split; [discriminate|]. intros Hall. by inversion Hall.
    + rewrite IH. split; [by constructor|]. intros Hall. by inversion Hall.
Qed.

Lemma next_arc_answers route arcs node :
  last route = Some node -> exists found, next_arc route arcs = Value found.
Proof.
  intros Hlast. induction arcs as [|b arcs IH]; simpl; [eauto|].
  rewrite Hlast. destruct (b.1 =? node); eauto.
Qed.

Lemma hops_snoc path node next :
  last path = Some node -> hops (path ++ [next]) = hops path ++ [(node, next)].
Proof.
  unfold hops. revert node. induction path as [|x path IH]; intros node;
    [discriminate|].
  destruct path as [|y path]; simpl.
  - by intros [= ->].
  - intros Hlast. f_equal. apply (IH node). exact Hlast.
Qed.

(** What the loop of [trace_route] has done when it stops. *)
Lemma trace_loop_walk fuel route node arcs route' arcs' :
  last route = Some node ->
  trace_loop fuel route arcs = Value (route', arcs') ->
  exists tail,
    route' = route ++ tail /\
    arcs ≡ₚ hops (node :: tail) ++ arcs' /\
    exists final, last route' = Some final /\
                  Forall (fun a : arc => a.1 ≠ final) arcs'.
Proof.
  revert route node arcs. induction fuel as [|fuel IH]; intros route node arcs Hlast;
    simpl; [discriminate|].
  intros Hrun. apply answer_bind_value in Hrun as (found & Hnext & Hrun).
  destruct found as [a|].
  - apply answer_bind_value in Hrun as (arcs1 & Hrm & Hrun).
    apply next_arc_some in Hnext as [Hin Hfrom].
    rewrite Hlast in Hfrom. injection Hfrom as Hfrom.
    apply (IH _ a.2) in Hrun as (tail & -> & Hperm & Hfinal);
      [|by rewrite last_snoc].
    exists (a.2 :: tail). split; [by rewrite <- app_assoc|]. split; [|done].
    rewrite (list_remove_perm _ _ _ Hrm), Hperm.
    unfold hops. simpl. destruct a as [a1 a2]. simpl in *. by subst.
  - injection Hrun as <- <-. exists []. rewrite app_nil_r.
    split; [done|]. split; [done|]. exists node. split; [done|].
    by apply (next_arc_none route).
Qed.

Lemma trace_loop_returns fuel route node arcs :
  last route = Some node -> (length arcs < fuel)%nat ->
  exists res, trace_loop fuel route arcs = Value res.
Proof.
  revert route node arcs. induction fuel as [|fuel IH]; intros route node arcs Hlast Hfuel;
    [lia|]. simpl.
  destruct (next_arc_answers route arcs node Hlast) as [[a|] Hnext];
    rewrite Hnext; simpl; [|eauto].
  destruct (next_arc_some _ _ _ Hnext) as [Hin _].
  destruct (list_remove_elem _ _ Hin) as [arcs1 Hrm]. rewrite Hrm. simpl.
  apply (IH _ a.2); [by rewrite last_snoc|].
  apply list_remove_perm, Permutation_length in Hrm. simpl in Hrm. lia.
Qed.

(** X1: [trace_route] comes back, and with a value: each pass through its
    loop takes one arc out of [selected_arcs], so one pass more than there
    are arcs is enough. *)
Theorem trace_route_returns fuel route start selected_arcs :
  (length selected_arcs < fuel)%nat ->
  exists route' left, trace_route fuel route start selected_arcs
                      = Value (route', left).
Proof.
  intros Hfuel.
  destruct (trace_loop_returns fuel (route ++ [start]) start selected_arcs)
    as [[route' left] Hres]; [by rewrite last_snoc|done|eauto].
Qed.

(** X2: the route that [trace_route] returns is the route it was given,
    then [start], then the nodes it walked to; the arcs it walked along and
    the arcs it left in [selected_arcs] are, together, the arcs it was
    given: every step follows an arc, and no arc is followed twice. *)
Theorem trace_route_follows_arcs fuel route start selected_arcs route' left :
  trace_route fuel route start selected_arcs = Value (route', left) ->
  exists tail,
    route' = route ++ start :: tail /\
    selected_arcs ≡ₚ hops (start :: tail) ++ left.
Proof.
  intros Hrun. apply (trace_loop_walk _ _ start) in Hrun
    as (tail & -> & Hperm & _); [|by rewrite last_snoc].
  exists tail. by rewrite <- app_assoc.
Qed.

(** X3: [trace_route] stops at a dead end: none of the arcs it leaves in
    [selected_arcs] starts at the last node of the route it returns. *)
Theorem trace_route_stops_at_dead_end fuel route start selected_arcs route' left :
  trace_route fuel route start selected_arcs = Value (route', left) ->
  exists final,
    last route' = Some final /\ Forall (fun a : arc => a.1 ≠ final) left.
Proof.
  intros Hrun. apply (trace_loop_walk _ _ start) in Hrun
    as (tail & _ & _ & Hfinal); [done|by rewrite last_snoc].
Qed.

Lemma list_remove_skip x pre l :
  Forall (fun y => y ≠ x) pre -> list_remove x (pre ++ x :: l) = Value (pre ++ l).
Proof.
  induction pre as [|y pre IH]; intros Hpre; simpl.
  - by rewrite decide_True.
  - inversion Hpre as [|? ? Hy Hpre']; subst.
    rewrite decide_False by done. by rewrite (IH Hpre').
Qed.

(** Taking the arcs that leave the depot out of the list, one [remove]
    after the other, leaves the other arcs in their order. *)
Lemma remove_depot_arcs pre l :
  Forall (fun a : arc => a.1 ≠ 0) pre ->
  remove_each (filter (fun a : arc => a.1 = 0) l) (pre ++ l)
  = (pre ++ filter (fun a : arc => a.1 ≠ 0) l, Value tt).
Proof.
  revert pre. induction l as [|x l IH]; intros pre Hpre.
  - done.
  - destruct (decide (x.1 = 0)) as [Hx|Hx].
    + rewrite (filter_cons_True (fun a : arc => a.1 = 0)) by done.
      rewrite (filter_cons_False (fun a : arc => a.1 ≠ 0)) by tauto. simpl.
      rewrite list_remove_skip; [by apply IH|].
      eapply Forall_impl; [exact Hpre|]. intros y Hy ->. done.
    + rewrite (filter_cons_False (fun a : arc => a.1 = 0)) by done.
      rewrite (filter_cons_True (fun a : arc => a.1 ≠ 0)) by done.
      replace (pre ++ x :: l) with ((pre ++ [x]) ++ l)
        by by rewrite <- app_assoc.
      rewrite IH; [by rewrite <- app_assoc|].
      apply Forall_app. split; [done|by constructor].
Qed.

Lemma remove_all_depot_arcs l :
  remove_each (filter (fun a : arc => a.1 = 0) l) l
  = (filter (fun a : arc => a.1 ≠ 0) l, Value tt).
Proof. apply (remove_depot_arcs [] l). constructor. Qed.

Lemma saved_routes_app ev1 ev2 :
  saved_routes (ev1 ++ ev2) = saved_routes ev1 ++ saved_routes ev2.
Proof. apply omap_app. Qed.

Lemma saved_routes_clear fs directory :
  saved_routes (clear_routes_csv fs directory).1 = [].
Proof.
  unfold clear_routes_csv. destruct (routes_dir fs) as [| |names]; [done..|].
  induction names as [|name names IH]; [done|]. simpl.
  destruct (endswith name ".csv"); [|done].
  destruct (removable fs _); [|done].
  by destruct (clear_names fs directory names).
Qed.

#[local] Abbreviation csv_of k :=
  ("routes/route_" ++ str_of_int k ++ ".csv")%string.

(** The second loop of [print_save_route], when it comes to its end,
    has written one route for each arc that leaves the depot, under
    consecutive numbers. *)
Lemma saving_loop fuel fs arcs pairs k out :
  save_each fuel fs arcs pairs k = (out, Value tt) ->
  exists routes,
    Forall2 (fun (start : arc) route =>
               exists left, trace_route fuel [0] start.2 arcs
                            = Value (route, left)) pairs routes /\
    saved_routes out =
      zip ((fun i => csv_of (k + Z.of_nat i)) <$> seq 0 (length pairs))
          routes.
Proof.
  revert k out. induction pairs as [|start pairs IH]; intros k out; simpl.
  - intros [= <-]. exists []. split; [constructor|done].
  - destruct (trace_route fuel [0] start.2 arcs) as [[route left]| |] eqn:Htrace;
      [|discriminate..].
    destruct (to_csv fs (csv_of k)); [|discriminate].
    destruct (save_each fuel fs arcs pairs (k + 1)) as [out1 res1] eqn:Hrest.
    intros [= <- ->].
    apply IH in Hrest as (routes & Hroutes & Hsaved).
    exists (route :: routes). split; [constructor; eauto|].
    simpl. rewrite Hsaved, Z.add_0_r. do 2 f_equal.
    rewrite <- (fmap_S_seq 0), <- list_fmap_compose.
    apply list_fmap_ext. intros _ i _. simpl. do 3 f_equal. lia.
Qed.

(** With fuel for the longest walk and a file system that lets every file
    be written, the second loop comes to its end. *)
Lemma saving_loop_returns fuel fs arcs pairs k :
  (length arcs < fuel)%nat ->
  (forall path, to_csv fs path = true) ->
  (save_each fuel fs arcs pairs k).2 = Value tt.
Proof.
  intros Hfuel Hcsv. revert k.
  induction pairs as [|start pairs IH]; intros k; simpl; [done|].
  destruct (trace_loop_returns fuel ([0] ++ [start.2]) start.2 arcs)
    as [[route left] Hres]; [done|done|].
  unfold trace_route. rewrite Hres, Hcsv. simpl.
  specialize (IH (k + 1)).
  by destruct (save_each fuel fs arcs pairs (k + 1)).
Qed.

Lemma clear_names_returns fs directory names :
  (forall path, removable fs path = true) ->
  (clear_names fs directory names).2 = Value tt.
Proof.
  intros Hrm. induction names as [|name names IH]; simpl; [done|].
  destruct (endswith name ".csv"); [|done]. rewrite Hrm.
  by destruct (clear_names fs directory names).
Qed.

Lemma hop_from path i x :
  (S i < length path)%nat -> path !! i = Some x -> exists y, (x, y) ∈ hops path.
Proof.
  unfold hops. revert i. induction path as [|a path IH]; intros i Hlen Hi;
    [simpl in Hlen; lia|].
  destruct path as [|b path]; [simpl in Hlen; lia|].
  destruct i as [|i]; simpl in *.
  - injection Hi as ->. exists b. left.
  - destruct (IH i) as [y Hy]; [lia|done|]. exists y. by right.
Qed.

(** X4: [print_save_route] takes the arcs that leave the depot out of the
    list it is given, which it changes in place, and keeps the others in
    their order; it does so before anything else, so the list is left
    that way however the call ends.  When there is no directory [routes]
    and some arc leaves the depot, the call prints the first route and
    raises [OSError] at the first [to_csv]: no file is written.  When the
    directory exists and its files can be removed and written, the call
    returns. *)
Theorem print_save_route_keeps_other_arcs fuel fs active_arcs :
  (print_save_route fuel fs active_arcs).1.1
  = filter (fun a : arc => a.1 ≠ 0) active_arcs /\
  ((length active_arcs < fuel)%nat ->
   routes_dir fs = Missing ->
   filter (fun a : arc => a.1 = 0) active_arcs <> [] ->
   (print_save_route fuel fs active_arcs).2 = Error OSError /\
   saved_routes (print_save_route fuel fs active_arcs).1.2 = []) /\
  ((length active_arcs < fuel)%nat ->
   (exists names, routes_dir fs = Holds names) ->
   (forall path, removable fs path = true) ->
   (forall path, writable fs path = true) ->
   (print_save_route fuel fs active_arcs).2 = Value tt).
Proof.
  unfold print_save_route. rewrite remove_all_depot_arcs.
  set (rest := filter (fun a : arc => a.1 ≠ 0) active_arcs).
  assert (Hrest : (length active_arcs < fuel)%nat -> (length rest < fuel)%nat).
  { pose proof (length_filter (fun a : arc => a.1 ≠ 0) active_arcs).
    unfold rest. lia. }
  split; [|split].
  - destruct (clear_routes_csv fs "routes") as [cleared [[]|e|]]; [|done..].
    by destruct (save_each fuel fs rest _ 1).
  - intros Hfuel Hdir Hpairs. unfold clear_routes_csv. rewrite Hdir.
    destruct (filter (fun a : arc => a.1 = 0) active_arcs)
      as [|start pairs]; [done|]. simpl.
    destruct (trace_loop_returns fuel ([0] ++ [start.2]) start.2 rest)
      as [[route left] Hres]; [done|by apply Hrest|].
    unfold trace_route. rewrite Hres. unfold to_csv. rewrite Hdir. done.
  - intros Hfuel [names Hdir] Hrm Hwr.
    pose proof (clear_names_returns fs "routes" names Hrm) as Hclear.
    unfold clear_routes_csv. rewrite Hdir.
    destruct (clear_names fs "routes" names) as [cleared res].
    simpl in Hclear. subst res.
    pose proof (saving_loop_returns fuel fs rest
                  (filter (fun a : arc => a.1 = 0) active_arcs) 1
                  (Hrest Hfuel)) as Hsave.
    destruct (save_each fuel fs rest _ 1) as [out res]. apply Hsave.
    intros path. unfold to_csv. by rewrite Hdir.
Qed.

(** X5: when [print_save_route] returns, it has written one file for each
    arc that leaves the depot, [routes/route_1.csv], [routes/route_2.csv]
    and so on in the order of these arcs.  The route in the file of the arc
    [(0, j)] starts with 0 and [j], and the depot is nowhere between its
    first and its last node. *)
Theorem print_save_route_routes fuel fs active_arcs left events :
  print_save_route fuel fs active_arcs = (left, events, Value tt) ->
  let pairs := filter (fun a : arc => a.1 = 0) active_arcs in
  (saved_routes events).*1
    = (fun k => csv_of (Z.of_nat k)) <$> seq 1 (length pairs) /\
  Forall2 (fun (start : arc) route =>
             (exists tail, route = 0 :: start.2 :: tail) /\
             forall i, (0 < i)%nat -> (S i < length route)%nat ->
                       route !! i ≠ Some 0)
          pairs (saved_routes events).*2.
Proof.
  intros Hrun pairs. unfold print_save_route in Hrun.
  rewrite remove_all_depot_arcs in Hrun.
  pose proof (saved_routes_clear fs "routes") as Hclear.
  destruct (clear_routes_csv fs "routes") as [cleared [[]|e|]];
    [|discriminate..].
  fold pairs in Hrun.
  destruct (save_each fuel fs _ pairs 1) as [out res] eqn:Hloop.
  injection Hrun as <- <- ->.
  apply saving_loop in Hloop as (routes & Hroutes & Hsaved).
  simpl in Hclear. rewrite saved_routes_app, Hclear, Hsaved. simpl.
  assert (Hlen : length routes = length pairs)
    by (symmetry; eapply Forall2_length; eauto).
  split.
  - rewrite fst_zip by (rewrite length_fmap, length_seq; lia).
    rewrite <- (fmap_S_seq 0), <- list_fmap_compose.
    apply list_fmap_ext. intros _ k _. simpl. do 3 f_equal. lia.
  - rewrite snd_zip by (rewrite length_fmap, length_seq; lia).
    eapply Forall2_impl; [exact Hroutes|]. clear.
    intros start route [left Htrace].
    apply (trace_loop_walk _ _ start.2) in Htrace
      as (tail & -> & Hperm & _); [|done].
    split; [by exists tail|]. intros i Hi Hlast Hzero.
    destruct i as [|i]; [lia|]. simpl in Hzero, Hlast.
    destruct (hop_from (start.2 :: tail) i 0) as [y Hy]; [simpl; lia|done|].
    assert (Hin : (0, y) ∈ filter (fun a : arc => a.1 ≠ 0) active_arcs)
      by (rewrite Hperm; apply elem_of_app; by left).
    apply list_elem_of_filter in Hin as [Hne _]. done.
Qed.

(** X6: [clear_routes_csv] goes through the names of the directory in
    the order [os.listdir] gives them and removes those that end in
    [.csv], under the path of the directory, and no other path.  It stops
    at the first of them that [os.remove] does not remove, a directory for
    one, and raises [OSError]: the files before it are gone, those after
    it are left.  When nothing is at the path of the directory it removes
    nothing and returns. *)
Theorem clear_routes_csv_removes_csv_files fs directory :
  (routes_dir fs = Missing ->
   removed_paths (clear_routes_csv fs directory).1 = [] /\
   (clear_routes_csv fs directory).2 = Value tt) /\
  (forall names,
     routes_dir fs = Holds names ->
     let csvs :=
       path_join directory <$>
         filter (fun n => endswith n ".csv" = true) names in
     exists k,
       removed_paths (clear_routes_csv fs directory).1 = take k csvs /\
       Forall (fun path => removable fs path = true) (take k csvs) /\
       match csvs !! k with
       | None => (clear_routes_csv fs directory).2 = Value tt
       | Some path =>
           removable fs path = false /\
           (clear_routes_csv fs directory).2 = Error OSError
       end).
Proof.
  unfold clear_routes_csv. split.
  - intros ->. done.
  - intros names ->. simpl.
    induction names as [|name names IH]; simpl.
    + exists 0%nat. done.
    + destruct (endswith name ".csv") eqn:Hcsv.
      * rewrite filter_cons_True by done. simpl.
        destruct (removable fs (path_join directory name)) eqn:Hrm.
        -- destruct IH as (k & Hremoved & Hall & Hnext).
           destruct (clear_names fs directory names) as [out res].
           exists (S k). simpl in *. unfold removed_paths in *. simpl.
           rewrite Hremoved. repeat split; [by constructor|done].
        -- exists 0%nat. simpl. done.
      * rewrite filter_cons_False by by rewrite Hcsv. exact IH.
Qed.
End GurobiFacts.

(** ** The figures of the routing model *)

Section FigureFacts.
Import Py Gurobi.
Context {cell : Type}.
Implicit Types data distance : DataFrame cell.

Lemma vertices_seq n :
  0 :: range_from_1 n = Z.of_nat <$> seq 0 (n `max` 1).
Proof.
  unfold range_from_1. destruct n as [|n]; [done|].
  replace (S n `max` 1)%nat with (S n) by lia.
  replace (S n - 1)%nat with n by lia. done.
Qed.

Lemma range_from_1_seq n :
  range_from_1 n = Z.of_nat <$> seq 1 (n `max` 1 - 1).
Proof. unfold range_from_1. do 2 f_equal. lia. Qed.

Lemma elem_of_all_arcs V i j : (i, j) ∈ all_arcs V <-> i ∈ V /\ j ∈ V /\ i ≠ j.
Proof.
  unfold all_arcs. rewrite list_elem_of_bind. split.
  - intros (i' & Hrow & Hi'). apply list_elem_of_bind in Hrow as (j' & Hcell & Hj').
    case_bool_decide; [|by apply elem_of_nil in Hcell].
    apply list_elem_of_singleton in Hcell. injection Hcell as -> ->. done.
  - intros (Hi & Hj & Hne). exists i. split; [|done].
    apply list_elem_of_bind. exists j. split; [|done].
    rewrite bool_decide_true by done. apply list_elem_of_singleton. done.
Qed.

Lemma NoDup_all_arcs V : NoDup V -> NoDup (all_arcs V).
Proof.
  intros HV. unfold all_arcs. apply NoDup_bind; [| |done].
  - intros i1 i2 [i j] _ _ H1 H2.
    apply list_elem_of_bind in H1 as (j1 & H1 & _).
    apply list_elem_of_bind in H2 as (j2 & H2 & _).
    repeat case_bool_decide; try by (exfalso; eapply elem_of_nil; eauto).
    apply list_elem_of_singleton in H1, H2. congruence.
  - intros i _. apply NoDup_bind; [| |done].
    + intros j1 j2 [i' j] _ _ H1 H2.
      repeat case_bool_decide; try by (exfalso; eapply elem_of_nil; eauto).
      apply list_elem_of_singleton in H1, H2. congruence.
    + intros j _. case_bool_decide; [apply NoDup_singleton|constructor].
Qed.

Lemma row_length_fresh (W : list Z) i :
  i ∉ W ->
  length (j ← W; if bool_decide (i ≠ j) then [(i, j)] else []) = length W.
Proof.
  induction W as [|w W IH]; intros Hi; [done|].
  rewrite bind_cons, length_app, IH by (intros ?; apply Hi; by right).
  rewrite bool_decide_true; [done|]. intros ->. apply Hi. left.
Qed.

Lemma row_length (W : list Z) i :
  NoDup W -> i ∈ W ->
  length (j ← W; if bool_decide (i ≠ j) then [(i, j)] else [])
  = (length W - 1)%nat.
Proof.
  induction 1 as [|w W Hw HW IH]; intros Hi; [by apply elem_of_nil in Hi|].
  rewrite bind_cons, length_app. destruct (decide (i = w)) as [->|Hne].
  - rewrite bool_decide_false by tauto. rewrite row_length_fresh by done.
    simpl. lia.
  - apply elem_of_cons in Hi as [Hi|Hi]; [done|].
    rewrite bool_decide_true, IH by done. simpl.
    destruct W; [by apply elem_of_nil in Hi|]. simpl. lia.
Qed.

Lemma length_all_arcs V :
  NoDup V -> length (all_arcs V) = (length V * (length V - 1))%nat.
Proof.
  intros HV. unfold all_arcs.
  assert (Hsub : forall U, U ⊆ V ->
    length (i ← U; j ← V; if bool_decide (i ≠ j) then [(i, j)] else [])
    = (length U * (length V - 1))%nat).
  { induction U as [|u U IH]; intros HU; [done|].
    rewrite bind_cons, length_app, row_length, IH; [simpl; lia| |done|].
    - intros x Hx. apply HU. by right.
    - apply HU. left. }
  by apply Hsub.
Qed.

(** The parts of a figure, when there is one. *)
Lemma get_model_figure_value data distance fig :
  get_model_figure data distance = Value fig ->
  let N := range_from_1 (length (rows data)) in
  fig_N fig = N /\ fig_V fig = 0 :: N /\ fig_A fig = all_arcs (0 :: N) /\
  dict_comprehension (all_arcs (0 :: N)) (fun a => a)
    (fun a => iloc distance a.1 a.2) = Value (fig_c fig) /\
  exists capacity_pickup,
    getitem data "Daily_Pickup_Totes" = Value capacity_pickup /\
    dict_comprehension N (fun i => i) (fun i => at_position capacity_pickup i)
      = Value (fig_q fig).
Proof.
  intros Hfig N. unfold get_model_figure in Hfig.
  apply answer_bind_value in Hfig as (c & Hc & Hfig).
  apply answer_bind_value in Hfig as (capacity & Hcap & Hfig).
  apply answer_bind_value in Hfig as (q & Hq & [= <-]). simpl. eauto 10.
Qed.

(** X7: the figure has the depot 0 and one node for each row of the data
    after the first, so the depot alone when the data has no row; its arcs
    are the ordered pairs of different nodes, each of them once. *)
Theorem get_model_figure_arcs data distance fig :
  get_model_figure data distance = Value fig ->
  let n := (length (rows data) `max` 1)%nat in
  fig_V fig = Z.of_nat <$> seq 0 n /\
  fig_N fig = Z.of_nat <$> seq 1 (n - 1) /\
  (forall i j, (i, j) ∈ fig_A fig <->
               0 <= i < Z.of_nat n /\ 0 <= j < Z.of_nat n /\ i ≠ j) /\
  NoDup (fig_A fig) /\
  length (fig_A fig) = (n * (n - 1))%nat.
Proof.
  intros Hfig n.
  apply get_model_figure_value in Hfig as (HN & HV & HA & _).
  rewrite vertices_seq in HV, HA. fold n in HV, HA.
  rewrite HN, HV, HA, range_from_1_seq. fold n.
  assert (Hnodes : forall i, i ∈ Z.of_nat <$> seq 0 n <-> 0 <= i < Z.of_nat n).
  { intros i. rewrite list_elem_of_fmap. split.
    - intros (k & -> & Hk). apply elem_of_seq in Hk. lia.
    - intros Hi. exists (Z.to_nat i). split; [lia|]. apply elem_of_seq. lia. }
  assert (Hnodup : NoDup (Z.of_nat <$> seq 0 n))
    by (apply NoDup_fmap_2; [apply _|apply NoDup_seq]).
  split; [done|]. split; [done|]. split; [|split].
  - intros i j. by rewrite elem_of_all_arcs, !Hnodes.
  - by apply NoDup_all_arcs.
  - by rewrite length_all_arcs, length_fmap, length_seq.
Qed.

Lemma dict_comprehension_value {K V} `{Countable K} (xs : list K)
    (value : K -> answer V) (d0 d : gmap K V) :
  for_loop xs (fun x d => v ← value x; mret (<[x := v]> d)) d0 = Value d ->
  (forall k, k ∈ xs -> exists v, value k = Value v /\ d !! k = Some v) /\
  (forall k, k ∉ xs -> d !! k = d0 !! k).
Proof.
  revert d0. induction xs as [|x xs IH]; intros d0; simpl.
  - intros [= <-]. split; [|done]. intros k Hk. by apply elem_of_nil in Hk.
  - intros Hrun. apply answer_bind_value in Hrun as (d1 & Hstep & Hrun).
    apply answer_bind_value in Hstep as (v & Hv & [= <-]).
    apply IH in Hrun as [Hin Hout]. split.
    + intros k Hk. destruct (decide (k ∈ xs)) as [Hxs|Hxs]; [by apply Hin|].
      apply elem_of_cons in Hk as [->|Hk]; [|done].
      exists v. split; [done|]. by rewrite Hout, lookup_insert_eq.
    + intros k Hk. apply not_elem_of_cons in Hk as [Hne Hk].
      by rewrite Hout, lookup_insert_ne.
Qed.

Lemma dict_comprehension_returns {K V} `{Countable K} (xs : list K)
    (value : K -> answer V) (d0 : gmap K V) :
  (forall k, k ∈ xs -> exists v, value k = Value v) ->
  exists d, for_loop xs (fun x d => v ← value x; mret (<[x := v]> d)) d0
            = Value d.
Proof.
  revert d0. induction xs as [|x xs IH]; intros d0 Hall; simpl; [eauto|].
  destruct (Hall x) as [v ->]; [left|]. simpl. apply IH.
  intros k Hk. apply Hall. by right.
Qed.

Lemma dict_comprehension_raises {K V} `{Countable K} (xs : list K)
    (value : K -> answer V) (d0 : gmap K V) e :
  (forall k, k ∈ xs -> value k = Error e \/ exists v, value k = Value v) ->
  (exists k, k ∈ xs /\ value k = Error e) ->
  for_loop xs (fun x d => v ← value x; mret (<[x := v]> d)) d0 = Error e.
Proof.
  revert d0. induction xs as [|x xs IH]; intros d0 Hall (k & Hk & Hbad).
  - by apply elem_of_nil in Hk.
  - simpl. destruct (Hall x) as [->|[v Hv]]; [left|done|].
    rewrite Hv. simpl. apply IH.
    + intros k' Hk'. apply Hall. by right.
    + apply elem_of_cons in Hk as [->|Hk]; [congruence|eauto].
Qed.

Lemma at_position_cases {A} (l : list A) i :
  at_position l i = Error IndexError \/ exists x, at_position l i = Value x.
Proof. unfold at_position. destruct (_ ≫= _); eauto. Qed.

Lemma at_position_value {A} (l : list A) i x :
  0 <= i -> at_position l i = Value x <-> l !! Z.to_nat i = Some x.
Proof.
  intros Hi. unfold at_position, position.
  destruct (Z.leb_spec 0 i); [|lia].
  destruct (Z.ltb_spec i (Z.of_nat (length l))) as [Hlt|Hge]; simpl.
  - destruct (l !! Z.to_nat i); split; congruence.
  - rewrite lookup_ge_None_2 by lia. split; discriminate.
Qed.

Lemma iloc_cases distance i j :
  iloc distance i j = Error IndexError \/ exists d, iloc distance i j = Value d.
Proof.
  unfold iloc. destruct (at_position_cases (rows distance) i) as [->|[row ->]];
    [by left|]. simpl. apply at_position_cases.
Qed.

Lemma getitem_column data name series :
  getitem data name = Value series ->
  exists k, index_of name (columns data) = Some k /\
            Forall2 (fun row x => row !! k = Some x) (rows data) series.
Proof.
  unfold getitem. destruct (index_of name (columns data)) as [k|]; [|discriminate].
  intros Hloop. exists k. split; [done|].
  assert (Hgen : forall rs acc, for_loop rs
            (fun (row : list cell) series =>
               match row !! k with
               | Some x => Value (series ++ [x])
               | None => Error IndexError
               end) acc = Value series ->
            exists more, series = acc ++ more /\
                         Forall2 (fun row x => row !! k = Some x) rs more).
  { induction rs as [|row rs IH]; intros acc; simpl.
    - intros [= <-]. exists []. by rewrite app_nil_r.
    - destruct (row !! k) as [x|] eqn:Hx; simpl; [|discriminate].
      intros Hrun. apply IH in Hrun as (more & -> & Hmore).
      exists (x :: more). rewrite <- app_assoc. split; [done|by constructor]. }
  destruct (Hgen _ _ Hloop) as (more & -> & Hmore). done.
Qed.

(** X8: in the figure, [c] holds for each arc the cell of the distance
    frame at the row of its first node and the column of its second, and
    nothing else; [q] holds for each node but the depot the cell of its row
    in the column [Daily_Pickup_Totes], and nothing for the depot. *)
Theorem get_model_figure_tables data distance fig :
  get_model_figure data distance = Value fig ->
  (forall a, a ∈ fig_A fig ->
     exists d, iloc distance a.1 a.2 = Value d /\ fig_c fig !! a = Some d) /\
  (forall a, a ∉ fig_A fig -> fig_c fig !! a = None) /\
  (exists k, index_of "Daily_Pickup_Totes" (columns data) = Some k /\
     forall i, i ∈ fig_N fig ->
       exists row t, rows data !! Z.to_nat i = Some row /\ row !! k = Some t /\
                     fig_q fig !! i = Some t) /\
  (forall i, i ∉ fig_N fig -> fig_q fig !! i = None).
Proof.
  intros Hfig.
  apply get_model_figure_value in Hfig
    as (HN & HV & HA & Hc & capacity & Hcap & Hq).
  apply dict_comprehension_value in Hc as [Hc_in Hc_out].
  apply dict_comprehension_value in Hq as [Hq_in Hq_out].
  rewrite HN, HA. split; [exact Hc_in|]. split; [exact Hc_out|]. split; [|exact Hq_out].
  apply getitem_column in Hcap as (k & Hk & Hcol). exists k. split; [done|].
  intros i Hi. destruct (Hq_in i Hi) as (t & Ht & Hqi).
  assert (0 <= i).
  { unfold range_from_1 in Hi. apply list_elem_of_fmap in Hi as (m & -> & _). lia. }
  apply at_position_value in Ht; [|done].
  destruct (Forall2_lookup_r _ _ _ _ _ Hcol Ht) as (row & Hrow & Hcell).
  by exists row, t.
Qed.

(** X9: the distance frame is read before the data: when it lacks the
    cell of some arc, [get_model_figure] raises [IndexError], whatever the
    columns of the data. *)
Theorem get_model_figure_small_matrix data distance i j :
  (i, j) ∈ all_arcs (0 :: range_from_1 (length (rows data))) ->
  iloc distance i j = Error IndexError ->
  get_model_figure data distance = Error IndexError.
Proof.
  intros Harc Hcell. unfold get_model_figure, dict_comprehension.
  rewrite (dict_comprehension_raises _ (fun a : arc => iloc distance a.1 a.2)
             ∅ IndexError); [done| |by exists (i, j)].
  intros a _. apply iloc_cases.
Qed.

(** X10: when the distance frame has a cell for every pair of nodes and
    every row of the data has a cell in the column [Daily_Pickup_Totes],
    [get_model_figure] returns a figure. *)
Theorem get_model_figure_returns data distance k :
  let n := (length (rows data) `max` 1)%nat in
  (forall i j, 0 <= i < Z.of_nat n -> 0 <= j < Z.of_nat n ->
               exists d, iloc distance i j = Value d) ->
  index_of "Daily_Pickup_Totes" (columns data) = Some k ->
  Forall (fun row => is_Some (row !! k)) (rows data) ->
  exists fig, get_model_figure data distance = Value fig.
Proof.
  intros n Hdist Hk Hrows. unfold get_model_figure, dict_comprehension.
  destruct (dict_comprehension_returns
              (all_arcs (0 :: range_from_1 (length (rows data))))
              (fun a : arc => iloc distance a.1 a.2) ∅) as [c ->].
  { intros [i j] Harc. rewrite vertices_seq in Harc.
    apply elem_of_all_arcs in Harc as (Hi & Hj & _).
    apply list_elem_of_fmap in Hi as (i' & -> & Hi'%elem_of_seq).
    apply list_elem_of_fmap in Hj as (j' & -> & Hj'%elem_of_seq).
    simpl. apply Hdist; unfold n; lia. }
  simpl. unfold getitem. rewrite Hk.
  assert (Hgen : forall rs acc, Forall (fun row => is_Some (row !! k)) rs ->
            exists series,
              for_loop rs
                (fun (row : list cell) series =>
                   match row !! k with
                   | Some x => Value (series ++ [x])
                   | None => Error IndexError
                   end) acc = Value series /\
              length series = (length acc + length rs)%nat).
  { induction rs as [|row rs IH]; intros acc Hall; simpl.
    - exists acc. split; [done|lia].
    - inversion Hall as [|? ? [x Hx] Hall']; subst. rewrite Hx. simpl.
      destruct (IH (acc ++ [x]) Hall') as (series & -> & Hlen).
      exists series. split; [done|]. rewrite length_app in Hlen. simpl in Hlen. lia. }
  destruct (Hgen (rows data) [] Hrows) as (series & -> & Hlen). simpl.
  destruct (dict_comprehension_returns (range_from_1 (length (rows data)))
              (fun i => at_position series i) ∅) as [q ->]; [|simpl; eauto].
  intros i Hi. unfold range_from_1 in Hi.
  apply list_elem_of_fmap in Hi as (m & -> & Hm%elem_of_seq).
  destruct (lookup_lt_is_Some_2 series m) as [t Ht]; [simpl in Hlen; lia|].
  exists t. apply at_position_value; [lia|]. by rewrite Nat2Z.id.
Qed.
End FigureFacts.

(** ** Cities and hotels of TripAdvisor *)

Section TripCityFacts.
Import Py Str TripCity.

Lemma field_value {A} key (value : option A) x :
  field key value = Value x <-> value = Some x.
Proof. destruct value; simpl; split; congruence. Qed.

Lemma find_city_first cityname len index data city :
  find_city cityname len index data = Value city ->
  exists before after,
    data = before ++ city :: after /\
    names_city cityname city /\
    Forall (names_other_city cityname) before.
Proof.
  revert index. induction data as [|c data IH]; intros index; simpl;
    [discriminate|].
  intros Hrun. apply answer_bind_value in Hrun as (city_name & Hname & Hrun).
  apply field_value in Hname. case_bool_decide as Hmatch.
  - injection Hrun as <-. exists [], data. split; [done|].
    split; [by exists city_name|constructor].
  - case_bool_decide; [discriminate|].
    apply IH in Hrun as (before & after & -> & Hcity & Hbefore).
    exists (c :: before), after. split; [done|]. split; [done|].
    constructor; [by exists city_name|done].
Qed.

Lemma find_city_none cityname len index data :
  data ≠ [] -> (index + length data = len)%nat ->
  Forall (names_other_city cityname) data ->
  find_city cityname len index data
  = Error (ValueError (show cityname ++ " was not found via the Tripadvisor API")).
Proof.
  revert index. induction data as [|c data IH]; intros index Hne Hlen Hall;
    [done|].
  inversion Hall as [|? ? (city_name & Hname & Hother) Hall']; subst.
  simpl. rewrite Hname. simpl. rewrite bool_decide_false by done.
  destruct data as [|c' data].
  - rewrite bool_decide_true; [done|]. simpl. lia.
  - rewrite bool_decide_false by (simpl; lia).
    apply IH; [done|simpl; lia|done].
Qed.

(** X11: for names in ASCII, the city that [tripadvisor_city_info]
    returns is the first city of the response whose name is the name
    looked for, up to case and to the white space around it: it is in the
    response, and all the cities before it have other names. *)
Theorem tripadvisor_city_info_first_match response cityname city :
  isascii cityname = true ->
  from_option ascii_names true response = true ->
  tripadvisor_city_info response cityname = Value city ->
  exists before after,
    response = Some (before ++ city :: after) /\
    names_city cityname city /\
    Forall (names_other_city cityname) before.
Proof.
  unfold tripadvisor_city_info. intros _ _ Hrun.
  apply answer_bind_value in Hrun as (data & Hdata & Hrun).
  apply field_value in Hdata. case_bool_decide; [discriminate|].
  apply find_city_first in Hrun as (before & after & -> & Hcity & Hbefore).
  by exists before, after.
Qed.

(** X12: for names in ASCII, when no city of the response has the name
    looked for, [tripadvisor_city_info] raises a [ValueError]: the
    response has no result, or the city was not found. *)
Theorem tripadvisor_city_info_no_match data cityname :
  isascii cityname = true ->
  ascii_names data = true ->
  Forall (names_other_city cityname) data ->
  tripadvisor_city_info (Some data) cityname =
  Error (ValueError
    (if bool_decide (data = [])
     then "Tripadvisor API returned no results for " ++ show cityname
     else show cityname ++ " was not found via the Tripadvisor API")).
Proof.
  intros _ _ Hall. unfold tripadvisor_city_info. simpl.
  destruct data as [|c data]; [done|].
  rewrite !bool_decide_false by done.
  by apply find_city_none.
Qed.


End TripCityFacts.

(** ** Strings *)

Ltac by_cases_on_char c :=
  destruct c as [[] [] [] [] [] [] [] []]; vm_compute; try reflexivity;
  try discriminate; try tauto.

Section StrFacts.
Import Py Str.
Implicit Types s t old new : str.

Lemma lower_char_idemp c : lower_char (lower_char c) = lower_char c.
Proof. by_cases_on_char c. Qed.

Lemma isspace_lower_char c : isspace (lower_char c) = isspace c.
Proof. by_cases_on_char c. Qed.

Lemma isupper_lower_char c : isupper (lower_char c) = false.
Proof. by_cases_on_char c. Qed.

Lemma lower_char_space c : lower_char c = " "%char -> c = " "%char.
Proof. by_cases_on_char c. Qed.

Lemma isspace_space c : isspace c = false -> c ≠ " "%char.
Proof. intros Hc ->. discriminate. Qed.

Lemma lower_idemp s : lower (lower s) = lower s.
Proof.
  unfold lower. rewrite <- list_fmap_compose. apply list_fmap_ext.
  intros _ c _. apply lower_char_idemp.
Qed.

Lemma replace_char c new s :
  replace [c] new s = s ≫= fun x => if bool_decide (c = x) then new else [x].
Proof.
  unfold replace. induction s as [|x s IH]; [done|].
  rewrite bind_cons. simpl. rewrite andb_true_r.
  case_bool_decide; by rewrite IH.
Qed.

Lemma replace_char_absent c new s : c ∉ s -> replace [c] new s = s.
Proof.
  rewrite replace_char. induction s as [|x s IH]; intros Hs; [done|].
  rewrite bind_cons, IH by (intros ?; apply Hs; by right).
  rewrite bool_decide_false; [done|]. intros ->. apply Hs. left.
Qed.

Lemma lstrip_head s c : head (lstrip s) = Some c -> isspace c = false.
Proof.
  induction s as [|x s IH]; simpl; [discriminate|].
  destruct (isspace x) eqn:Hx; [done|]. by intros [= <-].
Qed.

Lemma lstrip_id s :
  (forall c, head s = Some c -> isspace c = false) -> lstrip s = s.
Proof. destruct s as [|x s]; [done|]. simpl. intros Hs. by rewrite Hs. Qed.

Lemma lstrip_suffix s : lstrip s `suffix_of` s.
Proof.
  induction s as [|x s IH]; simpl; [done|].
  destruct (isspace x); [by apply suffix_cons_r|done].
Qed.

Lemma lstrip_nil s : lstrip s = [] -> Forall (fun c => isspace c = true) s.
Proof.
  induction s as [|x s IH]; simpl; [constructor|].
  destruct (isspace x) eqn:Hx; [|discriminate]. by constructor; auto.
Qed.

Lemma rstrip_last s c : last (rstrip s) = Some c -> isspace c = false.
Proof. unfold rstrip. rewrite last_reverse. apply lstrip_head. Qed.

Lemma rstrip_id s :
  (forall c, last s = Some c -> isspace c = false) -> rstrip s = s.
Proof.
  intros Hs. unfold rstrip. rewrite lstrip_id, reverse_involutive; [done|].
  intros c. rewrite head_reverse. apply Hs.
Qed.

Lemma rstrip_head s c :
  head s = Some c -> isspace c = false -> head (rstrip s) = Some c.
Proof.
  intros Hhead Hc. unfold rstrip.
  destruct (lstrip_suffix (reverse s)) as [dropped Hdrop].
  apply (f_equal reverse) in Hdrop.
  rewrite reverse_involutive, reverse_app in Hdrop.
  destruct (reverse (lstrip (reverse s))) as [|x kept] eqn:Hkept.
  - apply (f_equal reverse) in Hkept. rewrite reverse_involutive in Hkept.
    apply lstrip_nil in Hkept. simpl in Hkept.
    destruct s as [|y s]; [discriminate|]. injection Hhead as ->.
    rewrite reverse_cons in Hkept. apply Forall_app in Hkept as [_ Hkept].
    inversion Hkept; congruence.
  - rewrite Hdrop in Hhead. done.
Qed.

Lemma strip_trimmed s : trimmed (strip s).
Proof.
  split; intros c Hc; [|by apply (rstrip_last (lstrip s))].
  unfold strip in Hc. destruct (lstrip s) as [|x t] eqn:Ht.
  - by vm_compute in Hc.
  - assert (Hx : isspace x = false) by (apply (lstrip_head s); by rewrite Ht).
    rewrite (rstrip_head (x :: t) x) in Hc by done. congruence.
Qed.

Lemma strip_id s : trimmed s -> strip s = s.
Proof. intros [Hhead Hlast]. unfold strip. by rewrite lstrip_id, rstrip_id. Qed.

Lemma trimmed_lower s : trimmed s -> trimmed (lower s).
Proof.
  intros [Hhead Hlast]. unfold lower. split; intros c.
  - destruct s as [|x s]; [discriminate|]. simpl. intros [= <-].
    rewrite isspace_lower_char. by apply Hhead.
  - rewrite fmap_last. destruct (last s) as [x|]; [|discriminate].
    simpl. intros [= <-]. rewrite isspace_lower_char. by apply Hlast.
Qed.

Lemma trimmed_replace_space new s :
  trimmed s -> trimmed (replace (lit " ") new s).
Proof.
  intros [Hhead Hlast]. change (lit " ") with [" "%char].
  rewrite replace_char. split; intros c.
  - destruct s as [|x s]; [discriminate|]. rewrite bind_cons.
    rewrite bool_decide_false.
    + simpl. intros [= <-]. by apply Hhead.
    + intros <-. by discriminate (Hhead " "%char).
  - destruct s as [|x s _] using rev_ind; [discriminate|].
    rewrite last_snoc in Hlast. rewrite bind_app, bind_singleton.
    rewrite bool_decide_false.
    + rewrite last_snoc. intros [= <-]. by apply Hlast.
    + intros <-. by discriminate (Hlast " "%char).
Qed.

Lemma replace_space_no_space new s :
  " "%char ∉ new -> " "%char ∉ replace (lit " ") new s.
Proof.
  intros Hnew. change (lit " ") with [" "%char]. rewrite replace_char.
  rewrite list_elem_of_bind. intros (x & Hin & _).
  case_bool_decide; [done|]. apply list_elem_of_singleton in Hin. done.
Qed.

Lemma lower_no_space s : " "%char ∉ s -> " "%char ∉ lower s.
Proof.
  intros Hs Hin. apply list_elem_of_fmap in Hin as (c & Hc & Hin).
  symmetry in Hc. apply lower_char_space in Hc. by subst.
Qed.

Lemma lower_no_upper s : Forall (fun c => isupper c = false) (lower s).
Proof. apply Forall_fmap, Forall_true. intros c. apply isupper_lower_char. Qed.

Lemma isascii_Forall s :
  isascii s = true <-> Forall (fun c => isascii_char c = true) s.
Proof.
  unfold isascii. induction s as [|c s IH]; simpl.
  - split; [constructor|done].
  - rewrite andb_true_iff, IH. split.
    + intros [Hc Hs]. by constructor.
    + by inversion 1.
Qed.

Lemma isascii_lower_char c :
  isascii_char c = true -> isascii_char (lower_char c) = true.
Proof. by_cases_on_char c. Qed.

Lemma isascii_lower s : isascii s = true -> isascii (lower s) = true.
Proof.
  rewrite !isascii_Forall. unfold lower. rewrite Forall_fmap.
  intros Hs. eapply Forall_impl; [exact Hs|].
  intros c. apply isascii_lower_char.
Qed.

Lemma isascii_lstrip s : isascii s = true -> isascii (lstrip s) = true.
Proof.
  rewrite !isascii_Forall, !Forall_forall. intros Hs c Hc. apply Hs.
  destruct (lstrip_suffix s) as [k ->]. apply elem_of_app. by right.
Qed.

Lemma isascii_reverse s : isascii (reverse s) = isascii s.
Proof.
  apply eq_true_iff_eq. rewrite !isascii_Forall, !Forall_forall.
  by setoid_rewrite elem_of_reverse.
Qed.

Lemma isascii_strip s : isascii s = true -> isascii (strip s) = true.
Proof.
  intros Hs. unfold strip, rstrip.
  rewrite isascii_reverse. apply isascii_lstrip.
  rewrite isascii_reverse. by apply isascii_lstrip.
Qed.

Lemma isascii_replace_space new s :
  isascii new = true -> isascii s = true ->
  isascii (replace (lit " ") new s) = true.
Proof.
  change (lit " ") with [" "%char]. rewrite replace_char.
  rewrite !isascii_Forall, !Forall_forall. intros Hnew Hs c Hc.
  apply list_elem_of_bind in Hc as (x & Hc & Hx).
  case_bool_decide; [by apply Hnew|].
  apply list_elem_of_singleton in Hc as ->. by apply Hs.
Qed.

(** What the two functions that prepare the name of a city have in common. *)
Lemma prepared_clean new s :
  " "%char ∉ new ->
  let r := lower (replace (lit " ") new (strip s)) in
  (" "%char ∉ r) /\ Forall (fun c => isupper c = false) r /\ trimmed r.
Proof.
  intros Hnew r. split; [|split].
  - by apply lower_no_space, replace_space_no_space.
  - apply lower_no_upper.
  - apply trimmed_lower, trimmed_replace_space, strip_trimmed.
Qed.

Lemma prepared_idemp new s :
  " "%char ∉ new ->
  let r := lower (replace (lit " ") new (strip s)) in
  lower (replace (lit " ") new (strip r)) = r.
Proof.
  intros Hnew r. destruct (prepared_clean new s Hnew) as (Hspace & _ & Htrim).
  fold r in Hspace, Htrim. rewrite (strip_id r Htrim).
  change (lit " ") with [" "%char]. rewrite replace_char_absent by done.
  apply lower_idemp.
Qed.
End StrFacts.

Section PrepFacts.
Import Py Str TripCity.

(** X14: the name of a city in ASCII, once prepared for the file of its
    boundary or for the search, is still in ASCII and has no space and no
    upper-case letter in it. *)
Theorem prepared_cityname_is_clean cityname :
  isascii cityname = true ->
  (isascii (prep_cityname_geojson cityname) = true /\
   (" "%char ∉ prep_cityname_geojson cityname) /\
   Forall (fun c => isupper c = false) (prep_cityname_geojson cityname)) /\
  (isascii (prep_cityname_api cityname) = true /\
   (" "%char ∉ prep_cityname_api cityname) /\
   Forall (fun c => isupper c = false) (prep_cityname_api cityname)).
Proof.
  intros Hascii. split.
  - split.
    { apply isascii_lower, isascii_replace_space; [done|].
      by apply isascii_strip. }
    destruct (prepared_clean (lit "_") cityname) as (? & ? & _); [|done].
    vm_compute. by intros ?%list_elem_of_singleton.
  - split.
    { apply isascii_lower, isascii_replace_space; [done|].
      by apply isascii_strip. }
    destruct (prepared_clean (lit "%20") cityname) as (? & ? & _); [|done].
    vm_compute. intros Hin. repeat (apply elem_of_cons in Hin as [?|Hin]; [done|]).
    by apply elem_of_nil in Hin.
Qed.

(** X15: preparing a name that is already prepared changes nothing. *)
Theorem prepared_cityname_is_stable cityname :
  prep_cityname_geojson (prep_cityname_geojson cityname)
    = prep_cityname_geojson cityname /\
  prep_cityname_api (prep_cityname_api cityname) = prep_cityname_api cityname.
Proof.
  split.
  - apply (prepared_idemp (lit "_")).
    vm_compute. by intros ?%list_elem_of_singleton.
  - apply (prepared_idemp (lit "%20")).
    vm_compute. intros Hin. repeat (apply elem_of_cons in Hin as [?|Hin]; [done|]).
    by apply elem_of_nil in Hin.
Qed.
End PrepFacts.

(** ** Pages of hotels *)

Section PageFacts.
Import Py Str TripCity.
Implicit Types s t old new : str.

Lemma startswith_app p s : startswith p (p ++ s) = true.
Proof. induction p as [|c p IH]; [done|]. simpl. by rewrite bool_decide_true. Qed.

Lemma startswith_prefix p q s :
  startswith (p ++ q) s = true -> startswith p s = true.
Proof.
  revert s. induction p as [|c p IH]; intros s; [done|].
  destruct s as [|x s]; simpl; [done|].
  intros [-> Hrest]%andb_prop. by rewrite (IH s Hrest).
Qed.

Lemma contains_prefix p q s : contains p s = false -> contains (p ++ q) s = false.
Proof.
  induction s as [|x s IH]; simpl.
  - rewrite !orb_false_r. intros Hp.
    destruct (startswith (p ++ q) []) eqn:Hpq; [|done].
    apply startswith_prefix in Hpq. congruence.
  - intros [Hp Hs]%orb_false_elim. rewrite (IH Hs), orb_false_r.
    destruct (startswith (p ++ q) (x :: s)) eqn:Hpq; [|done].
    apply startswith_prefix in Hpq. congruence.
Qed.

Lemma contains_char c s : contains [c] s = true <-> c ∈ s.
Proof.
  induction s as [|x s IH]; simpl.
  - split; [discriminate|]. intros Hin. by apply elem_of_nil in Hin.
  - rewrite andb_true_r, orb_true_iff, IH, elem_of_cons, bool_decide_eq_true.
    done.
Qed.

Lemma replace_from_skip old new t rest :
  replace_from old new (length t) (t ++ rest) = replace_from old new 0 rest.
Proof. induction t as [|x t IH]; [done|]. exact IH. Qed.

Lemma replace_hit c old new rest :
  replace (c :: old) new ((c :: old) ++ rest) = new ++ replace (c :: old) new rest.
Proof.
  unfold replace. simpl. rewrite bool_decide_true, startswith_app by done.
  simpl. by rewrite Nat.sub_0_r, replace_from_skip.
Qed.

Lemma replace_pass c old new pre s :
  c ∉ pre -> replace (c :: old) new (pre ++ s) = pre ++ replace (c :: old) new s.
Proof.
  unfold replace. induction pre as [|x pre IH]; intros Hpre; [done|].
  simpl. rewrite bool_decide_false.
  - simpl. f_equal. apply IH. intros ?. apply Hpre. by right.
  - intros ->. apply Hpre. left.
Qed.

Lemma replace_miss c old new s :
  contains (c :: old) s = false -> replace (c :: old) new s = s.
Proof.
  unfold replace. induction s as [|x s IH]; [done|].
  intros [Hhere Hs]%orb_false_elim. cbn [replace_from].
  rewrite Hhere. f_equal. by apply IH.
Qed.

(** Replacing the one occurrence of a string. *)
Lemma replace_once c old new pre rest :
  c ∉ pre -> contains (c :: old) rest = false ->
  replace (c :: old) new (pre ++ (c :: old) ++ rest) = pre ++ new ++ rest.
Proof.
  intros Hpre Hrest. by rewrite replace_pass, replace_hit, replace_miss.
Qed.

Lemma split_char_last d piece s :
  d ∉ s -> split_from [d] 0 piece s = [piece ++ s].
Proof.
  revert piece. induction s as [|x s IH]; intros piece Hs; simpl.
  - by rewrite app_nil_r.
  - rewrite andb_true_r, bool_decide_false.
    + rewrite IH, <- app_assoc; [done|]. intros ?. apply Hs. by right.
    + intros ->. apply Hs. left.
Qed.

Lemma split_char_piece d piece pre rest :
  d ∉ pre ->
  split_from [d] 0 piece (pre ++ d :: rest)
  = (piece ++ pre) :: split_from [d] 0 [] rest.
Proof.
  revert piece. induction pre as [|x pre IH]; intros piece Hpre; simpl.
  - by rewrite andb_true_r, bool_decide_true, app_nil_r.
  - rewrite andb_true_r, bool_decide_false.
    + rewrite IH, <- app_assoc; [done|]. intros ?. apply Hpre. by right.
    + intros ->. apply Hpre. left.
Qed.

Lemma show_lit x : show (lit x) = x.
Proof. apply String.string_of_list_ascii_of_string. Qed.

Lemma digits_of_uint d :
  Forall (fun c => isdigit c = true)
         (lit (DecimalString.NilEmpty.string_of_uint d)).
Proof. induction d; simpl; by constructor. Qed.

Lemma digits_of_digits s :
  s ≠ [] -> Forall (fun c => isdigit c = true) s -> digits_of false s = Some s.
Proof.
  assert (Hgen : forall b, Forall (fun c => isdigit c = true) s ->
                           (s ≠ [] \/ b = true) -> digits_of b s = Some s).
  { induction s as [|x s IH]; intros b Hall Hne; simpl.
    - destruct Hne as [?| ->]; done.
    - inversion Hall as [|? ? Hx Hall']; subst. rewrite Hx.
      rewrite (IH true) by auto. done. }
  intros Hne Hall. apply Hgen; auto.
Qed.

Lemma isdigit_not_space c : isdigit c = true -> isspace c = false.
Proof. by_cases_on_char c. Qed.

Lemma isdigit_not_sign c :
  isdigit c = true -> c ≠ "-"%char /\ c ≠ "+"%char /\ c ≠ "_"%char.
Proof. intros Hc. repeat split; intros ->; by vm_compute in Hc. Qed.

Lemma digits_trimmed s : Forall (fun c => isdigit c = true) s -> trimmed s.
Proof.
  intros Hall. split; intros c Hc; apply isdigit_not_space.
  - destruct s as [|x s]; [discriminate|]. injection Hc as <-. by inversion Hall.
  - apply last_Some in Hc as [s' ->]. apply Forall_app in Hall as [_ Hall].
    by inversion Hall.
Qed.

(** The digits of a number that is not negative. *)
Lemma of_int_digits n :
  0 <= n -> of_int n ≠ [] /\ Forall (fun c => isdigit c = true) (of_int n).
Proof.
  intros Hn. unfold of_int, str_of_int.
  destruct n as [|p|p]; [by vm_compute; repeat constructor| |lia].
  simpl. unfold DecimalString.NilZero.string_of_uint.
  pose proof (DecimalPos.Unsigned.to_uint_nonnil p) as Hnil.
  destruct (Pos.to_uint p) eqn:Hp; try done;
    (split; [done|]); rewrite <- Hp at 1; rewrite <- Hp in *;
    try apply digits_of_uint.
Qed.

Lemma to_int_digits s u :
  s ≠ [] -> Forall (fun c => isdigit c = true) s ->
  DecimalString.NilZero.uint_of_string (show s) = Some u ->
  to_int s = Value (Z.of_N (N.of_uint u)).
Proof.
  intros Hne Hall Hu. unfold to_int. rewrite (strip_id _ (digits_trimmed _ Hall)).
  destruct s as [|c ds]; [done|].
  assert (Hc : isdigit c = true) by by inversion Hall.
  destruct (isdigit_not_sign c Hc) as (Hminus & Hplus & _).
  rewrite !bool_decide_false by done.
  rewrite digits_of_digits by done.
  unfold mbind, option_bind. cbv beta iota. by rewrite Hu.
Qed.

(** [int(str(n))] is [n]. *)
Lemma to_int_of_int n : 0 <= n -> to_int (of_int n) = Value n.
Proof.
  intros Hn. destruct (of_int_digits n Hn) as [Hne Hall].
  pose proof (DecimalZ.of_to n) as Hback.
  destruct n as [|p|p]; [done| |lia].
  rewrite (to_int_digits _ (Pos.to_uint p)); [|done|done|].
  - simpl in Hback. unfold Z.of_uint in Hback. unfold N.of_uint. by rewrite Hback.
  - unfold of_int, str_of_int. rewrite show_lit. simpl.
    apply DecimalString.NilZero.usu, DecimalPos.Unsigned.to_uint_nonnil.
Qed.


#[local] Ltac char_not_in_literal :=
  let Hin := fresh "Hin" in
  intros Hin; vm_compute in Hin;
  repeat (apply elem_of_cons in Hin as [?|Hin]; [done|]);
  by apply elem_of_nil in Hin.

#[local] Abbreviation site := (lit "https://www.tripadvisor.com/Hotels").

Lemma hotels_url_parts location_id names :
  hotels_url TRIP_HOTELLST_URL location_id names
  = (site ++ ["-"%char]) ++ ("g"%char :: location_id) ++
    "-"%char :: names ++ "-"%char :: lit "Hotels.html".
Proof.
  unfold hotels_url. change TRIP_HOTELLST_URL with (site ++ ["-"; "g"]%char).
  rewrite <- !app_assoc. reflexivity.
Qed.

Lemma hotels_page_parts location_id names offset :
  hotels_page location_id names offset
  = (site ++ ["-"%char]) ++
    ("g"%char :: location_id ++ "-"%char :: lit "oa" ++ of_int offset) ++
    "-"%char :: names ++ "-"%char :: lit "Hotels.html".
Proof.
  unfold hotels_page. change TRIP_HOTELLST_URL with (site ++ ["-"; "g"]%char).
  rewrite <- !app_assoc. cbn [app]. rewrite <- !app_assoc. reflexivity.
Qed.

Lemma split_hotels location_id middle rest :
  "-"%char ∉ location_id -> "-"%char ∉ middle ->
  exists pieces,
    split (lit "-") ((site ++ ["-"%char]) ++ ("g"%char :: location_id) ++
                     "-"%char :: middle ++ "-"%char :: rest)
    = Value (site :: ("g"%char :: location_id) :: middle :: pieces).
Proof.
  intros Hid Hmiddle. eexists. unfold split. change (lit "-") with ["-"%char].
  cbv beta iota. rewrite <- app_assoc.
  change (["-"%char] ++ ?Y) with ("-"%char :: Y).
  rewrite (split_char_piece "-" [] site) by char_not_in_literal.
  rewrite (split_char_piece "-" [] ("g"%char :: location_id)).
  - rewrite (split_char_piece "-" [] middle) by done. reflexivity.
  - intros [?|?]%elem_of_cons; done.
Qed.

(** X16: for the address that [tripadvisor_city_hotels] builds for a
    place, [get_additional_hotelpage] gives the address of the page that
    starts after 30 hotels, as long as the identifier and the names hold no
    hyphen, the names hold an underscore, and the letter g followed by the
    identifier occurs nowhere after the identifier. *)
Theorem get_additional_hotelpage_first location_id names :
  "-"%char ∉ location_id -> "-"%char ∉ names -> "_"%char ∈ names ->
  contains ("g"%char :: location_id)
           ("-"%char :: names ++ lit "-Hotels.html") = false ->
  get_additional_hotelpage (hotels_url TRIP_HOTELLST_URL location_id names)
  = Value (hotels_page location_id names 30).
Proof.
  intros Hid Hnames Hunder Hrest. unfold get_additional_hotelpage.
  rewrite hotels_url_parts, hotels_page_parts.
  destruct (split_hotels location_id names (lit "Hotels.html") Hid Hnames)
    as [pieces ->].
  cbn [mbind answer_bind item lookup list_lookup].
  change (lit "_") with ["_"%char]. rewrite (proj2 (contains_char _ _) Hunder).
  cbn [mret answer_ret].
  rewrite replace_once by first [exact Hrest | char_not_in_literal].
  f_equal. all: rewrite <- ?app_assoc; reflexivity.
Qed.

(** X17: for the address of the page that starts after [offset] hotels,
    [get_additional_hotelpage] gives the address of the page that starts 30
    hotels later, under the same conditions on the identifier and the
    names. *)
Theorem get_additional_hotelpage_next location_id names offset :
  0 <= offset ->
  "-"%char ∉ location_id -> "-"%char ∉ names ->
  contains ("g"%char :: location_id)
           ("-"%char :: names ++ lit "-Hotels.html") = false ->
  get_additional_hotelpage (hotels_page location_id names offset)
  = Value (hotels_page location_id names (offset + 30)).
Proof.
  intros Hoffset Hid Hnames Hrest. unfold get_additional_hotelpage.
  destruct (of_int_digits offset Hoffset) as [_ Hdigits].
  assert (Hoa : forall c, c ∈ lit "oa" ++ of_int offset ->
                          c ≠ "-"%char /\ c ≠ "_"%char).
  { intros c [Hc|Hc]%elem_of_app.
    - vm_compute in Hc. repeat (apply elem_of_cons in Hc as [->|Hc]; [done|]).
      by apply elem_of_nil in Hc.
    - rewrite Forall_forall in Hdigits. apply Hdigits in Hc.
      destruct (isdigit_not_sign c Hc) as (? & _ & ?). done. }
  rewrite !hotels_page_parts.
  set (middle := lit "oa" ++ of_int offset) in *.
  set (url := (site ++ ["-"%char]) ++ ("g"%char :: location_id ++ "-"%char :: middle) ++
              "-"%char :: names ++ "-"%char :: lit "Hotels.html").
  assert (Hsplit : exists pieces,
            split (lit "-") url
            = Value (site :: ("g"%char :: location_id) :: middle :: pieces)).
  { destruct (split_hotels location_id middle
                (names ++ "-"%char :: lit "Hotels.html") Hid) as [pieces Hp].
    - intros Hin. by destruct (Hoa _ Hin).
    - exists pieces. rewrite <- Hp. f_equal. unfold url.
      cbn [app]. rewrite <- !app_assoc. reflexivity. }
  destruct Hsplit as [pieces ->].
  cbn [mbind answer_bind item lookup list_lookup].
  destruct (contains (lit "_") middle) eqn:Hunder.
  { change (lit "_") with ["_"%char] in Hunder.
    apply contains_char in Hunder. by destruct (Hoa _ Hunder). }
  change (drop 2 middle) with (of_int offset).
  rewrite to_int_of_int by done. cbn [mbind answer_bind mret answer_ret].
  change (("g"%char :: location_id) ++ lit "-" ++ middle)
    with ("g"%char :: location_id ++ "-"%char :: middle).
  unfold url. rewrite replace_once.
  - f_equal. all: cbn [app]; rewrite <- ?app_assoc; reflexivity.
  - char_not_in_literal.
  - apply (contains_prefix ("g"%char :: location_id) ("-"%char :: middle)).
    exact Hrest.
Qed.

Lemma tripadvisor_city_hotels_value city_info base_url id nm address st :
  TripCity.location_id city_info = Some id ->
  TripCity.name city_info = Some nm ->
  address_obj city_info = Some address ->
  addr_state address = Some st ->
  tripadvisor_city_hotels city_info base_url
  = Value (hotels_url base_url id (joined_names nm (addr_city address) st)).
Proof.
  intros Hid Hnm Haddr Hst.
  unfold tripadvisor_city_hotels, city_info_values, joined_names, hotels_url.
  rewrite Hid, Hnm, Haddr. cbn -[replace lit app]. rewrite Hst.
  destruct (addr_city address) as [city|]; cbn -[replace lit app].
  - destruct (replace (lit " ") (lit "_") city); cbn -[replace lit app];
      by rewrite <- ?app_assoc.
  - by rewrite <- ?app_assoc.
Qed.

(** X18: the address that [tripadvisor_city_hotels] builds is the base,
    the identifier of the place, a hyphen, the names of the place and
    [-Hotels.html].  The names are the name of the place, its city when
    it has one that is not empty, and its state, each with underscores
    for its spaces, and joined by underscores; they hold no space and at
    least one underscore. *)
Theorem tripadvisor_city_hotels_address city_info base_url url :
  tripadvisor_city_hotels city_info base_url = Value url ->
  exists location_id name address state,
    TripCity.location_id city_info = Some location_id /\
    TripCity.name city_info = Some name /\
    address_obj city_info = Some address /\
    addr_state address = Some state /\
    let names := joined_names name (addr_city address) state in
    url = hotels_url base_url location_id names /\
    (" "%char ∉ names) /\ "_"%char ∈ names.
Proof.
  intros Hrun. pose proof Hrun as Hfields.
  unfold tripadvisor_city_hotels, city_info_values in Hfields.
  apply answer_bind_value in Hfields as (values & Hvalues & _).
  apply answer_bind_value in Hvalues as (id' & Hid & Hvalues).
  apply answer_bind_value in Hvalues as (nm' & Hnm & Hvalues).
  apply answer_bind_value in Hvalues as (address & Haddr & Hvalues).
  apply answer_bind_value in Hvalues as (address' & Haddr' & Hvalues).
  apply answer_bind_value in Hvalues as (state' & Hstate & _).
  apply field_value in Hid, Hnm, Haddr, Haddr', Hstate.
  rewrite Haddr in Haddr'. injection Haddr' as <-.
  rewrite (tripadvisor_city_hotels_value _ _ _ _ _ _ Hid Hnm Haddr Hstate)
    in Hrun.
  injection Hrun as <-.
  exists id', nm', address, state'. do 4 (split; [done|]). intros names.
  assert (Hclean : forall x, " "%char ∉ replace (lit " ") (lit "_") x).
  { intros x. apply replace_space_no_space. vm_compute.
    by intros ?%list_elem_of_singleton. }
  assert (Hunder : " "%char ∉ lit "_")
    by (vm_compute; by intros ?%list_elem_of_singleton).
  assert (Hin : "_"%char ∈ lit "_") by (vm_compute; left).
  split; [done|]. unfold names, joined_names. clear names.
  destruct (addr_city address) as [city|].
  - change (replace (lit " ") (lit "_") <$> Some city)
      with (Some (replace (lit " ") (lit "_") city)).
    pose proof (Hclean city) as Hcity.
    destruct (replace (lit " ") (lit "_") city) as [|c rest]; split.
    + rewrite !not_elem_of_app. auto.
    + rewrite !elem_of_app. auto.
    + rewrite !not_elem_of_app. auto.
    + rewrite !elem_of_app. auto.
  - split.
    + rewrite !not_elem_of_app. repeat split; auto. by intros ?%elem_of_nil.
    + rewrite !elem_of_app. auto.
Qed.
End PageFacts.


(** ** More on the two searches *)

Section TripadvisorSearchFacts.
Import Tripadvisor.
Context `{Geometry}.
Variable web : service request response.
Variable self : TripadvisorCity.

#[local] Abbreviation ta_step' := (search_step web self).
#[local] Abbreviation ta_find' := (find_places_in_bounding_box web self).

Lemma ta_step_never_answers recur box r st tr :
  split_along_axes box 2 2 ≠ [] ->
  (forall sub r' tr', ¬ returned (recur sub r' tr').1) ->
  match (ta_step' recur box r st tr).1 with
  | Done (inr _) => False
  | _ => True
  end.
Proof.
  intros Hsplit Hrecur. unfold search_step. rewrite bind_run. unfold get.
  destruct (web tr (build_request self box r)) as [data|]; [|done].
  destruct (Z.of_nat (length data) >=? _max_num_results_per_request self).
  - destruct (split_along_axes box 2 2) as [|sub subs]; [done|].
    rewrite bind_run.
    change (for_each (sub :: subs) ?body ?s) with
      (body sub s ≫= for_each subs body).
    rewrite !bind_run.
    specialize (Hrecur sub (r / 2)%Q (tr ++ [EvGet (build_request self box r)])).
    by destruct (recur sub (r / 2)%Q _) as [[res|e|] tr1].
  - by destruct (Z.of_nat (length data) >=? 1).
Qed.

Lemma while_true_never_answers {Req St A} n (body : St -> M Req (St + A)) s tr :
  (forall s' tr', match (body s' tr').1 with Done (inr _) => False | _ => True end) ->
  ¬ returned (while_true n body s tr).1.
Proof.
  intros Hbody. revert s tr. induction n as [|n IH]; intros s tr; simpl; [tauto|].
  unfold bind. specialize (Hbody s tr).
  destruct (body s tr) as [[[s'|a]|e|] tr1]; simpl in *; try tauto.
  apply IH.
Qed.

(** X19: the TripAdvisor search of a cell never returns, whatever the
    service answers, as soon as splitting a cell gives at least one cell:
    the only [return] of the method comes after the search of the parts of
    the cell, and that search is the method itself.  A run ends with an
    exception or does not end. *)
Theorem tripadvisor_search_never_returns :
  (forall box, split_along_axes box 2 2 ≠ []) ->
  forall fuel box r tr, ¬ returned (ta_find' fuel box r tr).1.
Proof.
  intros Hsplit. induction fuel as [|fuel IH]; intros box r tr; [simpl; tauto|].
  rewrite (ta_find_succ web self). apply while_true_never_answers.
  intros st tr1. by apply ta_step_never_answers.
Qed.
End TripadvisorSearchFacts.

Section YelpSearchFacts.
Import Yelp.
Context `{Geometry}.
Variable web : service request response.
Variable self : YelpClient.

(** X20: a cell whose total stays between 1 and the cap is read in
    [num_pages total] requests, at the offsets 0, 50, 100 and so on, with
    half a second of sleep between two requests and none after the last;
    the search returns the records of all the pages and no error.  The
    search calls nothing below itself here, so the stack only needs room
    for the call. *)
Theorem yelp_reads_cell_in_pages box r total depth fuel tr :
  1 <= total <= MAX_NUM_QUERY_RESULTS ->
  (forall tr' i, exists bs,
      web tr' (page_request self box r i) = Ok total bs) ->
  let n := Z.to_nat (num_pages total) in
  (n <= fuel)%nat ->
  find_places_in_bounding_box web self (S depth) fuel box r tr =
  (Done (paged_records web self box r tr n, []),
   tr ++ paging_events self box r (n - 1) ++
   [EvGet (page_request self box r (n - 1))]) /\
  (fun rq => offset (query rq)) <$>
    requests (paging_events self box r (n - 1) ++
              [EvGet (page_request self box r (n - 1))])
  = (fun i => Z.of_nat i * 50) <$> seq 0 n.
Proof.
  intros Htotal Hweb n Hfuel.
  pose proof (num_pages_positive total ltac:(lia)) as Hpages.
  assert (Hn : n = S (n - 1)) by lia.
  split.
  - rewrite Hn at 1.
    apply (yelp_paginates web self box r total (n - 1) depth fuel tr);
      [done|done|lia|lia].
  - rewrite Hn at 3. generalize (n - 1)%nat. intros k.
    rewrite requests_app, fmap_app, seq_S, fmap_app. f_equal.
    induction k as [|k IH]; [reflexivity|].
    rewrite paging_events_succ, requests_app, fmap_app, IH, seq_S, fmap_app.
    reflexivity.
Qed.

Lemma failures_elem tr evs e :
  e ∈ failures web tr evs ->
  exists evs1 rq evs2,
    evs = evs1 ++ EvGet rq :: evs2 /\
    web (tr ++ evs1) rq = NotOk (err_data e) /\
    err_params e = query rq.
Proof.
  revert tr. induction evs as [|[rq|secs] evs IH]; intros tr;
    unfold failures; simpl.
  - by intros ?%elem_of_nil.
  - intros He.
    assert (Hcases : (exists data, web tr rq = NotOk data /\
                        e = {| err_params := query rq; err_data := data |}) \/
                     e ∈ failures web (tr ++ [EvGet rq]) evs).
    { unfold failure in He. simpl in He.
      destruct (web tr rq) as [total bs|data| |ok|]; try by right.
      apply elem_of_cons in He as [->|He]; [left; by exists data|by right]. }
    destruct Hcases as [(data & Hweb & ->)|Hin].
    + exists [], rq, evs. by rewrite app_nil_r.
    + destruct (IH _ Hin) as (evs1 & rq' & evs2 & -> & Hweb & Hp).
      exists (EvGet rq :: evs1), rq', evs2.
      rewrite <- app_assoc in Hweb. done.
  - intros Hin.
    destruct (IH _ Hin) as (evs1 & rq' & evs2 & -> & Hweb & Hp).
    exists (EvSleep secs :: evs1), rq', evs2.
    rewrite <- app_assoc in Hweb. done.
Qed.

(** X21: the errors in the result of [run_nearby_search] are the failed
    requests of the run, neither more nor fewer and in the order they
    were sent: each error holds the parameters of a request that the run
    sent and the body of the response, not OK, that the service gave to
    that request at that point of the run. *)
Theorem yelp_run_errors_are_failed_requests depth fuel geo tr result tr' :
  run_nearby_search web self depth fuel geo tr = (Done result, tr') ->
  exists evs,
    tr' = tr ++ evs /\
    errors result = failures web tr evs /\
    Forall (fun e => exists evs1 rq evs2,
              evs = evs1 ++ EvGet rq :: evs2 /\
              web (tr ++ evs1) rq = NotOk (err_data e) /\
              err_params e = query rq)
           (errors result).
Proof.
  intros Hrun.
  destruct (accounts_run web self depth fuel geo _ _ _ Hrun)
    as (evs & -> & _ & He).
  exists evs. simpl in He. repeat split; [done|].
  rewrite He. apply Forall_forall. intros e. apply failures_elem.
Qed.

(** X22: when no cell of the grid intersects the boundary,
    [run_nearby_search] sends no request and returns a result with no
    place and no error. *)
Theorem yelp_run_without_cells depth fuel geo tr :
  Forall (fun cell => intersects_with cell geo = false) (grid_cells geo) ->
  run_nearby_search web self depth fuel geo tr =
  (Done {| raw := []; clean := clean_places [] geo; errors := [] |}, tr).
Proof.
  intros Hcells. unfold run_nearby_search.
  assert (Hloop : forall acc,
            for_each (grid_cells geo) (visit_cell web self depth fuel geo) acc tr
            = (Done acc, tr)).
  { induction Hcells as [|cell cells Hcell _ IH]; intros acc; [done|].
    simpl. unfold bind, visit_cell. rewrite Hcell. apply IH. }
  by rewrite (bind_done _ _ _ _ _ (Hloop ([], []))).
Qed.
End YelpSearchFacts.

(** ** Places of Yelp *)

Section PlaceFacts.
Import Py YelpPlace.

Lemma each_titles (cats : list category) :
  each (fun c => subscript c "title") (category_json <$> cats)
  = Value (JStr ∘ title <$> cats).
Proof.
  induction cats as [|c cats IH]; [done|].
  rewrite !fmap_cons. cbn [each]. rewrite IH. reflexivity.
Qed.

Lemma each_aliases (cats : list category) :
  each (fun c => subscript c "alias") (category_json <$> cats)
  = Value (JStr ∘ alias <$> cats).
Proof.
  induction cats as [|c cats IH]; [done|].
  rewrite !fmap_cons. cbn [each]. rewrite IH. reflexivity.
Qed.

Lemma join_strings sep (strings : list string) :
  join sep (JStr <$> strings) = Value (String.concat sep strings).
Proof.
  unfold join.
  assert (Heach : each as_str (JStr <$> strings) = Value strings).
  { induction strings as [|s strings IH]; [done|].
    rewrite fmap_cons. cbn [each]. rewrite IH. reflexivity. }
  by rewrite Heach.
Qed.

(** X23: [map_place] turns the object that describes a business into a
    place with its identifier, name, address and flags, the titles of its
    categories joined by a bar and their aliases likewise, and "yelp" for
    source, whatever else the object holds behind these keys. *)
Theorem map_place_of_business (b : business) :
  map_place (business_json b) =
  Value {| place_id := JStr (b_id b);
           place_name := JStr (b_name b);
           place_categories := String.concat "|" (title <$> b_categories b);
           place_aliases := String.concat "|" (alias <$> b_categories b);
           place_lat := b_latitude b;
           place_lon := b_longitude b;
           place_address := String.concat ", " (b_display_address b);
           place_is_closed := JBool (b_is_closed b);
           place_source := "yelp";
           place_url := JStr (b_url b) |}.
Proof.
  unfold map_place, business_json.
  change (subscript (JObj ?f) "id") with (Value (JStr (b_id b))).
  change (subscript (JObj ?f) "name") with (Value (JStr (b_name b))).
  change (subscript (JObj ?f) "categories")
    with (Value (JArr (category_json <$> b_categories b))).
  change (subscript (JObj ?f) "coordinates")
    with (Value (JObj [("latitude", b_latitude b); ("longitude", b_longitude b)]%string)).
  change (subscript (JObj ?f) "location")
    with (Value (JObj [("display_address", JArr (JStr <$> b_display_address b))]%string)).
  change (subscript (JObj ?f) "is_closed") with (Value (JBool (b_is_closed b))).
  change (subscript (JObj ?f) "url") with (Value (JStr (b_url b))).
  cbn [mbind answer_bind iterate].
  rewrite each_titles. cbn [mbind answer_bind].
  rewrite (list_fmap_compose title JStr), join_strings. cbn [mbind answer_bind].
  rewrite each_aliases. cbn [mbind answer_bind].
  rewrite (list_fmap_compose alias JStr), join_strings. cbn [mbind answer_bind].
  change (values _) with (Value [b_latitude b; b_longitude b]).
  cbn [mbind answer_bind unpack2].
  change (subscript _ "display_address") with (Value (JArr (JStr <$> b_display_address b))).
  cbn [mbind answer_bind iterate].
  rewrite join_strings. reflexivity.
Qed.

(** X24: [map_place] takes the latitude and the longitude by position: when
    it returns a place, the coordinates of the business are an object with
    two keys, whatever their names, and the latitude of the place is the
    value of the first, its longitude the value of the second. *)
Theorem map_place_coordinates_by_position place p :
  map_place place = Value p ->
  exists first second,
    subscript place "coordinates"
    = Value (JObj [(first, place_lat p); (second, place_lon p)]).
Proof.
  unfold map_place. intros Hrun.
  do 10 (apply answer_bind_value in Hrun as (? & _ & Hrun)).
  apply answer_bind_value in Hrun as (coordinates & Hcoord & Hrun).
  apply answer_bind_value in Hrun as (vals & Hvals & Hrun).
  apply answer_bind_value in Hrun as ([lat lon] & Hpair & Hrun).
  do 6 (apply answer_bind_value in Hrun as (? & _ & Hrun)).
  injection Hrun as <-. cbn [place_lat place_lon].
  destruct coordinates as [| | | | |fields]; try discriminate.
  injection Hvals as <-.
  destruct fields as [|[k1 v1] [|[k2 v2] [|? ?]]]; try discriminate.
  injection Hpair as <- <-. by exists k1, k2.
Qed.
End PlaceFacts.

(** ** Rooms of hotels *)

Section RoomFacts.
Import Py Str TripRooms.
Context {page ext : Type}.
Variable scrape : scraper page ext.

Lemma attempt_bind_got {A B} (m : attempt ext A) (k : A -> attempt ext B) b :
  m ≫= k = Got b -> exists a, m = Got a /\ k a = Got b.
Proof. destruct m as [a|e]; simpl; [eauto|discriminate]. Qed.

Lemma room_step_got crwl_method done hotel rest st st' :
  hotels st = done ++ hotel :: rest ->
  room_step scrape crwl_method (length done) hotel st = Got st' ->
  exists hotel' failed,
    with_rooms hotel hotel' /\
    hotels st' = (done ++ [hotel']) ++ rest /\
    failed_urls st' = Some failed /\
    Forall (fun f : failure ext => Some f.1.1 = address_of hotel) failed.
Proof.
  intros Hhotels. unfold room_step.
  destruct hotel as [|f1 [|url [|f3 [|f4 [|f5 more]]]]]; try discriminate.
  intros Hstep. apply attempt_bind_got in Hstep as (html & _ & Hstep).
  rewrite Hhotels in Hstep.
  rewrite list_lookup_middle in Hstep by done.
  destruct (reading (read_address scrape) html) as [address|e1];
    destruct (reading (read_number_of_rooms scrape) html) as [rooms|e2];
    injection Hstep as <-; simpl;
    eexists _, _; (split; [by eexists _, _|]);
    (split; [rewrite insert_app_r_alt, Nat.sub_diag by done;
             by rewrite <- app_assoc|]);
    (split; [done|]); repeat constructor.
Qed.

Lemma room_loop_got crwl_method done todo st st' :
  hotels st = done ++ todo ->
  room_loop scrape crwl_method (length done) todo st = Got st' ->
  exists done',
    hotels st' = done ++ done' /\
    Forall2 with_rooms todo done' /\
    match last todo with
    | Some hotel =>
        exists failed,
          failed_urls st' = Some failed /\
          Forall (fun f : failure ext => Some f.1.1 = address_of hotel) failed
    | None => failed_urls st' = failed_urls st
    end.
Proof.
  revert done st. induction todo as [|hotel todo IH]; intros done st Hhotels; simpl.
  - intros [= <-]. exists []. by rewrite app_nil_r in *.
  - intros Hloop. apply attempt_bind_got in Hloop as (st1 & Hstep & Hloop).
    destruct (room_step_got _ _ _ _ _ _ Hhotels Hstep)
      as (hotel' & failed & Hrooms & Hhotels1 & Hfailed & Hurls).
    replace (S (length done)) with (length (done ++ [hotel'])) in Hloop
      by (rewrite length_app; simpl; lia).
    apply (IH _ _ Hhotels1) in Hloop as (done' & Hhotels' & Hall & Hlast).
    exists (hotel' :: done'). split; [by rewrite Hhotels', <- app_assoc|].
    split; [by constructor|].
    destruct todo as [|next todo].
    + simpl in Hlast. simpl. rewrite Hlast. eauto.
    + change (last (hotel :: next :: todo)) with (last (next :: todo)).
      destruct (last (next :: todo)) eqn:Hl; [exact Hlast|].
      by apply last_None in Hl.
Qed.

(** X25: when [get_room_number] returns, each hotel of the list has two
    more fields, the address and the number of rooms, and the hotels are in
    the order they were. *)
Theorem get_room_number_adds_two_fields hotels_in crwl_method hotels_out failed :
  get_room_number scrape hotels_in crwl_method = Got (hotels_out, failed) ->
  Forall2 with_rooms hotels_in hotels_out.
Proof.
  unfold get_room_number. intros Hrun.
  apply attempt_bind_got in Hrun as (st & Hloop & Hrun).
  apply (room_loop_got crwl_method []) in Hloop as (done' & Hhotels & Hall & _);
    [|done].
  destruct (failed_urls st); [|discriminate]. injection Hrun as <- <-.
  by rewrite Hhotels.
Qed.

(** X26: the failures that [get_room_number] returns are those of the last
    hotel of the list alone: [failed_urls] is emptied at each hotel.  With
    no hotel in the list the name is not bound and the function raises. *)
Theorem get_room_number_keeps_last_failures hotels_in crwl_method :
  match get_room_number scrape hotels_in crwl_method with
  | Got (_, failed) =>
      exists hotel,
        last hotels_in = Some hotel /\
        Forall (fun f : failure ext => Some f.1.1 = address_of hotel) failed
  | Failed e =>
      hotels_in = [] -> e = Builtin (UnboundLocalError "failed_urls")
  end.
Proof.
  unfold get_room_number.
  destruct (room_loop scrape crwl_method 0 hotels_in _) as [st|e] eqn:Hloop.
  - apply (room_loop_got crwl_method []) in Hloop as (done' & _ & _ & Hlast);
      [|done].
    simpl. destruct (last hotels_in) as [hotel|].
    + destruct Hlast as (failed & -> & Hurls). eauto.
    + simpl in Hlast. rewrite Hlast. done.
  - simpl. intros ->. discriminate.
Qed.
End RoomFacts.

(** ** The properties on concrete inputs *)

Section RouteExamples.
Import Py Gurobi Example.

Lemma trace_route_returns_witness :
  (length arcs < 8)%nat /\
  exists route' left, trace_route 8 [0] 3 arcs = Value (route', left).
Proof.
  split; [simpl; lia|].
  apply (trace_route_returns 8 [0] 3 arcs). simpl. lia.
Defined.

Lemma trace_route_follows_arcs_witness :
  trace_route 8 [0] 3 arcs
    = Value ([0; 3; 1; 2; 0; 3], [(0, 5); (5, 0); (7, 8)]) /\
  exists tail,
    [0; 3; 1; 2; 0; 3] = [0] ++ 3 :: tail /\
    arcs ≡ₚ hops (3 :: tail) ++ [(0, 5); (5, 0); (7, 8)].
Proof.
  split; [reflexivity|].
  exact (trace_route_follows_arcs 8 [0] 3 arcs [0; 3; 1; 2; 0; 3]
           [(0, 5); (5, 0); (7, 8)] eq_refl).
Defined.

Lemma trace_route_stops_at_dead_end_witness :
  trace_route 8 [0] 3 arcs
    = Value ([0; 3; 1; 2; 0; 3], [(0, 5); (5, 0); (7, 8)]) /\
  exists final,
    last [0; 3; 1; 2; 0; 3] = Some final /\
    Forall (fun a : arc => a.1 ≠ final) [(0, 5); (5, 0); (7, 8)].
Proof.
  split; [reflexivity|].
  exact (trace_route_stops_at_dead_end 8 [0] 3 arcs [0; 3; 1; 2; 0; 3]
           [(0, 5); (5, 0); (7, 8)] eq_refl).
Defined.

Lemma print_save_route_keeps_other_arcs_witness :
  (length arcs < 8)%nat /\
  (print_save_route 8 no_routes arcs).1.1
    = [(1, 2); (3, 1); (2, 0); (5, 0); (7, 8)] /\
  ((print_save_route 8 no_routes arcs).2 = Error OSError /\
   saved_routes (print_save_route 8 no_routes arcs).1.2 = []) /\
  (print_save_route 8 after_a_run arcs).2 = Value tt.
Proof.
  assert (Hfuel : (length arcs < 8)%nat) by (simpl; lia).
  split; [exact Hfuel|].
  destruct (print_save_route_keeps_other_arcs 8 no_routes arcs)
    as (Hleft & Hfails & _).
  destruct (print_save_route_keeps_other_arcs 8 after_a_run arcs)
    as (_ & _ & Hreturns).
  split; [exact Hleft|]. split.
  - apply Hfails; [exact Hfuel|reflexivity|discriminate].
  - apply Hreturns; [exact Hfuel|by eexists|reflexivity|reflexivity].
Defined.

Lemma print_save_route_routes_witness :
  exists left events,
    print_save_route 8 after_a_run arcs = (left, events, Value tt) /\
    removed_paths events = ["routes/route_1.csv"; "routes/route_2.csv"]%string /\
    (saved_routes events).*1
      = ["routes/route_1.csv"; "routes/route_2.csv"]%string /\
    Forall2 (fun (start : arc) route =>
               (exists tail, route = 0 :: start.2 :: tail) /\
               forall i, (0 < i)%nat -> (S i < length route)%nat ->
                         route !! i ≠ Some 0)
            [(0, 3); (0, 5)] (saved_routes events).*2.
Proof.
  eexists _, _. split; [vm_compute; reflexivity|].
  split; [vm_compute; reflexivity|].
  apply (print_save_route_routes 8 after_a_run arcs
           [(1, 2); (3, 1); (2, 0); (5, 0); (7, 8)]).
  vm_compute. reflexivity.
Defined.

Lemma clear_routes_csv_removes_csv_files_witness :
  routes_dir with_archive
    = Holds ["route_1.csv"; "archive.csv"; "route_2.csv"]%string /\
  removable with_archive "routes/archive.csv" = false /\
  clear_routes_csv with_archive "routes"
    = ([Remove "routes/route_1.csv"; Print "Deleted routes/route_1.csv"],
       Error OSError) /\
  exists k,
    removed_paths (clear_routes_csv with_archive "routes").1
      = take k ["routes/route_1.csv"; "routes/archive.csv";
                "routes/route_2.csv"]%string /\
    Forall (fun path => removable with_archive path = true)
      (take k ["routes/route_1.csv"; "routes/archive.csv";
               "routes/route_2.csv"]%string) /\
    match ["routes/route_1.csv"; "routes/archive.csv";
           "routes/route_2.csv"]%string !! k with
    | None => (clear_routes_csv with_archive "routes").2 = Value tt
    | Some path =>
        removable with_archive path = false /\
        (clear_routes_csv with_archive "routes").2 = Error OSError
    end.
Proof.
  split; [reflexivity|]. split; [reflexivity|]. split; [reflexivity|].
  apply (proj2 (clear_routes_csv_removes_csv_files with_archive "routes")
           ["route_1.csv"; "archive.csv"; "route_2.csv"]%string).
  reflexivity.
Defined.

Lemma get_model_figure_arcs_witness :
  exists fig,
    get_model_figure points distances = Value fig /\
    fig_V fig = [0; 1; 2] /\
    fig_N fig = [1; 2] /\
    (forall i j, (i, j) ∈ fig_A fig <-> 0 <= i < 3 /\ 0 <= j < 3 /\ i ≠ j) /\
    NoDup (fig_A fig) /\
    length (fig_A fig) = 6%nat.
Proof.
  eexists. split; [reflexivity|].
  apply (get_model_figure_arcs points distances). reflexivity.
Defined.

Lemma get_model_figure_tables_witness :
  exists fig,
    get_model_figure points distances = Value fig /\
    (forall a, a ∈ fig_A fig ->
       exists d, iloc distances a.1 a.2 = Value d /\ fig_c fig !! a = Some d) /\
    (forall a, a ∉ fig_A fig -> fig_c fig !! a = None) /\
    (exists k, index_of "Daily_Pickup_Totes" (columns points) = Some k /\
       forall i, i ∈ fig_N fig ->
         exists row t, rows points !! Z.to_nat i = Some row /\
                       row !! k = Some t /\ fig_q fig !! i = Some t) /\
    (forall i, i ∉ fig_N fig -> fig_q fig !! i = None).
Proof.
  eexists. split; [reflexivity|].
  apply (get_model_figure_tables points distances). reflexivity.
Defined.

Lemma get_model_figure_small_matrix_witness :
  iloc short_distances 0 2 = Error IndexError /\
  get_model_figure points short_distances = Error IndexError.
Proof.
  split; [reflexivity|].
  apply (get_model_figure_small_matrix points short_distances 0 2);
    [|reflexivity].
  apply (list_elem_of_lookup_2 _ 1%nat). reflexivity.
Defined.

Lemma get_model_figure_returns_witness :
  index_of "Daily_Pickup_Totes" (columns points) = Some 1%nat /\
  exists fig, get_model_figure points distances = Value fig.
Proof.
  split; [reflexivity|].
  apply (get_model_figure_returns points distances 1).
  - intros i j Hi Hj. simpl in Hi, Hj.
    assert (Hi' : i = 0 \/ i = 1 \/ i = 2) by lia.
    assert (Hj' : j = 0 \/ j = 1 \/ j = 2) by lia.
    destruct Hi' as [->|[->| ->]], Hj' as [->|[->| ->]];
      eexists; reflexivity.
  - reflexivity.
  - repeat constructor; eexists; reflexivity.
Defined.

End RouteExamples.

Section CityExamples.
Import Py Str TripCity Example.

Lemma tripadvisor_city_info_first_match_witness :
  isascii (lit "hilo") = true /\
  ascii_names [kona; hilo; hilo] = true /\
  tripadvisor_city_info (Some [kona; hilo; hilo]) (lit "hilo") = Value hilo /\
  exists before after,
    Some [kona; hilo; hilo] = Some (before ++ hilo :: after) /\
    names_city (lit "hilo") hilo /\
    Forall (names_other_city (lit "hilo")) before.
Proof.
  split; [reflexivity|]. split; [reflexivity|]. split; [reflexivity|].
  apply (tripadvisor_city_info_first_match (Some [kona; hilo; hilo])
           (lit "hilo") hilo); reflexivity.
Defined.

Lemma tripadvisor_city_info_no_match_witness :
  isascii (lit "hilo") = true /\
  ascii_names [kona] = true /\
  Forall (names_other_city (lit "hilo")) [kona] /\
  tripadvisor_city_info (Some [kona]) (lit "hilo")
  = Error (ValueError (show (lit "hilo") ++
                       " was not found via the Tripadvisor API")).
Proof.
  assert (Hother : Forall (names_other_city (lit "hilo")) [kona]).
  { repeat constructor. vm_compute. eexists. split; [reflexivity|].
    intros Heq. discriminate Heq. }
  split; [reflexivity|]. split; [reflexivity|]. split; [exact Hother|].
  exact (tripadvisor_city_info_no_match [kona] (lit "hilo")
           eq_refl eq_refl Hother).
Defined.


Lemma prepared_cityname_is_clean_witness :
  isascii (lit "  New York ") = true /\
  prep_cityname_geojson (lit "  New York ") = lit "new_york" /\
  prep_cityname_api (lit "  New York ") = lit "new%20york" /\
  (isascii (prep_cityname_geojson (lit "  New York ")) = true /\
   (" "%char ∉ prep_cityname_geojson (lit "  New York ")) /\
   Forall (fun c => isupper c = false)
     (prep_cityname_geojson (lit "  New York "))) /\
  (isascii (prep_cityname_api (lit "  New York ")) = true /\
   (" "%char ∉ prep_cityname_api (lit "  New York ")) /\
   Forall (fun c => isupper c = false)
     (prep_cityname_api (lit "  New York "))).
Proof.
  split; [reflexivity|]. split; [reflexivity|]. split; [reflexivity|].
  apply (prepared_cityname_is_clean (lit "  New York ")). reflexivity.
Defined.

Lemma get_additional_hotelpage_first_witness :
  get_additional_hotelpage
    (lit "https://www.tripadvisor.com/Hotels-g60583-Hilo_Island_of_Hawaii_Hawaii-Hotels.html")
  = Value
    (lit "https://www.tripadvisor.com/Hotels-g60583-oa30-Hilo_Island_of_Hawaii_Hawaii-Hotels.html").
Proof.
  apply (get_additional_hotelpage_first (lit "60583") hilo_names).
  - apply (bool_decide_unpack _). vm_compute. exact I.
  - apply (bool_decide_unpack _). vm_compute. exact I.
  - apply (bool_decide_unpack _). vm_compute. exact I.
  - vm_compute. reflexivity.
Defined.

Lemma get_additional_hotelpage_next_witness :
  get_additional_hotelpage
    (lit "https://www.tripadvisor.com/Hotels-g60583-oa30-Hilo_Island_of_Hawaii_Hawaii-Hotels.html")
  = Value
    (lit "https://www.tripadvisor.com/Hotels-g60583-oa60-Hilo_Island_of_Hawaii_Hawaii-Hotels.html").
Proof.
  apply (get_additional_hotelpage_next (lit "60583") hilo_names 30).
  - lia.
  - apply (bool_decide_unpack _). vm_compute. exact I.
  - apply (bool_decide_unpack _). vm_compute. exact I.
  - vm_compute. reflexivity.
Defined.

Lemma tripadvisor_city_hotels_address_witness :
  tripadvisor_city_hotels hilo TRIP_HOTELLST_URL
  = Value (lit "https://www.tripadvisor.com/Hotels-g60583-Hilo_Island_of_Hawaii_Hawaii-Hotels.html") /\
  exists location_id name address state,
    TripCity.location_id hilo = Some location_id /\
    TripCity.name hilo = Some name /\
    address_obj hilo = Some address /\
    addr_state address = Some state /\
    let names := joined_names name (addr_city address) state in
    lit "https://www.tripadvisor.com/Hotels-g60583-Hilo_Island_of_Hawaii_Hawaii-Hotels.html"
    = hotels_url TRIP_HOTELLST_URL location_id names /\
    (" "%char ∉ names) /\ "_"%char ∈ names.
Proof.
  split; [reflexivity|].
  apply (tripadvisor_city_hotels_address hilo TRIP_HOTELLST_URL).
  reflexivity.
Defined.

End CityExamples.

Section SearchExamples.
Import Scenario Example.

Lemma tripadvisor_search_never_returns_witness :
  (forall box : BoundingBox, split_along_axes box 2 2 ≠ []) /\
  ¬ returned (Tripadvisor.find_places_in_bounding_box
                few_hotels city 5 unit_cell 1 []).1.
Proof.
  assert (Hsplit : forall box : BoundingBox, split_along_axes box 2 2 ≠ [])
    by (intros box; discriminate).
  split; [exact Hsplit|].
  exact (tripadvisor_search_never_returns (H := flat_geometry)
           few_hotels city Hsplit 5%nat unit_cell 1 []).
Defined.

Lemma yelp_reads_cell_in_pages_witness :
  (1 <= 1000 <= Yelp.MAX_NUM_QUERY_RESULTS /\ (20 <= 20)%nat) /\
  (fun rq => Yelp.offset (Yelp.query rq)) <$>
    requests (Yelp.paging_events client unit_cell 1 19 ++
              [EvGet (Yelp.page_request client unit_cell 1 19)])
  = (fun i => Z.of_nat i * 50) <$> seq 0 20.
Proof.
  assert (Htotal : 1 <= 1000 <= Yelp.MAX_NUM_QUERY_RESULTS)
    by (unfold Yelp.MAX_NUM_QUERY_RESULTS; lia).
  split; [split; [exact Htotal|lia]|].
  refine (proj2 (yelp_reads_cell_in_pages (H := flat_geometry)
                   full_cell client unit_cell 1 1000 0%nat 20%nat []
                   Htotal _ _)).
  - intros tr' i. eexists. reflexivity.
  - vm_compute. lia.
Defined.

Lemma yelp_run_errors_are_failed_requests_witness :
  let R := inject_Z Yelp.MAX_SEARCH_RADIUS_IN_METERS in
  let rq1 := Yelp.page_request client west_cell R 1 in
  let evs :=
    [EvGet (Yelp.page_request client west_cell R 0); EvSleep (1 # 2);
     EvGet rq1;
     EvGet (Yelp.page_request client east_cell R 0); EvSleep (1 # 2);
     EvGet (Yelp.page_request client east_cell R 1)] in
  let err :=
    {| Yelp.err_params := Yelp.build_params west_cell R 1;
       Yelp.err_data := JObj [("error"%string, JStr "INTERNAL_ERROR")] |} in
  let result :=
    {| Yelp.raw := one_poi ++ one_poi ++ one_poi;
       Yelp.clean := one_poi ++ one_poi ++ one_poi;
       Yelp.errors := [err] |} in
  Yelp.run_nearby_search second_page_down client 1 3 strip []
    = (Done result, [] ++ evs) /\
  exists evs',
    [] ++ evs = [] ++ evs' /\
    [err] = Yelp.failures second_page_down [] evs' /\
    Forall (fun e => exists evs1 rq evs2,
              evs' = evs1 ++ EvGet rq :: evs2 /\
              second_page_down ([] ++ evs1) rq = Yelp.NotOk (Yelp.err_data e) /\
              Yelp.err_params e = Yelp.query rq)
           [err].
Proof.
  intros R rq1 evs err result.
  assert (Hrun : Yelp.run_nearby_search second_page_down client 1 3 strip []
                 = (Done result, [] ++ evs)) by evaluated.
  split; [exact Hrun|].
  exact (yelp_run_errors_are_failed_requests (H := flat_geometry)
           second_page_down client 1 3 strip [] result ([] ++ evs) Hrun).
Defined.

Lemma yelp_run_without_cells_witness :
  Forall (fun cell => intersects_with cell two_points = false)
         (Yelp.grid_cells two_points) /\
  Yelp.run_nearby_search dense_everywhere client 3 3 two_points []
  = (Done {| Yelp.raw := []; Yelp.clean := []; Yelp.errors := [] |}, []).
Proof.
  assert (Hfar : Forall (fun cell => intersects_with cell two_points = false)
                        (Yelp.grid_cells two_points))
    by (vm_compute; repeat constructor).
  split; [exact Hfar|].
  exact (yelp_run_without_cells (H := flat_geometry)
           dense_everywhere client 3%nat 3%nat two_points [] Hfar).
Defined.

End SearchExamples.

Section PlaceExamples.
Import Py Str YelpPlace TripRooms Example.

Lemma map_place_coordinates_by_position_witness :
  exists p,
    map_place cafe = Value p /\
    place_lat p = JInt (-155) /\
    exists first second,
      subscript cafe "coordinates"
      = Value (JObj [(first, place_lat p); (second, place_lon p)]).
Proof.
  eexists. split; [reflexivity|]. split; [reflexivity|].
  apply (map_place_coordinates_by_position cafe). reflexivity.
Defined.

Lemma get_room_number_adds_two_fields_witness :
  exists hotels_out failed,
    get_room_number pages two_hotels "web" = Got (hotels_out, failed) /\
    Forall2 with_rooms two_hotels hotels_out.
Proof.
  eexists _, _. split; [vm_compute; reflexivity|].
  exact (get_room_number_adds_two_fields pages two_hotels "web" _ _ eq_refl).
Defined.

End PlaceExamples.

